(** * dependency_graph: a shallow embedding of [dependency_graph.py]

    The Python module keeps a dictionary of [Node] objects; every node owns
    the list of its incident [Edge]s and a set of the nodes it depends on.
    [DirectedGraph.find_paths] walks the graph depth first from every root
    with an explicit stack, and [DirectedGraph.create_plan] linearises the
    nodes by relocating each of them behind its dependencies.

    Conventions of the embedding:
    - a reference to a [Node] object is the node's [name], the key under
      which [add_node] stores it (node equality in the source is object
      identity, and a graph holds one object per name);
    - the dictionary [self.nodes] is an association list in insertion order,
      the order in which Python iterates over it;
    - [node._depends_on], a Python [set], is a [gset string];
    - a weak reference to an edge is the edge itself: the edge is kept alive
      by the [edges] list of the node that holds the weak reference;
    - an operation returns the graph it leaves behind together with either
      its value or the exception it raised; [find_paths], [dump] and
      [create_plan] also return what they printed;
    - [find_paths] and [dump] call each other, so both take the number of
      nested calls the interpreter still allows ([depth]); the [while] loop
      of [find_paths] takes a number of iterations ([fuel]), and the
      statements about results give a [fuel] that is enough. *)

From stdpp Require Import base numbers list strings gmap sets relations.


(** ** Exceptions and results *)

(** The source raises [Exception] with a message, and [KeyError] for an
    unknown key; the constructors name the conditions.  [RecursionError] is
    what the interpreter raises when calls nest deeper than its limit, and
    [ValueError] what [list.remove] raises on a missing element.
    [OutOfFuel] is not a Python exception: it marks a run of the [while] loop
    that was cut off by the step budget of the model. *)
Inductive exn : Type :=
  | DuplicateNode
  | SelfLoop
  | UnknownNode
  | DuplicateRelation
  | InvalidRelation
  | CycleDetected
  | RecursionError
  | ValueError
  | OutOfFuel.

Inductive result (A : Type) : Type :=
  | Ok (a : A)
  | Err (e : exn).
Arguments Ok {A} a.
Arguments Err {A} e.

#[global] Instance exn_eq_dec : EqDecision exn.
Proof. solve_decision. Defined.

(** ** Dictionaries in insertion order *)

Fixpoint dict_get {V : Type} (key : string) (d : list (string * V)) : option V :=
  match d with
  | [] => None
  | (k, v) :: d' => if decide (k = key) then Some v else dict_get key d'
  end.

(** [d[key] = v]: an existing key keeps its position, a new one goes last. *)
Fixpoint dict_set {V : Type} (key : string) (v : V) (d : list (string * V))
  : list (string * V) :=
  match d with
  | [] => [(key, v)]
  | (k, v0) :: d' =>
      if decide (k = key) then (k, v) :: d' else (k, v0) :: dict_set key v d'
  end.

(** In-place mutation of the object stored under [key]. *)
Fixpoint dict_alter {V : Type} (f : V → V) (key : string) (d : list (string * V))
  : list (string * V) :=
  match d with
  | [] => []
  | (k, v0) :: d' =>
      if decide (k = key) then (k, f v0) :: d' else (k, v0) :: dict_alter f key d'
  end.

Definition dict_keys {V : Type} (d : list (string * V)) : list string := d.*1.

(** ** Edge *)

Record Edge : Type := mkEdge { from_node : string; to_node : string }.

#[global] Instance Edge_eq_dec : EqDecision Edge.
Proof. solve_decision. Defined.

(** [Edge.__eq__]: the same pair of nodes, in either direction. *)
Definition Edge_eq (self other : Edge) : bool :=
  if bool_decide (from_node self = from_node other)
     && bool_decide (to_node self = to_node other) then true
  else if bool_decide (from_node self = to_node other)
          && bool_decide (to_node self = from_node other) then true
  else false.

(** The properties [Edge.start] and [Edge.end]. *)
Definition Edge_start (self : Edge) : string := from_node self.

Definition Edge_end (self : Edge) : string := to_node self.

(** [Edge.__str__]; a node prints as its name. *)
Definition Edge_str (self : Edge) : string :=
  ("Edge <From: " +:+ Edge_start self +:+ " To: " +:+ Edge_end self +:+ ">")%string.

Definition connected_to_node (self : Edge) (node : string) : bool :=
  bool_decide (from_node self = node) || bool_decide (to_node self = node).

(** The source returns [True] or falls off the end ([None], which is false
    wherever the result is tested). *)
Definition is_outgoing_edge (self : Edge) (node : string) : result bool :=
  if negb (connected_to_node self node) then Err InvalidRelation
  else Ok (bool_decide (from_node self = node)).

Definition is_incoming_edge (self : Edge) (node : string) : result bool :=
  if negb (connected_to_node self node) then Err InvalidRelation
  else Ok (bool_decide (to_node self = node)).

(** Python's [any] over a generator: stops at the first true element, and
    an exception raised on the way propagates. *)
Fixpoint any_result {A : Type} (f : A → result bool) (l : list A) : result bool :=
  match l with
  | [] => Ok false
  | x :: l' =>
      match f x with
      | Err e => Err e
      | Ok true => Ok true
      | Ok false => any_result f l'
      end
  end.

(** ** Node *)

Section Model.
Context {Data : Type}.

Record Node : Type := mkNode {
  name : string;
  data : Data;
  edges : list Edge;
  outgoing_edges : list Edge;
  incoming_edges : list Edge;
  _depends_on : gset string
}.

(** [Node.__init__] *)
Definition Node_init (name : string) (data : Data) : Node :=
  {| name := name; data := data; edges := []; outgoing_edges := [];
     incoming_edges := []; _depends_on := ∅ |}.

Fixpoint has_edge_in (l : list Edge) (other_edge : Edge) : bool :=
  match l with
  | [] => false
  | edge :: l' => if Edge_eq other_edge edge then true else has_edge_in l' other_edge
  end.

Definition has_edge (self : Node) (other_edge : Edge) : bool :=
  has_edge_in (edges self) other_edge.

Definition has_incoming_edges (self : Node) : result bool :=
  any_result (λ edge, is_incoming_edge edge (name self)) (edges self).

Definition has_outgoing_edges (self : Node) : result bool :=
  any_result (λ edge, is_outgoing_edge edge (name self)) (edges self).

Definition add_dependency (self : Node) (node : string) : Node :=
  {| name := name self; data := data self; edges := edges self;
     outgoing_edges := outgoing_edges self;
     incoming_edges := incoming_edges self;
     _depends_on := {[ node ]} ∪ _depends_on self |}.

Definition get_dependencies (self : Node) : gset string := _depends_on self.

Definition depends_on (self : Node) (node : string) : bool :=
  bool_decide (node ∈ _depends_on self).

Definition is_dependency_for (self : Node) (node : Node) : bool :=
  depends_on node (name self).

(** [Node.add_edge] *)
Definition Node_add_edge (self : Node) (edge : Edge) : result Node :=
  if has_edge self edge then Err DuplicateRelation
  else if bool_decide (from_node edge = name self) then
    Ok {| name := name self; data := data self;
          edges := edges self ++ [edge];
          outgoing_edges := outgoing_edges self ++ [edge];
          incoming_edges := incoming_edges self;
          _depends_on := _depends_on self |}
  else
    Ok {| name := name self; data := data self;
          edges := edges self ++ [edge];
          outgoing_edges := outgoing_edges self;
          incoming_edges := incoming_edges self ++ [edge];
          _depends_on := _depends_on self |}.

(** [Node.__str__] *)
Definition Node_str (self : Node) : string := name self.

(** [Node.repath]: its body is [pass]. *)
Definition repath (self : Node) : Node := self.

(** [Node.__lt__] and [Node.__gt__] *)
Definition Node_lt (self other : Node) : bool :=
  if bool_decide (name self = name other) then false
  else depends_on self (name other).

Definition Node_gt (self other : Node) : bool :=
  if bool_decide (name self = name other) then false
  else is_dependency_for self other.

(** ** DirectedGraph *)

Record DirectedGraph : Type := mkGraph {
  nodes : list (string * Node);
  paths : list (list string);
  _cache_dirty : bool
}.

(** [DirectedGraph.__init__] *)
Definition DirectedGraph_init : DirectedGraph :=
  {| nodes := []; paths := []; _cache_dirty := true |}.

Definition with_nodes (self : DirectedGraph) (ns : list (string * Node))
  : DirectedGraph :=
  {| nodes := ns; paths := paths self; _cache_dirty := _cache_dirty self |}.

Definition add_node (self : DirectedGraph) (node : Node)
  : DirectedGraph * result unit :=
  match dict_get (name node) (nodes self) with
  | Some _ => (self, Err DuplicateNode)
  | None => (with_nodes self (dict_set (name node) node (nodes self)), Ok tt)
  end.

(** [DirectedGraph.add_edge].  The edge is registered on the source node
    first; when the registration on the target node raises, the source node
    has already been changed. *)
Definition add_edge (self : DirectedGraph) (from_node_key to_node_key : string)
  : DirectedGraph * result unit :=
  if bool_decide (from_node_key = to_node_key) then (self, Err SelfLoop)
  else
    match dict_get from_node_key (nodes self) with
    | None => (self, Err UnknownNode)
    | Some from_node =>
        match dict_get to_node_key (nodes self) with
        | None => (self, Err UnknownNode)
        | Some to_node =>
            let new_edge := mkEdge (name from_node) (name to_node) in
            match Node_add_edge from_node new_edge with
            | Err e => (self, Err e)
            | Ok from_node' =>
                let self1 :=
                  with_nodes self (dict_set from_node_key from_node' (nodes self)) in
                match Node_add_edge to_node new_edge with
                | Err e => (self1, Err e)
                | Ok to_node' =>
                    (with_nodes self1 (dict_set to_node_key to_node' (nodes self1)),
                     Ok tt)
                end
            end
        end
    end.

Definition get_node (self : DirectedGraph) (key : string) : option Node :=
  dict_get key (nodes self).

(** *** find_paths *)

(** Following a reference to a node object.  In the source a reference is
    always valid; here a name that is in no entry has no outgoing edges. *)
Definition outgoing_of (st : list (string * Node)) (ref : string) : list Edge :=
  match dict_get ref st with
  | Some node => outgoing_edges node
  | None => []
  end.

(** The loop that selects the roots: nodes for which [has_incoming_edges]
    is false, in dictionary order. *)
Fixpoint collect_roots (items : list (string * Node)) : result (list string) :=
  match items with
  | [] => Ok []
  | (key, node) :: items' =>
      match has_incoming_edges node with
      | Err e => Err e
      | Ok b =>
          match collect_roots items' with
          | Err e => Err e
          | Ok root_nodes => Ok (if b then root_nodes else key :: root_nodes)
          end
      end
  end.

(** [for prev_node in current_path: ... prev_node.add_dependency(current_node)] *)
Fixpoint record_dependencies (st : list (string * Node)) (prevs : list string)
    (current_node : string) : list (string * Node) :=
  match prevs with
  | [] => st
  | prev_node :: prevs' =>
      let st' :=
        if bool_decide (prev_node = current_node) then st
        else dict_alter (λ n, add_dependency n current_node) prev_node st in
      record_dependencies st' prevs' current_node
  end.

(** A frame of [node_stack]: a node and the path that led to it.  The head
    of the list is the top of the stack ([pop] takes the last element of the
    Python list, [append] adds behind it). *)
Definition frame : Type := string * list string.

(** [for edge_ref in current_node.outgoing_edges: ...]; [None] when the
    target of an edge is already on the current path. *)
Fixpoint push_children (outgoing : list Edge) (current_path : list string)
    (node_stack : list frame) : option (list frame) :=
  match outgoing with
  | [] => Some node_stack
  | edge :: outgoing' =>
      if bool_decide (to_node edge ∈ current_path) then None
      else push_children outgoing' current_path
             ((to_node edge, current_path) :: node_stack)
  end.

(** How a traversal ends: all frames consumed, a cycle met (the point where
    the source calls [self.dump()]), or the step budget exhausted. *)
Inductive traversal : Type :=
  | Finished (st : list (string * Node)) (paths : list (list string))
  | CycleFound (st : list (string * Node))
  | Exhausted (st : list (string * Node)).

(** [while len(node_stack) > 0: ...]; one unit of [fuel] per iteration. *)
Fixpoint while_stack (fuel : nat) (st : list (string * Node))
    (node_stack : list frame) (paths : list (list string)) : traversal :=
  match node_stack with
  | [] => Finished st paths
  | (current_node, path0) :: node_stack' =>
      match fuel with
      | 0 => Exhausted st
      | S fuel' =>
          let current_path := path0 ++ [current_node] in
          let st1 := record_dependencies st current_path current_node in
          match outgoing_of st1 current_node with
          | [] =>
              while_stack fuel' st1 node_stack'
                (match current_path with [] => paths | _ => paths ++ [current_path] end)
          | outgoing =>
              match push_children outgoing current_path node_stack' with
              | None => CycleFound st1
              | Some node_stack'' => while_stack fuel' st1 node_stack'' paths
              end
          end
      end
  end.

(** [for node in root_nodes: node_stack = [(node, [])] ...] *)
Fixpoint for_roots (fuel : nat) (root_nodes : list string)
    (st : list (string * Node)) (paths : list (list string)) : traversal :=
  match root_nodes with
  | [] => Finished st paths
  | node :: root_nodes' =>
      match while_stack fuel st [(node, [])] paths with
      | Finished st' paths' => for_roots fuel root_nodes' st' paths'
      | other => other
      end
  end.

(** One block of the report that [dump] prints: the node's name, its
    outgoing edges as (source, target) names, and its dependency set. *)
Record dump_entry : Type := mkDump {
  dump_name : string;
  dump_edges : list (string * string);
  dump_depends_on : gset string
}.

Definition dump_report (self : DirectedGraph) : list dump_entry :=
  (λ kv : string * Node,
     mkDump (name kv.2)
            ((λ edge, (name kv.2, to_node edge)) <$> outgoing_edges kv.2)
            (_depends_on kv.2)) <$> nodes self.

(** The value of an operation that may print: the graph left behind, the
    blocks printed, and the value or exception. *)
Definition run (A : Type) : Type := DirectedGraph * list dump_entry * result A.

(** [dump], given the [find_paths] it calls first. *)
Definition dump_with (find_paths : DirectedGraph → run (list (list string)))
    (self : DirectedGraph) : run unit :=
  match find_paths self with
  | (self', out, Err e) => (self', out, Err e)
  | (self', out, Ok _) => (self', out ++ dump_report self', Ok tt)
  end.

(** [DirectedGraph.find_paths].  [depth] is the number of nested
    activations of [find_paths] the interpreter still allows ([find_paths]
    calls [dump], which calls [find_paths]); [fuel] bounds the iterations of
    each [while] loop. *)
Fixpoint find_paths (depth fuel : nat) (self : DirectedGraph)
  : run (list (list string)) :=
  match depth with
  | 0 => (self, [], Err RecursionError)
  | S depth' =>
      if negb (_cache_dirty self) then (self, [], Ok (paths self))
      else
        match collect_roots (nodes self) with
        | Err e => (self, [], Err e)
        | Ok root_nodes =>
            match for_roots fuel root_nodes (nodes self) [] with
            | Finished st' paths' =>
                ({| nodes := st'; paths := paths';
                    _cache_dirty := _cache_dirty self |}, [], Ok paths')
            | CycleFound st' =>
                match dump_with (find_paths depth' fuel) (with_nodes self st') with
                | (self', out, Err e) => (self', out, Err e)
                | (self', out, Ok _) => (self', out, Err CycleDetected)
                end
            | Exhausted st' => (with_nodes self st', [], Err OutOfFuel)
            end
        end
  end.

(** [DirectedGraph.dump] *)
Definition dump (depth fuel : nat) (self : DirectedGraph) : run unit :=
  match depth with
  | 0 => (self, [], Err RecursionError)
  | S depth' => dump_with (find_paths depth' fuel) self
  end.

(** *** create_plan *)

(** [node < nodes[i]] on references: [Node.__lt__] of the two objects. *)
Definition ref_lt (st : list (string * Node)) (self other : string) : bool :=
  match dict_get self st, dict_get other st with
  | Some self_node, Some other_node => Node_lt self_node other_node
  | _, _ => false
  end.

(** [for i in range(len(nodes)): ...]: the index of [node] and the highest
    index of a node it depends on, [i] being the index of the head of
    [l]. *)
Fixpoint scan (st : list (string * Node)) (node : string) (l : list string)
    (i : nat) (index_of_node : Z) (highest_idx : nat) : Z * nat :=
  match l with
  | [] => (index_of_node, highest_idx)
  | x :: l' =>
      let index_of_node' :=
        if bool_decide (node = x) then Z.of_nat i else index_of_node in
      let highest_idx' :=
        if ref_lt st node x then (if decide (highest_idx < i) then i else highest_idx)
        else highest_idx in
      scan st node l' (S i) index_of_node' highest_idx'
  end.

(** [list.insert(i, x)]: before position [i], at the end when [i] is past
    it. *)
Definition list_insert_at {A : Type} (i : nat) (x : A) (l : list A) : list A :=
  take i l ++ x :: drop i l.

(** [list.remove(x)]: the first occurrence goes; [None] stands for the
    [ValueError] of a missing element. *)
Fixpoint list_remove_first (x : string) (l : list string) : option (list string) :=
  match l with
  | [] => None
  | y :: l' =>
      if bool_decide (x = y) then Some l'
      else (λ r, y :: r) <$> list_remove_first x l'
  end.

(** [for node in nodes_to_insert: ...] *)
Fixpoint plan_loop (st : list (string * Node)) (nodes_to_insert : list string)
    (nodes : list string) (index_of_node : Z) : result (list string) :=
  match nodes_to_insert with
  | [] => Ok nodes
  | node :: nodes_to_insert' =>
      let '(index_of_node', highest_idx) := scan st node nodes 0 index_of_node 0 in
      if decide (index_of_node' < Z.of_nat (highest_idx + 1))%Z then
        match list_remove_first node (list_insert_at (highest_idx + 1) node nodes) with
        | None => Err ValueError
        | Some nodes' => plan_loop st nodes_to_insert' nodes' index_of_node'
        end
      else plan_loop st nodes_to_insert' nodes index_of_node'
  end.

(** [DirectedGraph.create_plan] *)
Definition create_plan (depth fuel : nat) (self : DirectedGraph)
  : run (list string) :=
  match depth with
  | 0 => (self, [], Err RecursionError)
  | S depth' =>
      match find_paths depth' fuel self with
      | (self', out, Err e) => (self', out, Err e)
      | (self', out, Ok _) =>
          let nodes_to_insert := dict_keys (nodes self') in
          (self', out,
           plan_loop (nodes self') nodes_to_insert nodes_to_insert (-1))
      end
  end.

End Model.

(** ** Vocabulary of the specification *)

(** A bound on the iterations spent below a frame that has [r] nodes left
    to visit, in a graph of out-degree at most [D]. *)
Fixpoint tree_bound (D r : nat) : nat :=
  match r with
  | 0 => 1
  | S r' => 1 + D * tree_bound D r'
  end.

(** [q] stands somewhere before [p] in [l]. *)
Definition before (l : list string) (q p : string) : Prop :=
  [q; p] `sublist_of` l.

(** The same as a test: [p] is found behind the first [q]. *)
Fixpoint before_b (l : list string) (q p : string) : bool :=
  match l with
  | [] => false
  | x :: l' => if bool_decide (x = q) then bool_decide (p ∈ l') else before_b l' q p
  end.

Section Specification.
Context {Data : Type}.
Local Abbreviation Node := (@Node Data).
Local Abbreviation DirectedGraph := (@DirectedGraph Data).

(** *** Sequences of operations *)

(** The public operations of a graph; [add_node] receives a node fresh from
    the constructor. *)
Inductive op : Type :=
  | Op_add_node (name : string) (data : Data)
  | Op_add_edge (from_node_key to_node_key : string)
  | Op_get_node (key : string)
  | Op_find_paths (depth fuel : nat)
  | Op_create_plan (depth fuel : nat)
  | Op_dump (depth fuel : nat).

(** The graph an operation leaves behind, whether it returns or raises. *)
Definition apply_op (self : DirectedGraph) (o : op) : DirectedGraph :=
  match o with
  | Op_add_node name data => (add_node self (Node_init name data)).1
  | Op_add_edge f t => (add_edge self f t).1
  | Op_get_node _ => self
  | Op_find_paths depth fuel => (find_paths depth fuel self).1.1
  | Op_create_plan depth fuel => (create_plan depth fuel self).1.1
  | Op_dump depth fuel => (dump depth fuel self).1.1
  end.

Definition apply_ops (self : DirectedGraph) (os : list op) : DirectedGraph :=
  foldl apply_op self os.

(** The graphs the operations can build.  A run of [find_paths] that is cut
    short by its fuel leaves a graph as well; counting it in only makes the
    statements about reachable graphs stronger. *)
Inductive reachable : DirectedGraph → Prop :=
  | reachable_init : reachable DirectedGraph_init
  | reachable_step g o : reachable g → reachable (apply_op g o).

(** *** The graph as a relation *)

(** The targets of the outgoing edges of [u], in the order of the list. *)
Definition succs (st : list (string * Node)) (u : string) : list string :=
  to_node <$> outgoing_of st u.

(** [u -> v] is an edge the traversal follows out of [u]. *)
Definition edge_rel (st : list (string * Node)) (u v : string) : Prop :=
  v ∈ succs st u.

(** The edge object [u -> v] is in the incident-edge list of [u]. *)
Definition graph_edge (self : DirectedGraph) (u v : string) : Prop :=
  ∃ n, dict_get u (nodes self) = Some n ∧ mkEdge u v ∈ edges n.

(** No node reaches itself along one or more edges. *)
Definition acyclic (self : DirectedGraph) : Prop :=
  ∀ n, ¬ tc (edge_rel (nodes self)) n n.

(** The dependency set of the node called [k]. *)
Definition deps_of (st : list (string * Node)) (k : string) : gset string :=
  match dict_get k st with
  | Some n => _depends_on n
  | None => ∅
  end.

(** The edge object [a -> b] sits in the incident-edge lists of both its
    endpoints. *)
Definition related (g : DirectedGraph) (a b : string) : Prop :=
  ∃ na nb, dict_get a (nodes g) = Some na ∧ dict_get b (nodes g) = Some nb
           ∧ mkEdge a b ∈ edges na ∧ mkEdge a b ∈ edges nb.

(** *** Invariants *)

(** What every graph built by the operations satisfies. *)
Record wf_store (st : list (string * Node)) : Prop := {
  wf_keys : NoDup st.*1;
  wf_name : ∀ k n, dict_get k st = Some n → name n = k;
  wf_ends : ∀ k n e, dict_get k st = Some n → e ∈ edges n →
      from_node e ≠ to_node e ∧ (from_node e = k ∨ to_node e = k);
  wf_sym : ∀ k n e, dict_get k st = Some n → e ∈ edges n →
      ∃ n1 n2, dict_get (from_node e) st = Some n1
               ∧ dict_get (to_node e) st = Some n2
               ∧ e ∈ edges n1 ∧ e ∈ edges n2;
  wf_out : ∀ k n, dict_get k st = Some n →
      outgoing_edges n = filter (λ e, from_node e = k) (edges n);
  wf_in : ∀ k n, dict_get k st = Some n →
      incoming_edges n = filter (λ e, from_node e ≠ k) (edges n)
}.

(** No edge of the list connects the same pair of nodes as a later one. *)
Fixpoint distinct_relations (l : list Edge) : Prop :=
  match l with
  | [] => True
  | e :: l' => has_edge_in l' e = false ∧ distinct_relations l'
  end.

(** [n'] is [n] at a later time: the same name and payload, the edges of
    [n] followed by newer ones, and at least the dependencies of [n]. *)
Definition extends (n n' : Node) : Prop :=
  name n' = name n ∧ data n' = data n
  ∧ edges n `prefix_of` edges n'
  ∧ _depends_on n ⊆ _depends_on n'.

(** Every recorded dependency is reachable along the edges. *)
Definition deps_sound (st : list (string * Node)) : Prop :=
  ∀ k m, m ∈ deps_of st k → tc (edge_rel st) k m.

Definition deps_mono (st st' : list (string * Node)) : Prop :=
  ∀ k m, m ∈ deps_of st k → m ∈ deps_of st' k.

(** Two stores that differ in the dependency sets only. *)
Definition node_shape (n : Node) : string * Data * list Edge * list Edge * list Edge :=
  (name n, data n, edges n, outgoing_edges n, incoming_edges n).

Definition shape_eq (a b : string * Node) : Prop :=
  a.1 = b.1 ∧ node_shape a.2 = node_shape b.2.

Definition same_shape (st st' : list (string * Node)) : Prop :=
  Forall2 shape_eq st st'.

(** The node [Node.add_edge] leaves behind when it does not raise. *)
Definition attach_edge (self : Node) (edge : Edge) : Node :=
  {| name := name self; data := data self;
     edges := edges self ++ [edge];
     outgoing_edges :=
       outgoing_edges self ++ (if bool_decide (from_node edge = name self) then [edge] else []);
     incoming_edges :=
       incoming_edges self ++ (if bool_decide (from_node edge = name self) then [] else [edge]);
     _depends_on := _depends_on self |}.

(** *** Traversals *)

(** The store a traversal leaves behind. *)
Definition store_of (r : traversal) : list (string * Node) :=
  match r with
  | Finished st _ => st
  | CycleFound st => st
  | Exhausted st => st
  end.

(** Every node earlier on the path of a frame reaches the node of the
    frame. *)
Definition frame_ok (st : list (string * Node)) (fr : frame) : Prop :=
  ∀ a, a ∈ fr.2 → tc (edge_rel st) a fr.1.

(** Two runs that end the same way, on stores of the same shape, with the
    same paths. *)
Definition traversal_sim (r1 r2 : @traversal Data) : Prop :=
  match r1, r2 with
  | Finished s1 p1, Finished s2 p2 => same_shape s1 s2 ∧ p1 = p2
  | CycleFound s1, CycleFound s2 => same_shape s1 s2
  | Exhausted s1, Exhausted s2 => same_shape s1 s2
  | _, _ => False
  end.

(** The greatest out-degree of a node. *)
Definition max_out (st : list (string * Node)) : nat :=
  foldr (λ kv m, length (outgoing_edges kv.2) `max` m) 0 st.

(** Iterations that suffice for each [while] loop of [find_paths]. *)
Definition traversal_bound (self : DirectedGraph) : nat :=
  tree_bound (max_out (nodes self)) (length (nodes self) - 1).

(** [find_paths] without its memo: the traversal is run whatever the flag
    says, and so are the traversals started from the [dump] inside it. *)
Fixpoint recompute_paths (depth fuel : nat) (self : DirectedGraph)
  : run (list (list string)) :=
  match depth with
  | 0 => (self, [], Err RecursionError)
  | S depth' =>
      match collect_roots (nodes self) with
      | Err e => (self, [], Err e)
      | Ok root_nodes =>
          match for_roots fuel root_nodes (nodes self) [] with
          | Finished st' paths' =>
              ({| nodes := st'; paths := paths';
                  _cache_dirty := _cache_dirty self |}, [], Ok paths')
          | CycleFound st' =>
              match dump_with (recompute_paths depth' fuel) (with_nodes self st') with
              | (self', out, Err e) => (self', out, Err e)
              | (self', out, Ok _) => (self', out, Err CycleDetected)
              end
          | Exhausted st' => (with_nodes self st', [], Err OutOfFuel)
          end
      end
  end.

(** The graph with its memo thrown away. *)
Definition discard_memo (self : DirectedGraph) : DirectedGraph :=
  {| nodes := nodes self; paths := []; _cache_dirty := true |}.

(** A traversal from scratch: [find_paths] on a graph that has no memo to
    answer from. *)
Definition fresh_traversal (depth fuel : nat) (self : DirectedGraph)
  : list dump_entry * result (list (list string)) :=
  let r := find_paths depth fuel (discard_memo self) in (r.1.2, r.2).

Section Exploration.
Context (K : list string) (succ : string → list string) (D : nat).

(** [v] is a successor of [u]. *)
Definition follows (u v : string) : Prop := v ∈ succ u.

#[global] Instance follows_dec u v : Decision (follows u v).
Proof. unfold follows. apply _. Defined.

(** The store has the keys [K] and the successors [succ]. *)
Definition agrees (st : list (string * Node)) : Prop :=
  st.*1 = K ∧ ∀ n, succs st n = succ n.

(** A walk from a node to a node without successors. *)
Inductive maxwalk : string → list string → Prop :=
  | maxwalk_end n : succ n = [] → maxwalk n [n]
  | maxwalk_step n t w : follows n t → maxwalk t w → maxwalk n (n :: w).

(** A node nothing leads to. *)
Definition is_root (r : string) : Prop := r ∈ K ∧ ∀ u, ¬ follows u r.

(** What the loop knows about a frame it pops. *)
Definition frame_pre (n : string) (p : list string) : Prop :=
  NoDup (p ++ [n]) ∧ (∀ a, a ∈ p ++ [n] → a ∈ K) ∧ (∀ a, a ∈ p → tc follows a n).

(** Every node of the path [p] has got all the nodes at and below [n]. *)
Definition covers_path (st' : list (string * Node)) (p : list string) (n : string) : Prop :=
  ∀ a y, a ∈ p → rtc follows n y → y ∈ deps_of st' a.

(** Every node at or below [n] has got all the nodes below it. *)
Definition covers_below (st' : list (string * Node)) (n : string) : Prop :=
  ∀ x y, rtc follows n x → tc follows x y → y ∈ deps_of st' x.

(** The effect of popping the frame [(n, p)] and everything pushed from it. *)
Definition explored (n : string) (p : list string)
    (st st' : list (string * Node)) (ps : list (list string)) : Prop :=
  same_shape st st' ∧ deps_mono st st'
  ∧ covers_path st' p n ∧ covers_below st' n
  ∧ ∀ q, q ∈ ps ↔ ∃ w, maxwalk n w ∧ q = p ++ w.

(** The loop consumes a frame with at most [r] nodes left to visit, and all
    it pushes, within [tree_bound D r] iterations. *)
Definition explore_at (r : nat) : Prop :=
  ∀ n p (st : list (string * Node)) acc rest,
    frame_pre n p → agrees st → length K ≤ r + length (p ++ [n]) →
    ∃ k st' ps, k ≤ tree_bound D r
      ∧ (∀ fuel, while_stack (k + fuel) st ((n, p) :: rest) acc
                 = while_stack fuel st' rest (acc ++ ps))
      ∧ explored n p st st' ps.

(** The paths on the stack never repeat a node, whether or not the graph has
    cycles, so a frame has at most [length K] nodes on its path. *)
Definition frame_inv (fr : frame) : Prop :=
  NoDup (fr.2 ++ [fr.1]) ∧ ∀ a, a ∈ fr.2 ++ [fr.1] → a ∈ K.

(** The iterations a frame can still cause. *)
Definition frame_weight (fr : frame) : nat :=
  tree_bound D (length K - length (fr.2 ++ [fr.1])).

Definition stack_weight (stk : list frame) : nat :=
  sum_list_with frame_weight stk.

(** The path of a frame repeats no node, and a maximal walk from the node of
    the frame, put behind the path, is a maximal walk from a root. *)
Definition frame_rooted (fr : frame) : Prop :=
  NoDup (fr.2 ++ [fr.1])
  ∧ ∃ r, is_root r ∧ ∀ w, maxwalk fr.1 w → maxwalk r (fr.2 ++ w).

(** A maximal walk from a root that repeats no node. *)
Definition path_ok (q : list string) : Prop :=
  NoDup q ∧ ∃ r, is_root r ∧ maxwalk r q.

(** Some node reachable from [r] lies on a cycle. *)
Definition cycle_below (r : string) : Prop :=
  ∃ x, rtc follows r x ∧ tc follows x x.

(** The walks that continue the path [p ++ [n]] never come back to a node
    they have passed. *)
Inductive clean : string → list string → Prop :=
  | clean_intro n p :
      (∀ t, follows n t → t ∉ p ++ [n]) →
      (∀ t, follows n t → clean t (p ++ [n])) → clean n p.

(** The node of a frame has been reached from one of [roots] through the
    nodes of its path. *)
Definition frame_reached (roots : list string) (fr : frame) : Prop :=
  (∃ r, r ∈ roots ∧ rtc follows r fr.1) ∧ ∀ a, a ∈ fr.2 → tc follows a fr.1.


End Exploration.

(** A path of the graph from a root to a node without outgoing edges. *)
Definition maximal_path (g : DirectedGraph) (q : list string) : Prop :=
  ∃ r, is_root (dict_keys (nodes g)) (succs (nodes g)) r
       ∧ maxwalk (succs (nodes g)) r q.

(** A node of the graph that no edge points to. *)
Definition graph_root (g : DirectedGraph) (r : string) : Prop :=
  is_Some (get_node g r) ∧ ∀ u, ¬ graph_edge g u r.

(** Following edges from [r] one comes to a node that lies on a cycle. *)
Definition reaches_cycle (g : DirectedGraph) (r : string) : Prop :=
  ∃ x, rtc (graph_edge g) r x ∧ tc (graph_edge g) x x.


(** *** Orderings *)

Section Ordering.
Context (st : list (string * Node)).

(** [x < q] in the sense of [Node.__lt__]: [x] depends on [q]. *)
Definition less (x q : string) : Prop := ref_lt st x q = true.

(** Every node of [done] stands behind all the nodes it depends on. *)
Definition placed (done : list string) (l : list string) : Prop :=
  ∀ p q, p ∈ done → less p q → q ∈ l → before l q p.

End Ordering.

(** A ranking in which every edge climbs. *)
Definition rank_ok (st : list (string * Node)) (rank : string → nat) : bool :=
  forallb (λ kv : string * Node,
             forallb (λ e, bool_decide (rank kv.1 < rank (to_node e)))
                     (outgoing_edges kv.2)) st.

(** The keys stand in an order in which the target of every edge comes
    before its source. *)
Definition order_ok (st : list (string * Node)) : bool :=
  forallb (λ kv : string * Node,
             forallb (λ e, before_b st.*1 (to_node e) kv.1)
                     (outgoing_edges kv.2)) st.

End Specification.

(** ** Concrete graphs *)

Section Graphs.
Local Open Scope string_scope.

Definition fresh (k : string) : @op unit := Op_add_node k tt.

(** Two nodes and the edge a -> b. *)
Definition pair_graph : @DirectedGraph unit :=
  apply_ops DirectedGraph_init [fresh "a"; fresh "b"; Op_add_edge "a" "b"].

(** Three nodes on a cycle a -> b -> c -> a: no node is without incoming
    edges. *)
Definition cycle_graph : @DirectedGraph unit :=
  apply_ops DirectedGraph_init
    [fresh "a"; fresh "b"; fresh "c";
     Op_add_edge "a" "b"; Op_add_edge "b" "c"; Op_add_edge "c" "a"].

(** The same cycle below a root r. *)
Definition rooted_cycle_graph : @DirectedGraph unit :=
  apply_ops DirectedGraph_init
    [fresh "r"; fresh "a"; fresh "b"; fresh "c";
     Op_add_edge "r" "a"; Op_add_edge "a" "b"; Op_add_edge "b" "c";
     Op_add_edge "c" "a"].

(** The graph built by [example()] in the source. *)
Definition example_graph : @DirectedGraph unit :=
  apply_ops DirectedGraph_init
    [fresh "a"; fresh "b"; fresh "c"; fresh "d"; fresh "e"; fresh "f"; fresh "g";
     Op_add_edge "a" "b"; Op_add_edge "a" "d"; Op_add_edge "b" "d";
     Op_add_edge "c" "a"; Op_add_edge "f" "g"; Op_add_edge "f" "a";
     Op_add_edge "f" "b"; Op_add_edge "g" "d"].

(** The same graph after a call of [find_paths]. *)
Definition explored_example_graph : @DirectedGraph unit :=
  apply_ops example_graph [Op_find_paths 1 1093].

(** Three nodes added in dependency order: every edge points to a node that
    was added earlier. *)
Definition layered_graph : @DirectedGraph unit :=
  apply_ops DirectedGraph_init
    [fresh "a"; fresh "b"; fresh "c";
     Op_add_edge "b" "a"; Op_add_edge "c" "b"; Op_add_edge "c" "a"].

(** The position of [k] in [order]. *)
Definition rank_of (order : list string) (k : string) : nat :=
  default 0 (fst <$> list_find (λ x, x = k) order).

(** The node stored under [k]. *)
Definition node_of (g : @DirectedGraph unit) (k : string) : @Node unit :=
  default (Node_init k tt) (get_node g k).

End Graphs.

(** * Properties *)

Section Operations.
Context {Data : Type}.
Local Abbreviation Node := (@Node Data).
Local Abbreviation DirectedGraph := (@DirectedGraph Data).
Implicit Types (st : list (string * Node)).

(** ** Dictionaries *)

Section Dict.
Context {V : Type}.
Implicit Types (d : list (string * V)) (k : string) (v : V).

Lemma dict_get_set_eq k v d : dict_get k (dict_set k v d) = Some v.
Proof.
  induction d as [|[k0 v0] d IH]; simpl.
  - by rewrite decide_True.
  - destruct (decide (k0 = k)) as [->|Hne]; simpl.
    + by rewrite decide_True.
    + by rewrite decide_False.
Qed.

Lemma dict_get_set_ne k k' v d :
  k ≠ k' → dict_get k' (dict_set k v d) = dict_get k' d.
Proof.
  intros Hne. induction d as [|[k0 v0] d IH]; simpl.
  - by rewrite decide_False.
  - destruct (decide (k0 = k)) as [->|Hne0]; simpl.
    + by rewrite !decide_False.
    + by rewrite IH.
Qed.

Lemma dict_get_alter (f : V → V) k k' d :
  dict_get k' (dict_alter f k d)
  = if decide (k = k') then f <$> dict_get k' d else dict_get k' d.
Proof.
  induction d as [|[k0 v0] d IH]; simpl.
  - by destruct (decide (k = k')).
  - destruct (decide (k0 = k)) as [->|Hne0]; simpl.
    + by destruct (decide (k = k')).
    + rewrite IH. repeat case_decide; by simplify_eq/=.
Qed.

Lemma dict_keys_alter (f : V → V) k d : (dict_alter f k d).*1 = d.*1.
Proof.
  induction d as [|[k0 v0] d IH]; simpl; [done|].
  destruct (decide (k0 = k)); csimpl; by rewrite ?IH.
Qed.

Lemma dict_get_None k d : dict_get k d = None ↔ k ∉ d.*1.
Proof.
  induction d as [|[k0 v0] d IH]; simpl.
  - split; [intros _; apply not_elem_of_nil|done].
  - rewrite not_elem_of_cons. destruct (decide (k0 = k)) as [->|Hne].
    + split; [done|]. by intros [? _].
    + rewrite IH. split; [by intros ?; split|by intros [_ ?]].
Qed.

Lemma dict_get_Some_elem k v d : dict_get k d = Some v → (k, v) ∈ d.
Proof.
  induction d as [|[k0 v0] d IH]; simpl; [done|].
  destruct (decide (k0 = k)) as [->|Hne].
  - intros [= ->]. apply list_elem_of_here.
  - intros H. apply list_elem_of_further. auto.
Qed.

Lemma dict_get_Some_key k v d : dict_get k d = Some v → k ∈ d.*1.
Proof.
  intros H. destruct (decide (k ∈ d.*1)) as [|Hn]; [done|].
  apply dict_get_None in Hn. congruence.
Qed.

Lemma dict_get_is_Some k d : k ∈ d.*1 → is_Some (dict_get k d).
Proof.
  intros H. destruct (dict_get k d) eqn:E; [eauto|].
  apply dict_get_None in E. done.
Qed.

Lemma dict_elem_get k v d : NoDup d.*1 → (k, v) ∈ d → dict_get k d = Some v.
Proof.
  induction d as [|[k0 v0] d IH]; simpl.
  - intros _ H. by apply elem_of_nil in H.
  - intros Hnd H. apply NoDup_cons in Hnd as [Hnotin Hnd].
    apply elem_of_cons in H as [[= -> ->]|H].
    + by rewrite decide_True.
    + rewrite decide_False; [auto|].
      intros ->. apply Hnotin. apply list_elem_of_fmap. by exists (k, v).
Qed.

Lemma dict_keys_set_Some k v d :
  is_Some (dict_get k d) → (dict_set k v d).*1 = d.*1.
Proof.
  induction d as [|[k0 v0] d IH]; simpl.
  - by intros [? ?].
  - destruct (decide (k0 = k)) as [->|Hne]; csimpl; [done|].
    intros H. by rewrite IH.
Qed.

Lemma dict_keys_set_None k v d :
  dict_get k d = None → (dict_set k v d).*1 = d.*1 ++ [k].
Proof.
  induction d as [|[k0 v0] d IH]; simpl; [done|].
  destruct (decide (k0 = k)) as [->|Hne]; csimpl; [done|].
  intros H. by rewrite IH.
Qed.

End Dict.

(** ** Stores of the same shape *)

Lemma same_shape_refl st : same_shape st st.
Proof. induction st; constructor; done. Qed.

Lemma same_shape_sym st st' : same_shape st st' → same_shape st' st.
Proof.
  induction 1 as [|a b st st' [E1 E2] _ IH]; constructor; [|done].
  by split.
Qed.

Lemma same_shape_trans st1 st2 st3 :
  same_shape st1 st2 → same_shape st2 st3 → same_shape st1 st3.
Proof.
  intros H1. revert st3.
  induction H1 as [|a b st st' [E1 E2] _ IH]; intros st3 H2;
    inversion H2 as [|? c ? st3' [E3 E4]]; subst; constructor; [|by apply IH].
  split; congruence.
Qed.

Lemma same_shape_keys st st' : same_shape st st' → st.*1 = st'.*1.
Proof. induction 1 as [|a b st st' [E _] _ IH]; csimpl; [done|]. by rewrite E, IH. Qed.

Lemma same_shape_get st st' k :
  same_shape st st' →
  option_Forall2 (λ n n', node_shape n = node_shape n')
    (dict_get k st) (dict_get k st').
Proof.
  induction 1 as [|[k1 n1] [k2 n2] st st' [E1 E2] _ IH]; simpl in *.
  - constructor.
  - subst k2. destruct (decide (k1 = k)); [by constructor|done].
Qed.

Lemma same_shape_get_Some st st' k n :
  same_shape st st' → dict_get k st = Some n →
  ∃ n', dict_get k st' = Some n' ∧ node_shape n = node_shape n'.
Proof.
  intros H E. pose proof (same_shape_get st st' k H) as HF.
  rewrite E in HF. inversion HF; subst. eauto.
Qed.

Lemma same_shape_outgoing st st' k :
  same_shape st st' → outgoing_of st k = outgoing_of st' k.
Proof.
  intros H. unfold outgoing_of.
  destruct (same_shape_get st st' k H) as [n n' E|]; [|done].
  unfold node_shape in E. by simplify_eq.
Qed.

Lemma same_shape_succs st st' k : same_shape st st' → succs st k = succs st' k.
Proof. intros H. unfold succs. by rewrite (same_shape_outgoing st st' k H). Qed.

Lemma same_shape_edge_rel st st' u v :
  same_shape st st' → edge_rel st u v ↔ edge_rel st' u v.
Proof. intros H. unfold edge_rel. by rewrite (same_shape_succs st st' u H). Qed.

Lemma same_shape_alter (f : Node → Node) k st :
  (∀ n, node_shape (f n) = node_shape n) → same_shape st (dict_alter f k st).
Proof.
  intros Hf. induction st as [|[k0 n0] st IH]; simpl; [constructor|].
  destruct (decide (k0 = k)).
  - constructor; [split; simpl; [done|by rewrite Hf]|apply same_shape_refl].
  - constructor; [done|exact IH].
Qed.

Lemma same_shape_record_dependencies st prevs cur :
  same_shape st (record_dependencies st prevs cur).
Proof.
  revert st. induction prevs as [|p prevs IH]; intros st; simpl.
  - apply same_shape_refl.
  - case_bool_decide; [apply IH|].
    eapply same_shape_trans; [|apply IH]. by apply same_shape_alter.
Qed.

Lemma same_shape_collect_roots st st' :
  same_shape st st' → collect_roots st = collect_roots st'.
Proof.
  induction 1 as [|[k1 n1] [k2 n2] st st' [E1 E2] _ IH]; simpl in *; [done|].
  subst k2. unfold node_shape in E2. simplify_eq.
  unfold has_incoming_edges. rewrite IH.
  by replace (name n2) with (name n1); replace (edges n2) with (edges n1).
Qed.

Lemma same_shape_wf st st' : same_shape st st' → wf_store st → wf_store st'.
Proof.
  intros H [K N E S O I].
  assert (Hback : ∀ k n', dict_get k st' = Some n' →
            ∃ n, dict_get k st = Some n ∧ node_shape n = node_shape n').
  { intros k n' Hk.
    destruct (same_shape_get_Some st' st k n' (same_shape_sym _ _ H) Hk)
      as (n & ? & ?). eauto. }
  split.
  - by rewrite <-(same_shape_keys st st' H).
  - intros k n' Hk. destruct (Hback k n' Hk) as (n & Hn & Hs).
    unfold node_shape in Hs. simplify_eq. replace (name n') with (name n). eauto.
  - intros k n' e Hk He. destruct (Hback k n' Hk) as (n & Hn & Hs).
    unfold node_shape in Hs. simplify_eq. apply (E k n e Hn). congruence.
  - intros k n' e Hk He. destruct (Hback k n' Hk) as (n & Hn & Hs).
    unfold node_shape in Hs. simplify_eq.
    destruct (S k n e Hn) as (n1 & n2 & Hg1 & Hg2 & He1 & He2); [congruence|].
    destruct (same_shape_get_Some st st' _ n1 H Hg1) as (n1' & ? & Hs1).
    destruct (same_shape_get_Some st st' _ n2 H Hg2) as (n2' & ? & Hs2).
    unfold node_shape in Hs1, Hs2. simplify_eq.
    exists n1', n2'. repeat split; [done|done|congruence|congruence].
  - intros k n' Hk. destruct (Hback k n' Hk) as (n & Hn & Hs).
    unfold node_shape in Hs. simplify_eq.
    replace (outgoing_edges n') with (outgoing_edges n).
    replace (edges n') with (edges n). eauto.
  - intros k n' Hk. destruct (Hback k n' Hk) as (n & Hn & Hs).
    unfold node_shape in Hs. simplify_eq.
    replace (incoming_edges n') with (incoming_edges n).
    replace (edges n') with (edges n). eauto.
Qed.

(** ** Registering an edge *)

Lemma Edge_eq_spec a b :
  Edge_eq a b = true ↔
  (from_node a = from_node b ∧ to_node a = to_node b)
  ∨ (from_node a = to_node b ∧ to_node a = from_node b).
Proof.
  unfold Edge_eq. repeat case_bool_decide; simpl; naive_solver.
Qed.

Lemma has_edge_in_true l e :
  has_edge_in l e = true ↔ ∃ e', e' ∈ l ∧ Edge_eq e e' = true.
Proof.
  induction l as [|x l IH]; simpl.
  - split; [done|]. intros (e' & H & _). by apply elem_of_nil in H.
  - destruct (Edge_eq e x) eqn:E.
    + split; [|done]. intros _. exists x. split; [apply list_elem_of_here|done].
    + rewrite IH. split.
      * intros (e' & H & ?). exists e'. split; [by apply list_elem_of_further|done].
      * intros (e' & H & ?). apply elem_of_cons in H as [->|H]; [congruence|eauto].
Qed.

Lemma Node_add_edge_eq (n : Node) e :
  Node_add_edge n e = if has_edge n e then Err DuplicateRelation else Ok (attach_edge n e).
Proof.
  unfold Node_add_edge, attach_edge. destruct (has_edge n e); [done|].
  case_bool_decide; by rewrite app_nil_r.
Qed.

(** In a well-formed store an edge unknown to one endpoint is unknown to the
    other. *)
Lemma has_edge_both st f t nf nt :
  wf_store st → dict_get f st = Some nf → dict_get t st = Some nt →
  has_edge nf (mkEdge f t) = false → has_edge nt (mkEdge f t) = false.
Proof.
  intros Hwf Hf Ht Hno. destruct (has_edge nt (mkEdge f t)) eqn:E; [|done].
  exfalso. apply has_edge_in_true in E as (e' & He' & Heq).
  destruct (wf_sym st Hwf t nt e' Ht He') as (n1 & n2 & H1 & H2 & He1 & He2).
  assert (e' ∈ edges nf) as Hin.
  { apply Edge_eq_spec in Heq as [[Ha Hb]|[Ha Hb]]; simpl in *.
    - rewrite <-Ha in H1. by simplify_eq.
    - rewrite <-Ha in H2. by simplify_eq. }
  assert (has_edge nf (mkEdge f t) = true); [|congruence].
  apply has_edge_in_true. eauto.
Qed.

(** What [add_edge] does on a well-formed store: it raises and leaves the
    graph alone, or it attaches the edge to both endpoints. *)
Lemma add_edge_spec (g : DirectedGraph) f t :
  wf_store (nodes g) →
  (∃ e, add_edge g f t = (g, Err e)
        ∧ (e = SelfLoop ∨ e = UnknownNode ∨ e = DuplicateRelation))
  ∨ (∃ nf nt, f ≠ t ∧ dict_get f (nodes g) = Some nf
        ∧ dict_get t (nodes g) = Some nt
        ∧ has_edge nf (mkEdge f t) = false
        ∧ add_edge g f t =
            (with_nodes g
               (dict_set t (attach_edge nt (mkEdge f t))
                  (dict_set f (attach_edge nf (mkEdge f t)) (nodes g))), Ok tt)).
Proof.
  intros Hwf. unfold add_edge. case_bool_decide as Hft; [left; eauto|].
  destruct (dict_get f (nodes g)) as [nf|] eqn:Ef; [|left; eauto].
  destruct (dict_get t (nodes g)) as [nt|] eqn:Et; [|left; eauto].
  rewrite (wf_name _ Hwf f nf Ef), (wf_name _ Hwf t nt Et).
  rewrite !Node_add_edge_eq.
  destruct (has_edge nf (mkEdge f t)) eqn:Hf; [left; eauto|].
  rewrite (has_edge_both _ f t nf nt Hwf Ef Et Hf).
  right. exists nf, nt. done.
Qed.

Section AttachStore.
Context (st : list (string * Node)) (f t : string) (nf nt : Node).
Context (Hwf : wf_store st) (Hft : f ≠ t).
Context (Hf : dict_get f st = Some nf) (Ht : dict_get t st = Some nt).

Let e := mkEdge f t.
Let st2 := dict_set t (attach_edge nt e) (dict_set f (attach_edge nf e) st).
Let upd (k : string) (n : Node) : Node :=
  if decide (k = f ∨ k = t) then attach_edge n e else n.

Lemma attach_store_get k : dict_get k st2 = upd k <$> dict_get k st.
Proof.
  unfold st2, upd. destruct (decide (k = t)) as [->|Hkt].
  - rewrite dict_get_set_eq, Ht. simpl. rewrite decide_True; [done|by right].
  - rewrite dict_get_set_ne by done. destruct (decide (k = f)) as [->|Hkf].
    + rewrite dict_get_set_eq, Hf. simpl. rewrite decide_True; [done|by left].
    + rewrite dict_get_set_ne by done. destruct (dict_get k st); simpl; [|done].
      rewrite decide_False; [done|]. by intros [?|?].
Qed.

Lemma attach_store_keys : st2.*1 = st.*1.
Proof.
  unfold st2. rewrite dict_keys_set_Some.
  - apply dict_keys_set_Some. by rewrite Hf.
  - rewrite dict_get_set_ne by done. by rewrite Ht.
Qed.

Lemma upd_edges k n e' :
  e' ∈ edges (upd k n) ↔ e' ∈ edges n ∨ (e' = e ∧ (k = f ∨ k = t)).
Proof.
  unfold upd. case_decide; simpl.
  - rewrite elem_of_app, list_elem_of_singleton. naive_solver.
  - naive_solver.
Qed.

Lemma attach_store_wf : wf_store st2.
Proof.
  destruct Hwf as [K N E S O I]. split.
  - by rewrite attach_store_keys.
  - intros k n. rewrite attach_store_get. intros Hk.
    apply fmap_Some in Hk as (n0 & Hn0 & ->).
    replace (name (upd k n0)) with (name n0); [eauto|].
    unfold upd. by case_decide.
  - intros k n e'. rewrite attach_store_get. intros Hk.
    apply fmap_Some in Hk as (n0 & Hn0 & ->).
    rewrite upd_edges. intros [He'|[-> Hk]]; [eauto|].
    simpl. split; [done|]. destruct Hk as [->| ->]; auto.
  - intros k n e'. rewrite attach_store_get. intros Hk.
    apply fmap_Some in Hk as (n0 & Hn0 & ->).
    rewrite upd_edges. intros [He'|[-> Hk]].
    + destruct (S k n0 e' Hn0 He') as (n1 & n2 & H1 & H2 & He1 & He2).
      exists (upd (from_node e') n1), (upd (to_node e') n2).
      rewrite !attach_store_get, H1, H2, !upd_edges. repeat split; auto.
    + exists (upd f nf), (upd t nt).
      rewrite !attach_store_get. simpl. rewrite Hf, Ht, !upd_edges.
      repeat split; auto.
  - intros k n. rewrite attach_store_get. intros Hk.
    apply fmap_Some in Hk as (n0 & Hn0 & ->).
    unfold upd. case_decide as Hk; simpl; [|eauto].
    rewrite filter_app, (N k n0 Hn0), <-(O k n0 Hn0). f_equal.
    rewrite filter_cons, filter_nil. simpl.
    case_bool_decide; case_decide; congruence.
  - intros k n. rewrite attach_store_get. intros Hk.
    apply fmap_Some in Hk as (n0 & Hn0 & ->).
    unfold upd. case_decide as Hk; simpl; [|eauto].
    rewrite filter_app, (N k n0 Hn0), <-(I k n0 Hn0). f_equal.
    rewrite filter_cons, filter_nil. simpl.
    case_bool_decide; case_decide; congruence.
Qed.

Lemma attach_store_deps k : deps_of st2 k = deps_of st k.
Proof.
  unfold deps_of. rewrite attach_store_get. destruct (dict_get k st); simpl; [|done].
  unfold upd. by case_decide.
Qed.

Lemma attach_store_succs u v : v ∈ succs st u → v ∈ succs st2 u.
Proof.
  unfold succs, outgoing_of. rewrite attach_store_get.
  destruct (dict_get u st) as [n|]; simpl; [|done].
  unfold upd. case_decide; simpl; [|done].
  rewrite fmap_app, elem_of_app. auto.
Qed.

End AttachStore.

(** ** Dependencies recorded by the traversal *)

Lemma same_shape_tc st st' x y :
  same_shape st st' → tc (edge_rel st) x y → tc (edge_rel st') x y.
Proof.
  intros H. induction 1 as [x y Hxy|x y z Hxy _ IH].
  - apply tc_once. by apply (same_shape_edge_rel st st').
  - eapply tc_l; [|exact IH]. by apply (same_shape_edge_rel st st').
Qed.

Lemma same_shape_frame_ok st st' fr :
  same_shape st st' → frame_ok st fr → frame_ok st' fr.
Proof. intros H Hfr a Ha. eapply same_shape_tc; [exact H|]. by apply Hfr. Qed.

Lemma deps_of_alter st p cur k m :
  m ∈ deps_of (dict_alter (λ n, add_dependency n cur) p st) k
  ↔ m ∈ deps_of st k ∨ (m = cur ∧ k = p ∧ k ∈ st.*1).
Proof.
  unfold deps_of. rewrite dict_get_alter.
  destruct (dict_get k st) as [n|] eqn:E.
  - apply dict_get_Some_key in E as Hk.
    case_decide; simpl; [|naive_solver].
    rewrite elem_of_union, elem_of_singleton. naive_solver.
  - apply dict_get_None in E. case_decide; simpl; naive_solver.
Qed.

Lemma deps_of_record st prevs cur k m :
  m ∈ deps_of (record_dependencies st prevs cur) k
  ↔ m ∈ deps_of st k ∨ (m = cur ∧ k ∈ prevs ∧ k ≠ cur ∧ k ∈ st.*1).
Proof.
  revert st. induction prevs as [|p prevs IH]; intros st; simpl.
  - rewrite elem_of_nil. naive_solver.
  - rewrite elem_of_cons. case_bool_decide as Hp.
    + rewrite IH. naive_solver.
    + rewrite IH, deps_of_alter, dict_keys_alter. naive_solver.
Qed.

Lemma push_children_ok st n p out stk stk' :
  push_children out (p ++ [n]) stk = Some stk' →
  (∀ e, e ∈ out → edge_rel st n (to_node e)) →
  frame_ok st (n, p) → Forall (frame_ok st) stk → Forall (frame_ok st) stk'.
Proof.
  intros Hpush Hout Hfr. revert stk Hpush.
  induction out as [|e out IH]; intros stk Hpush Hstk; simpl in Hpush.
  - by simplify_eq.
  - case_bool_decide; [done|].
    eapply IH; [|exact Hpush|].
    + intros e' He'. apply Hout. by apply list_elem_of_further.
    + constructor; [|done]. intros a Ha. simpl in *.
      apply elem_of_app in Ha as [Ha|Ha].
      * eapply tc_r; [by apply (Hfr a)|]. apply Hout, list_elem_of_here.
      * apply list_elem_of_singleton in Ha as ->.
        apply tc_once, Hout, list_elem_of_here.
Qed.

Lemma outgoing_edge_rel st n e : e ∈ outgoing_of st n → edge_rel st n (to_node e).
Proof. intros H. unfold edge_rel, succs. apply list_elem_of_fmap. eauto. Qed.

Lemma record_dependencies_sound st n p :
  deps_sound st → frame_ok st (n, p) →
  deps_sound (record_dependencies st (p ++ [n]) n).
Proof.
  intros Hs Hfr k m Hm.
  eapply same_shape_tc; [apply same_shape_record_dependencies|].
  apply deps_of_record in Hm as [Hm|(-> & Hk & Hne & _)]; [by apply Hs|].
  apply elem_of_app in Hk as [Hk|Hk]; [by apply Hfr|].
  by apply list_elem_of_singleton in Hk.
Qed.

(** One iteration of the loop; the path is never empty once the current
    node has been appended, so it is always recorded at a terminal node. *)
Lemma while_stack_cons fuel (st : list (string * Node)) n p stk acc :
  while_stack (S fuel) st ((n, p) :: stk) acc =
  let st1 := record_dependencies st (p ++ [n]) n in
  match outgoing_of st1 n return @traversal Data with
  | [] => while_stack fuel st1 stk (acc ++ [p ++ [n]])
  | e :: out =>
      match push_children (e :: out) (p ++ [n]) stk return @traversal Data with
      | None => CycleFound st1
      | Some stk' => while_stack fuel st1 stk' acc
      end
  end.
Proof.
  simpl. destruct (outgoing_of _ n); [|done]. by destruct p.
Qed.

Lemma while_stack_nil fuel (st : list (string * Node)) acc :
  while_stack fuel st [] acc = Finished st acc.
Proof. by destruct fuel. Qed.

Lemma while_stack_sound fuel st stk acc :
  deps_sound st → Forall (frame_ok st) stk →
  same_shape st (store_of (while_stack fuel st stk acc))
  ∧ deps_sound (store_of (while_stack fuel st stk acc)).
Proof.
  revert st stk acc. induction fuel as [|fuel IH]; intros st stk acc Hs Hstk.
  - destruct stk as [|[n p] stk]; simpl; split; auto using same_shape_refl.
  - destruct stk as [|[n p] stk]; [simpl; split; auto using same_shape_refl|].
    rewrite while_stack_cons. cbv zeta.
    apply Forall_cons in Hstk as [Hfr Hstk].
    set (st1 := record_dependencies st (p ++ [n]) n).
    assert (same_shape st st1) as Hsh by apply same_shape_record_dependencies.
    assert (deps_sound st1) as Hs1 by by apply record_dependencies_sound.
    assert (Forall (frame_ok st1) stk) as Hstk1.
    { eapply Forall_impl; [exact Hstk|]. intros fr. by apply same_shape_frame_ok. }
    destruct (outgoing_of st1 n) as [|e out] eqn:Eout.
    + destruct (IH st1 stk (acc ++ [p ++ [n]]) Hs1 Hstk1) as [? ?].
      split; [by eapply same_shape_trans|done].
    + destruct (push_children (e :: out) (p ++ [n]) stk) as [stk'|] eqn:Epush.
      * assert (Forall (frame_ok st1) stk') as Hstk'.
        { eapply (push_children_ok st1 n p); [exact Epush| | |exact Hstk1].
          - intros e' He'. apply outgoing_edge_rel. by rewrite Eout.
          - by apply (same_shape_frame_ok st). }
        destruct (IH st1 stk' acc Hs1 Hstk') as [? ?].
        split; [by eapply same_shape_trans|done].
      * simpl. done.
Qed.

Lemma for_roots_sound fuel roots st acc :
  deps_sound st →
  same_shape st (store_of (for_roots fuel roots st acc))
  ∧ deps_sound (store_of (for_roots fuel roots st acc)).
Proof.
  revert st acc. induction roots as [|r roots IH]; intros st acc Hs; simpl.
  - split; [apply same_shape_refl|done].
  - assert (Forall (frame_ok st) [(r, [])]) as Hfr.
    { constructor; [|constructor]. intros a Ha. by apply elem_of_nil in Ha. }
    destruct (while_stack_sound fuel st [(r, [])] acc Hs Hfr) as [Hsh Hs'].
    destruct (while_stack fuel st [(r, [])] acc) as [st' acc'| |]; simpl in *; [|done..].
    destruct (IH st' acc' Hs') as [? ?]. split; [by eapply same_shape_trans|done].
Qed.

Lemma find_paths_sound depth fuel (g : DirectedGraph) :
  deps_sound (nodes g) →
  same_shape (nodes g) (nodes (find_paths depth fuel g).1.1)
  ∧ deps_sound (nodes (find_paths depth fuel g).1.1)
  ∧ _cache_dirty (find_paths depth fuel g).1.1 = _cache_dirty g.
Proof.
  revert g. induction depth as [|depth IH]; intros g Hs; simpl.
  - split; [apply same_shape_refl|done].
  - destruct (negb (_cache_dirty g)); simpl; [split; [apply same_shape_refl|done]|].
    destruct (collect_roots (nodes g)) as [roots|e]; simpl;
      [|split; [apply same_shape_refl|done]].
    destruct (for_roots_sound fuel roots (nodes g) [] Hs) as [Hsh Hs'].
    destruct (for_roots fuel roots (nodes g) []) as [st' acc'|st'|st']; simpl in *;
      [done| |done].
    unfold dump_with.
    destruct (IH (with_nodes g st') Hs') as (Hsh2 & Hs2 & Hd2).
    destruct (find_paths depth fuel (with_nodes g st')) as [[g' out] [ps|e]];
      simpl in *; (split; [by eapply same_shape_trans|done]).
Qed.

Lemma dump_sound depth fuel (g : DirectedGraph) :
  deps_sound (nodes g) →
  same_shape (nodes g) (nodes (dump depth fuel g).1.1)
  ∧ deps_sound (nodes (dump depth fuel g).1.1)
  ∧ _cache_dirty (dump depth fuel g).1.1 = _cache_dirty g.
Proof.
  intros Hs. destruct depth as [|depth]; simpl; [split; [apply same_shape_refl|done]|].
  unfold dump_with. pose proof (find_paths_sound depth fuel g Hs) as H.
  by destruct (find_paths depth fuel g) as [[g' out] [ps|e]].
Qed.

Lemma create_plan_sound depth fuel (g : DirectedGraph) :
  deps_sound (nodes g) →
  same_shape (nodes g) (nodes (create_plan depth fuel g).1.1)
  ∧ deps_sound (nodes (create_plan depth fuel g).1.1)
  ∧ _cache_dirty (create_plan depth fuel g).1.1 = _cache_dirty g.
Proof.
  intros Hs. destruct depth as [|depth]; simpl; [split; [apply same_shape_refl|done]|].
  pose proof (find_paths_sound depth fuel g Hs) as H.
  by destruct (find_paths depth fuel g) as [[g' out] [ps|e]].
Qed.

(** ** Invariants of every reachable graph *)

Lemma add_node_fresh_wf (g : DirectedGraph) k (d : Data) :
  wf_store (nodes g) → deps_sound (nodes g) →
  wf_store (nodes (add_node g (Node_init k d)).1)
  ∧ deps_sound (nodes (add_node g (Node_init k d)).1).
Proof.
  intros Hwf Hs. unfold add_node. simpl.
  destruct (dict_get k (nodes g)) as [n0|] eqn:E; simpl; [done|].
  set (st := nodes g) in *. set (v := Node_init k d).
  assert (Hget : ∀ k', dict_get k' (dict_set k v st)
                       = if decide (k = k') then Some v else dict_get k' st).
  { intros k'. case_decide as Hk; [subst; apply dict_get_set_eq|by apply dict_get_set_ne]. }
  assert (Hsuccs : ∀ u, succs (dict_set k v st) u = succs st u).
  { intros u. unfold succs, outgoing_of. rewrite Hget.
    case_decide; [subst; by rewrite E|done]. }
  destruct Hwf as [K N En S O I]. split; [split|].
  - rewrite dict_keys_set_None by done. apply NoDup_app. split; [done|].
    split; [|apply NoDup_singleton]. intros x Hx Hx'.
    apply list_elem_of_singleton in Hx' as ->. by apply dict_get_None in E.
  - intros k' n. rewrite Hget. case_decide; [by intros [= <-]|eauto].
  - intros k' n e. rewrite Hget. case_decide; [|eauto].
    intros [= <-] He. by apply elem_of_nil in He.
  - intros k' n e. rewrite Hget. case_decide as Hk.
    + intros [= <-] He. by apply elem_of_nil in He.
    + intros Hn He. destruct (S k' n e Hn He) as (n1 & n2 & H1 & H2 & ? & ?).
      exists n1, n2. rewrite !Hget.
      repeat case_decide; subst; try congruence. done.
  - intros k' n. rewrite Hget. case_decide; [by intros [= <-]|eauto].
  - intros k' n. rewrite Hget. case_decide; [by intros [= <-]|eauto].
  - intros u m Hm.
    assert (m ∈ deps_of st u) as Hm'.
    { revert Hm. unfold deps_of. rewrite Hget. case_decide; [|done].
      subst. simpl. set_solver. }
    specialize (Hs u m Hm'). clear -Hs Hsuccs.
    induction Hs as [x y Hxy|x y z Hxy _ IH].
    + apply tc_once. unfold edge_rel. by rewrite Hsuccs.
    + eapply tc_l; [|exact IH]. unfold edge_rel. by rewrite Hsuccs.
Qed.

Lemma add_edge_wf (g : DirectedGraph) f t :
  wf_store (nodes g) → deps_sound (nodes g) →
  wf_store (nodes (add_edge g f t).1) ∧ deps_sound (nodes (add_edge g f t).1).
Proof.
  intros Hwf Hs.
  destruct (add_edge_spec g f t Hwf)
    as [(e & -> & _)|(nf & nt & Hft & Hf & Ht & _ & ->)]; [done|].
  simpl. split; [by apply attach_store_wf|].
  intros u m Hm. rewrite attach_store_deps in Hm by done.
  specialize (Hs u m Hm). clear Hm.
  induction Hs as [x y Hxy|x y z Hxy _ IH].
  - apply tc_once. by apply attach_store_succs.
  - eapply tc_l; [|exact IH]. by apply attach_store_succs.
Qed.

Lemma add_edge_dirty (g : DirectedGraph) f t :
  _cache_dirty (add_edge g f t).1 = _cache_dirty g.
Proof.
  unfold add_edge. repeat (case_bool_decide || case_match); done.
Qed.

Lemma reachable_inv (g : DirectedGraph) :
  reachable g →
  wf_store (nodes g) ∧ deps_sound (nodes g) ∧ _cache_dirty g = true.
Proof.
  induction 1 as [|g o _ (Hwf & Hs & Hd)].
  - split; [|split; [|done]].
    + split; simpl; try done. constructor.
    + intros k m Hm. unfold deps_of in Hm. simpl in Hm. set_solver.
  - destruct o as [k d|f t|k|depth fuel|depth fuel|depth fuel]; simpl.
    + destruct (add_node_fresh_wf g k d Hwf Hs) as [? ?]. split; [done|split; [done|]].
      unfold add_node. by case_match.
    + destruct (add_edge_wf g f t Hwf Hs) as [? ?]. split; [done|split; [done|]].
      by rewrite add_edge_dirty.
    + done.
    + destruct (find_paths_sound depth fuel g Hs) as (Hsh & ? & ->).
      split; [by eapply same_shape_wf|done].
    + destruct (create_plan_sound depth fuel g Hs) as (Hsh & ? & ->).
      split; [by eapply same_shape_wf|done].
    + destruct (dump_sound depth fuel g Hs) as (Hsh & ? & ->).
      split; [by eapply same_shape_wf|done].
Qed.

(** ** Relations that stay *)

Lemma related_same_shape (g g' : DirectedGraph) a b :
  same_shape (nodes g) (nodes g') → related g a b → related g' a b.
Proof.
  intros H (na & nb & Ha & Hb & Ea & Eb).
  destruct (same_shape_get_Some _ _ a na H Ha) as (na' & ? & Hsa).
  destruct (same_shape_get_Some _ _ b nb H Hb) as (nb' & ? & Hsb).
  unfold node_shape in Hsa, Hsb. simplify_eq.
  exists na', nb'. repeat split; [done|done|congruence|congruence].
Qed.

Lemma related_step (g : DirectedGraph) o a b :
  reachable g → related g a b → related (apply_op g o) a b.
Proof.
  intros Hr Hrel. destruct (reachable_inv g Hr) as (Hwf & Hs & _).
  destruct o as [k d|f t|k|depth fuel|depth fuel|depth fuel]; simpl.
  - destruct Hrel as (na & nb & Ha & Hb & Ea & Eb).
    unfold add_node. simpl. destruct (dict_get k (nodes g)) eqn:E; simpl.
    + by exists na, nb.
    + exists na, nb. unfold with_nodes. simpl.
      rewrite !dict_get_set_ne by congruence. done.
  - destruct (add_edge_spec g f t Hwf)
      as [(e & -> & _)|(nf & nt & Hft & Hf & Ht & _ & ->)]; [done|].
    destruct Hrel as (na & nb & Ha & Hb & Ea & Eb). simpl.
    unfold related, with_nodes. simpl.
    eexists _, _. rewrite !attach_store_get by done. rewrite Ha, Hb.
    simpl. split; [done|split; [done|]]. case_decide; case_decide; simpl;
      rewrite ?elem_of_app; auto.
  - done.
  - eapply related_same_shape; [|done]. by apply find_paths_sound.
  - eapply related_same_shape; [|done]. by apply create_plan_sound.
  - eapply related_same_shape; [|done]. by apply dump_sound.
Qed.

Lemma reachable_apply_ops (g : DirectedGraph) os :
  reachable g → reachable (apply_ops g os).
Proof.
  revert g. induction os as [|o os IH]; intros g Hr; simpl; [done|].
  apply IH. by constructor.
Qed.

Lemma related_apply_ops (g : DirectedGraph) os a b :
  reachable g → related g a b → related (apply_ops g os) a b.
Proof.
  revert g. induction os as [|o os IH]; intros g Hr Hrel; simpl; [done|].
  apply IH; [by constructor|by apply related_step].
Qed.

Lemma add_edge_related (g g1 : DirectedGraph) a b :
  reachable g → add_edge g a b = (g1, Ok tt) → a ≠ b ∧ related g1 a b.
Proof.
  intros Hr Hadd. destruct (reachable_inv g Hr) as (Hwf & _ & _).
  destruct (add_edge_spec g a b Hwf)
    as [(e & He & _)|(nf & nt & Hft & Hf & Ht & _ & He)]; [congruence|].
  rewrite He in Hadd. simplify_eq. split; [done|].
  unfold related, with_nodes. simpl. eexists _, _.
  rewrite !attach_store_get by done. rewrite Hf, Ht. simpl.
  split; [done|split; [done|]]. rewrite !decide_True by auto. simpl.
  rewrite !elem_of_app, !list_elem_of_singleton. auto.
Qed.

Lemma related_duplicate (g : DirectedGraph) a b :
  reachable g → a ≠ b → related g a b →
  add_edge g a b = (g, Err DuplicateRelation)
  ∧ add_edge g b a = (g, Err DuplicateRelation).
Proof.
  intros Hr Hab (na & nb & Ha & Hb & Ea & Eb).
  destruct (reachable_inv g Hr) as (Hwf & _ & _).
  assert (has_edge na (mkEdge a b) = true) as H1.
  { apply has_edge_in_true. exists (mkEdge a b). split; [done|].
    apply Edge_eq_spec. by left. }
  assert (has_edge nb (mkEdge b a) = true) as H2.
  { apply has_edge_in_true. exists (mkEdge a b). split; [done|].
    apply Edge_eq_spec. by right. }
  unfold add_edge. rewrite !bool_decide_eq_false_2 by congruence.
  rewrite Ha, Hb, (wf_name _ Hwf a na Ha), (wf_name _ Hwf b nb Hb).
  by rewrite !Node_add_edge_eq, H1, H2.
Qed.

(** ** The memo *)

Lemma find_paths_memo_irrelevant depth fuel (g : DirectedGraph) ps :
  _cache_dirty g = true →
  let r := find_paths depth fuel g in
  let r' := find_paths depth fuel {| nodes := nodes g; paths := ps; _cache_dirty := true |} in
  nodes r.1.1 = nodes r'.1.1 ∧ r.1.2 = r'.1.2 ∧ r.2 = r'.2.
Proof.
  revert g. induction depth as [|depth IH]; intros g Hd; simpl; [done|].
  rewrite Hd. simpl.
  destruct (collect_roots (nodes g)) as [roots|e]; [|done].
  destruct (for_roots fuel roots (nodes g) []) as [st' acc'|st'|st']; [done| |done].
  unfold dump_with.
  destruct (IH (with_nodes g st') Hd) as (H1 & H2 & H3).
  unfold with_nodes in *. simpl in *.
  destruct (find_paths depth fuel {| nodes := st'; paths := paths g; _cache_dirty := _cache_dirty g |})
    as [[g1 out1] [ps1|e1]];
  destruct (find_paths depth fuel {| nodes := st'; paths := ps; _cache_dirty := true |})
    as [[g2 out2] [ps2|e2]]; simpl in *; simplify_eq; try done.
  unfold dump_report. by rewrite H1.
Qed.

Lemma find_paths_recomputes depth fuel (g : DirectedGraph) :
  _cache_dirty g = true → find_paths depth fuel g = recompute_paths depth fuel g.
Proof.
  revert g. induction depth as [|depth IH]; intros g Hd; simpl; [done|].
  rewrite Hd. simpl.
  destruct (collect_roots (nodes g)) as [roots|e]; [|done].
  destruct (for_roots fuel roots (nodes g) []) as [st' acc'|st'|st']; [done| |done].
  unfold dump_with. by rewrite (IH (with_nodes g st') Hd).
Qed.

(** ** The traversal does not look at the dependency sets *)

Lemma while_stack_sim fuel (st1 st2 : list (string * Node)) stk acc :
  same_shape st1 st2 →
  traversal_sim (while_stack fuel st1 stk acc) (while_stack fuel st2 stk acc).
Proof.
  revert st1 st2 stk acc.
  induction fuel as [|fuel IH]; intros st1 st2 stk acc Hsh.
  - destruct stk as [|[n p] stk]; simpl; done.
  - destruct stk as [|[n p] stk]; [simpl; done|].
    rewrite !while_stack_cons. cbv zeta.
    assert (same_shape (record_dependencies st1 (p ++ [n]) n)
                       (record_dependencies st2 (p ++ [n]) n)) as Hsh'.
    { eapply same_shape_trans;
        [apply same_shape_sym, same_shape_record_dependencies|].
      eapply same_shape_trans; [exact Hsh|apply same_shape_record_dependencies]. }
    rewrite <-(same_shape_outgoing _ _ n Hsh').
    destruct (outgoing_of _ n) as [|e out]; [by apply IH|].
    destruct (push_children (e :: out) (p ++ [n]) stk); [by apply IH|done].
Qed.

Lemma for_roots_sim fuel roots (st1 st2 : list (string * Node)) acc :
  same_shape st1 st2 →
  traversal_sim (for_roots fuel roots st1 acc) (for_roots fuel roots st2 acc).
Proof.
  revert st1 st2 acc. induction roots as [|r roots IH]; intros st1 st2 acc Hsh; simpl.
  - done.
  - pose proof (while_stack_sim fuel st1 st2 [(r, [])] acc Hsh) as H.
    destruct (while_stack fuel st1 [(r, [])] acc) as [s1 p1|s1|s1];
    destruct (while_stack fuel st2 [(r, [])] acc) as [s2 p2|s2|s2];
      simpl in H; try done.
    destruct H as [H ->]. by apply IH.
Qed.

Lemma while_stack_same_shape fuel (st : list (string * Node)) stk acc :
  same_shape st (store_of (while_stack fuel st stk acc)).
Proof.
  revert st stk acc. induction fuel as [|fuel IH]; intros st stk acc.
  - destruct stk as [|[n p] stk]; simpl; apply same_shape_refl.
  - destruct stk as [|[n p] stk]; [simpl; apply same_shape_refl|].
    rewrite while_stack_cons. cbv zeta.
    pose proof (same_shape_record_dependencies st (p ++ [n]) n) as Hsh.
    destruct (outgoing_of _ n) as [|e out];
      [eapply same_shape_trans; [exact Hsh|apply IH]|].
    destruct (push_children (e :: out) (p ++ [n]) stk);
      [eapply same_shape_trans; [exact Hsh|apply IH]|done].
Qed.

Lemma for_roots_same_shape fuel roots (st : list (string * Node)) acc :
  same_shape st (store_of (for_roots fuel roots st acc)).
Proof.
  revert st acc. induction roots as [|r roots IH]; intros st acc; simpl.
  - apply same_shape_refl.
  - pose proof (while_stack_same_shape fuel st [(r, [])] acc) as H.
    destruct (while_stack fuel st [(r, [])] acc) as [s1 p1|s1|s1]; simpl in *; try done.
    eapply same_shape_trans; [exact H|apply IH].
Qed.

(** Once the traversal of a graph meets a cycle, so does the traversal that
    [dump] starts from inside [find_paths], and the one inside that: the
    calls nest until the interpreter gives up.  Nothing is printed and the
    [raise] behind [self.dump()] is never reached. *)
Lemma cycle_recursion depth fuel (g : DirectedGraph) roots st' :
  _cache_dirty g = true →
  collect_roots (nodes g) = Ok roots →
  for_roots fuel roots (nodes g) [] = CycleFound st' →
  (find_paths depth fuel g).1.2 = [] ∧ (find_paths depth fuel g).2 = Err RecursionError.
Proof.
  revert g st'. induction depth as [|depth IH]; intros g st' Hd Hroots Hcyc; simpl.
  - done.
  - rewrite Hd, Hroots, Hcyc. simpl. unfold dump_with.
    pose proof (for_roots_same_shape fuel roots (nodes g) []) as Hsh.
    rewrite Hcyc in Hsh. simpl in Hsh.
    pose proof (for_roots_sim fuel roots (nodes g) st' [] Hsh) as Hsim.
    rewrite Hcyc in Hsim.
    destruct (for_roots fuel roots st' []) as [|st''|] eqn:Hcyc'; simpl in Hsim; try done.
    destruct (IH (with_nodes g st') st'') as [Hout Hres]; simpl; [done| |done|].
    { by rewrite <-(same_shape_collect_roots _ _ Hsh). }
    destruct (find_paths depth fuel (with_nodes g st')) as [[g' out] [ps|e]];
      simpl in *; [done|by subst].
Qed.

Lemma any_result_Err {A} (f : A → result bool) l e :
  any_result f l = Err e → ∃ x, x ∈ l ∧ f x = Err e.
Proof.
  induction l as [|x l IH]; simpl; [done|].
  destruct (f x) as [[|]|e'] eqn:E; [done| |].
  - intros H. destruct (IH H) as (y & ? & ?). exists y.
    split; [by apply list_elem_of_further|done].
  - intros [= ->]. exists x. split; [apply list_elem_of_here|done].
Qed.

Lemma collect_roots_Err (st : list (string * Node)) e :
  collect_roots st = Err e → e = InvalidRelation.
Proof.
  induction st as [|[k n] st IH]; simpl; [done|].
  destruct (has_incoming_edges n) as [b|e'] eqn:E.
  - destruct (collect_roots st); [done|]. intros [= <-]. by apply IH.
  - intros [= <-]. apply any_result_Err in E as (x & _ & Hx).
    unfold is_incoming_edge in Hx. by destruct (negb _); simplify_eq.
Qed.

(** [find_paths] prints nothing and never raises "Cycle detected!". *)
Lemma find_paths_outcomes depth fuel (g : DirectedGraph) :
  _cache_dirty g = true →
  (find_paths depth fuel g).1.2 = []
  ∧ ((∃ ps, (find_paths depth fuel g).2 = Ok ps)
     ∨ (find_paths depth fuel g).2 = Err RecursionError
     ∨ (find_paths depth fuel g).2 = Err OutOfFuel
     ∨ (find_paths depth fuel g).2 = Err InvalidRelation).
Proof.
  intros Hd. destruct depth as [|depth]; [simpl; auto|].
  destruct (collect_roots (nodes g)) as [roots|e] eqn:Hroots.
  - destruct (for_roots fuel roots (nodes g) []) as [st' ps|st'|st'] eqn:Hfor.
    + simpl. rewrite Hd, Hroots, Hfor. simpl. eauto.
    + destruct (cycle_recursion (S depth) fuel g roots st' Hd Hroots Hfor) as [-> ->].
      auto.
    + simpl. rewrite Hd, Hroots, Hfor. simpl. auto.
  - simpl. rewrite Hd, Hroots. simpl.
    rewrite (collect_roots_Err _ _ Hroots). auto 6.
Qed.

(** ** Depth-first exploration of an acyclic graph *)

Lemma tree_bound_pos D r : 1 ≤ tree_bound D r.
Proof. destruct r; simpl; lia. Qed.

Lemma deps_mono_refl st : deps_mono st st.
Proof. by intros k m. Qed.

Lemma deps_mono_trans st1 st2 st3 :
  deps_mono st1 st2 → deps_mono st2 st3 → deps_mono st1 st3.
Proof. intros H1 H2 k m Hm. by apply H2, H1. Qed.

Lemma deps_mono_record st prevs cur :
  deps_mono st (record_dependencies st prevs cur).
Proof. intros k m Hm. apply deps_of_record. by left. Qed.

Lemma tc_inv_l {A} (R : relation A) x z : tc R x z → ∃ y, R x y ∧ rtc R y z.
Proof.
  destruct 1 as [x z H|x y z H Hyz].
  - exists z. split; [done|apply rtc_refl].
  - exists y. split; [done|by apply tc_rtc].
Qed.

Lemma push_children_Some (out : list Edge) cp stk :
  (∀ e, e ∈ out → to_node e ∉ cp) →
  push_children out cp stk
  = Some (((λ t, (t, cp)) <$> reverse (to_node <$> out)) ++ stk).
Proof.
  revert stk. induction out as [|e out IH]; intros stk Hout; simpl; [done|].
  rewrite bool_decide_eq_false_2 by (apply Hout, list_elem_of_here).
  rewrite IH by (intros e' He'; by apply Hout, list_elem_of_further).
  rewrite reverse_cons, fmap_app, <-app_assoc. done.
Qed.

Section Explore.
Context (K : list string) (succ : string → list string) (D : nat).
Local Abbreviation follows := (follows succ).
Local Abbreviation agrees := (agrees K succ).
Local Abbreviation maxwalk := (maxwalk succ).
Local Abbreviation is_root := (is_root K succ).
Local Abbreviation frame_pre := (frame_pre K succ).
Local Abbreviation covers_path := (covers_path succ).
Local Abbreviation covers_below := (covers_below succ).
Local Abbreviation explored := (explored succ).
Local Abbreviation explore_at := (@explore_at Data K succ D).

Context (Hclosed : ∀ u v, follows u v → v ∈ K).
Context (Hacyclic : ∀ n, ¬ tc follows n n).
Context (Hdegree : ∀ n, length (succ n) ≤ D).

Lemma agrees_same_shape st st' : same_shape st st' → agrees st → agrees st'.
Proof.
  intros Hsh [HK Hsucc]. split.
  - by rewrite <-(same_shape_keys _ _ Hsh).
  - intros n. by rewrite <-(same_shape_succs _ _ n Hsh).
Qed.

Lemma frame_pre_child n p t :
  frame_pre n p → follows n t → frame_pre t (p ++ [n]).
Proof.
  intros (Hnd & HK & Htc) Hnt.
  assert (∀ a, a ∈ p ++ [n] → tc follows a t) as Htc'.
  { intros a Ha. apply elem_of_app in Ha as [Ha|Ha].
    - eapply tc_r; [by apply Htc|done].
    - apply list_elem_of_singleton in Ha as ->. by apply tc_once. }
  split; [|split; [|done]].
  - apply NoDup_app. split; [done|]. split; [|apply NoDup_singleton].
    intros x Hx Hx'. apply list_elem_of_singleton in Hx' as ->.
    by apply (Hacyclic t), Htc'.
  - intros a Ha. apply elem_of_app in Ha as [Ha|Ha]; [by apply HK|].
    apply list_elem_of_singleton in Ha as ->. by eapply Hclosed.
Qed.

Lemma frame_pre_length n p : frame_pre n p → length (p ++ [n]) ≤ length K.
Proof.
  intros (Hnd & HK & _). apply submseteq_length. by apply NoDup_submseteq.
Qed.

Lemma frame_pre_fresh n p t : frame_pre n p → follows n t → t ∉ p ++ [n].
Proof.
  intros Hpre Hnt. destruct (frame_pre_child n p t Hpre Hnt) as (Hnd & _ & _).
  apply NoDup_app in Hnd as (_ & Hnd & _). intros Hin.
  apply (Hnd t Hin), list_elem_of_here.
Qed.

Lemma record_self st n p a :
  frame_pre n p → agrees st → a ∈ p →
  n ∈ deps_of (record_dependencies st (p ++ [n]) n) a.
Proof.
  intros (Hnd & HK & _) [Hkeys _] Ha. apply deps_of_record. right.
  split; [done|]. split; [apply elem_of_app; by left|].
  split.
  - intros ->. apply NoDup_app in Hnd as (_ & Hnd & _).
    apply (Hnd n Ha), list_elem_of_here.
  - rewrite Hkeys. apply HK, elem_of_app. by left.
Qed.

Lemma explore_leaf r n p (st : list (string * Node)) acc rest :
  succ n = [] → frame_pre n p → agrees st →
  ∃ k st' ps, k ≤ tree_bound D r
    ∧ (∀ fuel, while_stack (k + fuel) st ((n, p) :: rest) acc
               = while_stack fuel st' rest (acc ++ ps))
    ∧ explored n p st st' ps.
Proof.
  intros Hleaf Hpre Hag.
  set (st1 := record_dependencies st (p ++ [n]) n).
  assert (same_shape st st1) as Hsh by apply same_shape_record_dependencies.
  assert (outgoing_of st1 n = []) as Hout.
  { destruct (agrees_same_shape _ _ Hsh Hag) as [_ Hs]. specialize (Hs n).
    rewrite Hleaf in Hs. unfold succs in Hs. by apply fmap_nil_inv in Hs. }
  exists 1, st1, [p ++ [n]]. split; [apply tree_bound_pos|]. split.
  { intros fuel. change (1 + fuel) with (S fuel). rewrite while_stack_cons.
    cbv zeta. fold st1. by rewrite Hout. }
  split; [done|]. split; [apply deps_mono_record|]. split; [|split].
  - intros a y Ha Hy. apply rtc_inv in Hy as [<-|(t & Ht & _)].
    + by apply record_self.
    + unfold follows in Ht. rewrite Hleaf in Ht. by apply elem_of_nil in Ht.
  - intros x y Hx Hy. apply rtc_inv in Hx as [<-|(t & Ht & _)].
    + apply tc_inv_l in Hy as (t & Ht & _).
      unfold follows in Ht. rewrite Hleaf in Ht. by apply elem_of_nil in Ht.
    + unfold follows in Ht. rewrite Hleaf in Ht. by apply elem_of_nil in Ht.
  - intros q. rewrite list_elem_of_singleton. split.
    + intros ->. exists [n]. split; [by constructor|done].
    + intros (w & Hw & ->). inversion Hw as [? _|? t w' Ht _]; subst; [done|].
      unfold follows in Ht. rewrite Hleaf in Ht. by apply elem_of_nil in Ht.
Qed.

Lemma explore_children r n p :
  explore_at r → frame_pre n p → length K ≤ S r + length (p ++ [n]) →
  ∀ cs, (∀ t, t ∈ cs → follows n t) →
  ∀ (st : list (string * Node)) acc rest, agrees st →
  ∃ k st' ps, k ≤ length cs * tree_bound D r
    ∧ (∀ fuel, while_stack (k + fuel) st (((λ t, (t, p ++ [n])) <$> cs) ++ rest) acc
               = while_stack fuel st' rest (acc ++ ps))
    ∧ same_shape st st' ∧ deps_mono st st'
    ∧ (∀ t, t ∈ cs → covers_path st' (p ++ [n]) t ∧ covers_below st' t)
    ∧ (∀ q, q ∈ ps ↔ ∃ t w, t ∈ cs ∧ maxwalk t w ∧ q = (p ++ [n]) ++ w).
Proof.
  intros Hexp Hpre Hlen. induction cs as [|t cs IH]; intros Hcs st acc rest Hag.
  - exists 0, st, []. split; [simpl; lia|]. split.
    { intros fuel. simpl. by rewrite app_nil_r. }
    split; [apply same_shape_refl|]. split; [apply deps_mono_refl|]. split.
    + intros t Ht. by apply elem_of_nil in Ht.
    + intros q. split; [intros Hq; by apply elem_of_nil in Hq|].
      intros (t & w & Ht & _). by apply elem_of_nil in Ht.
  - assert (follows n t) as Hnt by apply Hcs, list_elem_of_here.
    destruct (Hexp t (p ++ [n]) st acc (((λ t, (t, p ++ [n])) <$> cs) ++ rest))
      as (k1 & st1 & ps1 & Hk1 & Hrun1 & Hsh1 & Hmono1 & Hpath1 & Hbelow1 & Hps1).
    { by apply frame_pre_child. }
    { done. }
    { rewrite (length_app (p ++ [n])). simpl. lia. }
    destruct (IH (λ t' Ht', Hcs t' (list_elem_of_further _ _ _ Ht'))
                st1 (acc ++ ps1) rest)
      as (k2 & st2 & ps2 & Hk2 & Hrun2 & Hsh2 & Hmono2 & Hcov2 & Hps2).
    { by eapply agrees_same_shape. }
    exists (k1 + k2), st2, (ps1 ++ ps2). split; [simpl; lia|]. split.
    { intros fuel. rewrite <-Nat.add_assoc. csimpl. rewrite Hrun1, Hrun2.
      by rewrite app_assoc. }
    split; [by eapply same_shape_trans|].
    split; [by eapply deps_mono_trans|]. split.
    + intros t' Ht'. apply elem_of_cons in Ht' as [->|Ht']; [|by apply Hcov2].
      split.
      * intros a y Ha Hy. by apply Hmono2, Hpath1.
      * intros x y Hx Hy. by apply Hmono2, Hbelow1.
    + intros q. rewrite elem_of_app, Hps1, Hps2. split.
      * intros [(w & Hw & ->)|(t' & w & Ht' & Hw & ->)].
        -- exists t, w. split; [apply list_elem_of_here|done].
        -- exists t', w. split; [by apply list_elem_of_further|done].
      * intros (t' & w & Ht' & Hw & ->).
        apply elem_of_cons in Ht' as [->|Ht']; [left|right]; eauto.
Qed.

Lemma explore_node r n p (st : list (string * Node)) acc rest :
  explore_at r → succ n ≠ [] → frame_pre n p → agrees st →
  length K ≤ S r + length (p ++ [n]) →
  ∃ k st' ps, k ≤ tree_bound D (S r)
    ∧ (∀ fuel, while_stack (k + fuel) st ((n, p) :: rest) acc
               = while_stack fuel st' rest (acc ++ ps))
    ∧ explored n p st st' ps.
Proof.
  intros Hexp Hnode Hpre Hag Hlen.
  set (st1 := record_dependencies st (p ++ [n]) n).
  assert (same_shape st st1) as Hsh by apply same_shape_record_dependencies.
  pose proof (agrees_same_shape _ _ Hsh Hag) as Hag1.
  assert (to_node <$> outgoing_of st1 n = succ n) as Hout by apply Hag1.
  set (cs := reverse (succ n)).
  assert (∀ t, t ∈ cs → follows n t) as Hcs.
  { intros t Ht. unfold follows, cs in *. by apply elem_of_reverse. }
  destruct (explore_children r n p Hexp Hpre Hlen cs Hcs st1 acc rest Hag1)
    as (k & st' & ps & Hk & Hrun & Hsh' & Hmono & Hcov & Hps).
  exists (S k), st', ps. split.
  { simpl. pose proof (Hdegree n) as Hd. unfold cs in Hk.
    rewrite length_reverse in Hk.
    assert (length (succ n) * tree_bound D r ≤ D * tree_bound D r)
      by by apply Nat.mul_le_mono_r.
    lia. }
  split.
  { intros fuel. change (S k + fuel) with (S (k + fuel)).
    rewrite while_stack_cons. cbv zeta. fold st1.
    destruct (outgoing_of st1 n) as [|e out] eqn:Eout.
    { simpl in Hout. by rewrite <-Hout in Hnode. }
    rewrite push_children_Some.
    - rewrite Hout. apply Hrun.
    - intros e' He'. apply (frame_pre_fresh n p); [done|].
      unfold follows. rewrite <-Hout. apply list_elem_of_fmap. eauto. }
  split; [by eapply same_shape_trans|].
  split; [eapply deps_mono_trans; [apply deps_mono_record|done]|].
  split; [|split].
  - intros a y Ha Hy. apply rtc_inv in Hy as [<-|(t & Ht & Hy)].
    + by apply Hmono, record_self.
    + destruct (Hcov t) as [Hpath _]; [by apply elem_of_reverse|].
      apply Hpath; [|done]. apply elem_of_app. by left.
  - intros x y Hx Hy. apply rtc_inv in Hx as [<-|(t & Ht & Hx)].
    + apply tc_inv_l in Hy as (t & Ht & Hy).
      destruct (Hcov t) as [Hpath _]; [by apply elem_of_reverse|].
      apply Hpath; [|done]. apply elem_of_app. right. apply list_elem_of_here.
    + destruct (Hcov t) as [_ Hbelow]; [by apply elem_of_reverse|].
      by apply Hbelow.
  - intros q. rewrite Hps. split.
    + intros (t & w & Ht & Hw & ->). exists (n :: w). split.
      * apply maxwalk_step with t; [by apply Hcs|done].
      * by rewrite <-app_assoc.
    + intros (w & Hw & ->). inversion Hw as [? Hleaf|? t w' Ht Hw']; subst; [done|].
      exists t, w'. split; [by apply elem_of_reverse|]. split; [done|].
      by rewrite <-app_assoc.
Qed.

Lemma explore r : explore_at r.
Proof.
  induction r as [|r IH]; intros n p st acc rest Hpre Hag Hlen.
  - destruct (succ n) as [|t ts] eqn:Esucc; [by apply explore_leaf|].
    exfalso. assert (follows n t) as Hnt.
    { unfold follows. rewrite Esucc. apply list_elem_of_here. }
    pose proof (frame_pre_length _ _ (frame_pre_child n p t Hpre Hnt)) as Hl.
    rewrite (length_app (p ++ [n])) in Hl. simpl in *. lia.
  - destruct (succ n) as [|t ts] eqn:Esucc; [by apply explore_leaf|].
    apply explore_node; [done|by rewrite Esucc|done|done|lia].
Qed.

Context (Hdomain : ∀ u v, follows u v → u ∈ K).

Lemma root_above m (visited : list string) y x :
  NoDup visited → (∀ v, v ∈ visited → v ∈ K) →
  (∀ v, v ∈ visited → tc follows y v) →
  y ∈ K → rtc follows y x → length K ≤ m + length visited →
  ∃ r, is_root r ∧ rtc follows r x.
Proof.
  revert visited y. induction m as [|m IH]; intros visited y Hnd HK Htc Hy Hyx Hlen.
  all: destruct (decide (Exists (λ u, follows u y) K)) as [Hex|Hno];
    [|exists y; split; [|done]; split; [done|];
      intros u Hu; apply Hno, Exists_exists; exists u; split; [by eapply Hdomain|done]].
  all: apply Exists_exists in Hex as (u & Hu & Huy).
  all: assert (NoDup (y :: visited)) as Hnd'
         by (constructor; [intros Hin; by apply (Hacyclic y), Htc|done]).
  all: assert (length (y :: visited) ≤ length K) as Hl
         by (apply submseteq_length, NoDup_submseteq; [done|];
             intros v Hv; apply elem_of_cons in Hv as [->|Hv]; auto).
  all: simpl in Hl.
  - lia.
  - apply (IH (y :: visited) u); [done| | |done| |simpl; lia].
    + intros v Hv. apply elem_of_cons in Hv as [->|Hv]; auto.
    + intros v Hv. apply elem_of_cons in Hv as [->|Hv]; [by apply tc_once|].
      eapply tc_l; [exact Huy|by apply Htc].
    + by eapply rtc_l.
Qed.

Lemma root_ancestor x : x ∈ K → ∃ r, is_root r ∧ rtc follows r x.
Proof.
  intros Hx. apply (root_above (length K) [] x x); try done.
  - apply NoDup_nil_2.
  - intros v Hv. by apply elem_of_nil in Hv.
  - intros v Hv. by apply elem_of_nil in Hv.
  - simpl. lia.
Qed.

Lemma walk_below m (visited : list string) y :
  NoDup visited → (∀ v, v ∈ visited → v ∈ K) →
  (∀ v, v ∈ visited → tc follows v y) →
  y ∈ K → length K ≤ m + length visited →
  ∃ w, maxwalk y w.
Proof.
  revert visited y. induction m as [|m IH]; intros visited y Hnd HK Htc Hy Hlen.
  all: destruct (succ y) as [|t ts] eqn:Esucc; [exists [y]; by constructor|].
  all: assert (follows y t) as Hyt
         by (unfold follows; rewrite Esucc; apply list_elem_of_here).
  all: assert (NoDup (y :: visited)) as Hnd'
         by (constructor; [intros Hin; by apply (Hacyclic y), Htc|done]).
  all: assert (length (y :: visited) ≤ length K) as Hl
         by (apply submseteq_length, NoDup_submseteq; [done|];
             intros v Hv; apply elem_of_cons in Hv as [->|Hv]; auto).
  all: simpl in Hl.
  - lia.
  - destruct (IH (y :: visited) t) as (w & Hw); [done| | |by eapply Hclosed|simpl; lia|].
    + intros v Hv. apply elem_of_cons in Hv as [->|Hv]; auto.
    + intros v Hv. apply elem_of_cons in Hv as [->|Hv]; [by apply tc_once|].
      eapply tc_r; [by apply Htc|done].
    + exists (y :: w). by apply maxwalk_step with t.
Qed.

Lemma maxwalk_exists x : x ∈ K → ∃ w, maxwalk x w.
Proof.
  intros Hx. apply (walk_below (length K) [] x); try done.
  - apply NoDup_nil_2.
  - intros v Hv. by apply elem_of_nil in Hv.
  - intros v Hv. by apply elem_of_nil in Hv.
  - simpl. lia.
Qed.

Lemma for_roots_explore roots (st : list (string * Node)) acc :
  agrees st → (∀ r, r ∈ roots → r ∈ K) →
  ∃ st' ps,
    (∀ fuel, tree_bound D (length K - 1) ≤ fuel →
             for_roots fuel roots st acc = Finished st' (acc ++ ps))
    ∧ same_shape st st' ∧ deps_mono st st'
    ∧ (∀ r, r ∈ roots → covers_below st' r)
    ∧ (∀ q, q ∈ ps ↔ ∃ r, r ∈ roots ∧ maxwalk r q).
Proof.
  revert st acc. induction roots as [|r roots IH]; intros st acc Hag Hroots.
  - exists st, []. split; [intros fuel _; simpl; by rewrite app_nil_r|].
    split; [apply same_shape_refl|]. split; [apply deps_mono_refl|]. split.
    + intros r Hr. by apply elem_of_nil in Hr.
    + intros q. split; [intros Hq; by apply elem_of_nil in Hq|].
      intros (r & Hr & _). by apply elem_of_nil in Hr.
  - destruct (explore (length K - 1) r [] st acc [])
      as (k & st1 & ps1 & Hk & Hrun & Hsh1 & Hmono1 & _ & Hbelow1 & Hps1).
    { split; [apply NoDup_singleton|]. split.
      - intros a Ha. apply list_elem_of_singleton in Ha as ->.
        apply Hroots, list_elem_of_here.
      - intros a Ha. by apply elem_of_nil in Ha. }
    { done. }
    { simpl. lia. }
    destruct (IH st1 (acc ++ ps1)) as (st2 & ps2 & Hrun2 & Hsh2 & Hmono2 & Hbelow2 & Hps2).
    { by eapply agrees_same_shape. }
    { intros r' Hr'. by apply Hroots, list_elem_of_further. }
    exists st2, (ps1 ++ ps2). split.
    { intros fuel Hfuel. simpl.
      replace fuel with (k + (fuel - k)) at 1 by lia.
      rewrite Hrun, while_stack_nil, (Hrun2 fuel Hfuel). by rewrite app_assoc. }
    split; [by eapply same_shape_trans|].
    split; [by eapply deps_mono_trans|]. split.
    + intros r' Hr'. apply elem_of_cons in Hr' as [->|Hr']; [|by apply Hbelow2].
      intros x y Hx Hy. by apply Hmono2, Hbelow1.
    + intros q. rewrite elem_of_app, Hps1, Hps2. split.
      * intros [(w & Hw & ->)|(r' & Hr' & Hw)].
        -- exists r. split; [apply list_elem_of_here|done].
        -- exists r'. split; [by apply list_elem_of_further|done].
      * intros (r' & Hr' & Hw).
        apply elem_of_cons in Hr' as [->|Hr']; [left|right]; eauto.
Qed.

(** The whole traversal of an acyclic graph: it ends, every dependency set
    holds all the nodes below its node, and the paths are the maximal walks
    that start at a root. *)
Lemma traversal_complete roots (st : list (string * Node)) :
  agrees st → (∀ r, r ∈ roots ↔ is_root r) →
  ∃ st' ps,
    (∀ fuel, tree_bound D (length K - 1) ≤ fuel →
             for_roots fuel roots st [] = Finished st' ps)
    ∧ same_shape st st' ∧ deps_mono st st'
    ∧ (∀ x y, x ∈ K → tc follows x y → y ∈ deps_of st' x)
    ∧ (∀ q, q ∈ ps ↔ ∃ r, is_root r ∧ maxwalk r q).
Proof.
  intros Hag Hroots.
  destruct (for_roots_explore roots st [] Hag)
    as (st' & ps & Hrun & Hsh & Hmono & Hbelow & Hps).
  { intros r Hr. by apply Hroots in Hr as [? _]. }
  exists st', ps. split; [done|]. split; [done|]. split; [done|]. split.
  - intros x y Hx Hxy. destruct (root_ancestor x Hx) as (r & Hr & Hrx).
    apply (Hbelow r); [by apply Hroots|done|done].
  - intros q. rewrite Hps. split; intros (r & Hr & Hw); exists r;
      (split; [by apply Hroots|done]).
Qed.

End Explore.

(** ** Every traversal ends *)

Lemma push_children_inv (out : list Edge) cp stk stk' :
  push_children out cp stk = Some stk' →
  stk' = ((λ t, (t, cp)) <$> reverse (to_node <$> out)) ++ stk
  ∧ ∀ e, e ∈ out → to_node e ∉ cp.
Proof.
  revert stk. induction out as [|e out IH]; intros stk Hpush; simpl in Hpush.
  - simplify_eq. split; [done|]. intros e He. by apply elem_of_nil in He.
  - case_bool_decide as Hin; [done|]. destruct (IH _ Hpush) as [-> Hout].
    split.
    + csimpl. by rewrite reverse_cons, fmap_app, <-app_assoc.
    + intros e' He'. apply elem_of_cons in He' as [->|He']; auto.
Qed.

Section Termination.
Context (K : list string) (succ : string → list string) (D : nat).
Local Abbreviation frame_inv := (frame_inv K).
Local Abbreviation frame_weight := (frame_weight K D).
Local Abbreviation stack_weight := (stack_weight K D).
Context (Hclosed : ∀ u v, follows succ u v → v ∈ K).
Context (Hdegree : ∀ n, length (succ n) ≤ D).

Lemma children_weight cp (cs : list string) :
  stack_weight ((λ t, (t, cp)) <$> cs)
  = length cs * tree_bound D (length K - S (length cp)).
Proof.
  unfold stack_weight. induction cs as [|t cs IH]; csimpl; [done|].
  rewrite IH. unfold frame_weight. simpl. rewrite length_app. simpl.
  by replace (length cp + 1) with (S (length cp)) by lia.
Qed.

Lemma while_stack_terminates fuel (st : list (string * Node)) stk acc :
  agrees K succ st → Forall frame_inv stk → stack_weight stk ≤ fuel →
  ∀ st', while_stack fuel st stk acc ≠ Exhausted st'.
Proof.
  revert st stk acc.
  induction fuel as [|fuel IH]; intros st stk acc Hag Hinv Hw st'.
  - destruct stk as [|fr stk]; [done|]. exfalso.
    unfold stack_weight in Hw. simpl in Hw.
    pose proof (tree_bound_pos D (length K - length (fr.2 ++ [fr.1]))).
    unfold frame_weight in Hw. lia.
  - destruct stk as [|[n p] stk]; [done|].
    rewrite while_stack_cons. cbv zeta.
    apply Forall_cons in Hinv as [[Hnd HK] Hinv]. simpl in Hnd, HK.
    set (st1 := record_dependencies st (p ++ [n]) n).
    assert (agrees K succ st1) as Hag1.
    { eapply agrees_same_shape; [apply same_shape_record_dependencies|done]. }
    assert (to_node <$> outgoing_of st1 n = succ n) as Hout by apply Hag1.
    unfold stack_weight in Hw. simpl in Hw. fold (stack_weight stk) in Hw.
    unfold frame_weight in Hw. simpl in Hw.
    pose proof (tree_bound_pos D (length K - length (p ++ [n]))) as Hpos.
    destruct (outgoing_of st1 n) as [|e out] eqn:Eout.
    { apply IH; [done|done|lia]. }
    destruct (push_children (e :: out) (p ++ [n]) stk) as [stk'|] eqn:Epush; [|done].
    destruct (push_children_inv _ _ _ _ Epush) as [-> Hfresh].
    rewrite Hout in *.
    assert (∀ t, t ∈ succ n → t ∉ p ++ [n]) as Hfresh'.
    { intros t Ht. rewrite <-Hout in Ht.
      apply list_elem_of_fmap in Ht as (e' & -> & He'). by apply Hfresh. }
    assert (∀ t, t ∈ succ n → frame_inv (t, p ++ [n])) as Hchild.
    { intros t Ht. split; simpl.
      - apply NoDup_app. split; [done|]. split; [|apply NoDup_singleton].
        intros x Hx Hx'. apply list_elem_of_singleton in Hx' as ->.
        by apply (Hfresh' t).
      - intros a Ha. apply elem_of_app in Ha as [Ha|Ha]; [by apply HK|].
        apply list_elem_of_singleton in Ha as ->. by apply (Hclosed n). }
    assert (S (length (p ++ [n])) ≤ length K) as Hroom.
    { assert (to_node e ∈ succ n) as Ht.
      { rewrite <-Hout. apply list_elem_of_here. }
      destruct (Hchild _ Ht) as [Hnd' HK']. simpl in *.
      pose proof (submseteq_length _ _ (NoDup_submseteq _ _ Hnd' HK')) as Hl.
      rewrite length_app in Hl. simpl in Hl. lia. }
    apply IH; [done| |].
    + apply Forall_app. split; [|done]. apply Forall_fmap, Forall_forall.
      intros t Ht. apply Hchild. by apply elem_of_reverse.
    + unfold stack_weight. rewrite sum_list_with_app.
      fold (stack_weight ((λ t, (t, p ++ [n])) <$> reverse (succ n))).
      fold (stack_weight stk).
      rewrite children_weight, length_reverse.
      destruct (length K - length (p ++ [n])) as [|r] eqn:Er; [lia|].
      replace (length K - S (length (p ++ [n]))) with r by lia.
      simpl in Hw. pose proof (Hdegree n).
      assert (length (succ n) * tree_bound D r ≤ D * tree_bound D r)
        by by apply Nat.mul_le_mono_r.
      lia.
Qed.

Lemma for_roots_terminates fuel roots (st : list (string * Node)) acc :
  agrees K succ st → (∀ r, r ∈ roots → r ∈ K) →
  tree_bound D (length K - 1) ≤ fuel →
  ∀ st', for_roots fuel roots st acc ≠ Exhausted st'.
Proof.
  revert st acc. induction roots as [|r roots IH]; intros st acc Hag Hroots Hfuel st';
    simpl; [done|].
  assert (∀ st1, while_stack fuel st [(r, [])] acc ≠ Exhausted st1) as Hrun.
  { apply while_stack_terminates; [done| |].
    - constructor; [|constructor]. split; simpl; [apply NoDup_singleton|].
      intros a Ha. apply list_elem_of_singleton in Ha as ->.
      apply Hroots, list_elem_of_here.
    - unfold stack_weight, frame_weight. simpl. lia. }
  pose proof (while_stack_same_shape fuel st [(r, [])] acc) as Hsh.
  destruct (while_stack fuel st [(r, [])] acc) as [st1 acc1|st1|st1]; simpl in Hsh.
  - apply IH; [by eapply agrees_same_shape| |done].
    intros r' Hr'. by apply Hroots, list_elem_of_further.
  - done.
  - exfalso. by apply (Hrun st1).
Qed.

End Termination.

(** ** The traversal of a well-formed graph *)

Lemma succs_length_max st n : length (succs st n) ≤ max_out st.
Proof.
  unfold succs, outgoing_of. rewrite length_fmap.
  induction st as [|[k v] st IH]; simpl; [lia|].
  case_decide; simpl; lia.
Qed.

Lemma succs_spec st u v :
  wf_store st →
  v ∈ succs st u ↔ ∃ n, dict_get u st = Some n ∧ mkEdge u v ∈ edges n.
Proof.
  intros Hwf. unfold succs, outgoing_of. split.
  - intros H. apply list_elem_of_fmap in H as (e & -> & He).
    destruct (dict_get u st) as [n|] eqn:E; [|by apply elem_of_nil in He].
    exists n. split; [done|]. rewrite (wf_out _ Hwf u n E) in He.
    apply list_elem_of_filter in He as [Hfrom He]. destruct e; simpl in *. by subst.
  - intros (n & E & He). rewrite E. apply list_elem_of_fmap.
    exists (mkEdge u v). split; [done|]. rewrite (wf_out _ Hwf u n E).
    by apply list_elem_of_filter.
Qed.

Lemma succs_closed st u v :
  wf_store st → v ∈ succs st u → u ∈ st.*1 ∧ v ∈ st.*1.
Proof.
  intros Hwf H. apply succs_spec in H as (n & E & He); [|done].
  split; [by eapply dict_get_Some_key|].
  destruct (wf_sym _ Hwf u n _ E He) as (n1 & n2 & _ & H2 & _).
  by eapply dict_get_Some_key.
Qed.

Lemma tc_closed st u v :
  wf_store st → tc (edge_rel st) u v → u ∈ st.*1 ∧ v ∈ st.*1.
Proof.
  intros Hwf. induction 1 as [u v Huv|u v w Huv _ [_ IH]].
  - by apply succs_closed.
  - split; [|done]. by apply (succs_closed st u v).
Qed.

Lemma any_incoming (l : list Edge) k :
  Forall (λ e, from_node e = k ∨ to_node e = k) l →
  any_result (λ e, is_incoming_edge e k) l
  = Ok (bool_decide (Exists (λ e, to_node e = k) l)).
Proof.
  induction 1 as [|e l He _ IH]; simpl.
  - done.
  - unfold is_incoming_edge at 1, connected_to_node.
    destruct (decide (to_node e = k)) as [Hto|Hto].
    + rewrite (bool_decide_eq_true_2 (to_node e = k)) by done.
      rewrite orb_true_r. simpl.
      rewrite bool_decide_eq_true_2; [done|]. by apply Exists_cons_hd.
    + rewrite (bool_decide_eq_false_2 (to_node e = k)) by done.
      rewrite (bool_decide_eq_true_2 (from_node e = k)) by tauto. simpl.
      rewrite IH. f_equal. apply bool_decide_ext. rewrite Exists_cons. tauto.
Qed.

Lemma incoming_spec st k n :
  wf_store st → dict_get k st = Some n →
  Exists (λ e, to_node e = k) (edges n) ↔ Exists (λ u, k ∈ succs st u) st.*1.
Proof.
  intros Hwf E. rewrite !Exists_exists. split.
  - intros (e & He & Hto).
    destruct (wf_sym _ Hwf k n e E He) as (n1 & n2 & H1 & _ & He1 & _).
    exists (from_node e). split; [by eapply dict_get_Some_key|].
    apply succs_spec; [done|]. exists n1. split; [done|].
    destruct e; simpl in *. by subst.
  - intros (u & _ & Hu). apply succs_spec in Hu as (nu & Eu & He); [|done].
    destruct (wf_sym _ Hwf u nu _ Eu He) as (n1 & n2 & _ & H2 & _ & He2).
    simpl in *. exists (mkEdge u k). by simplify_eq.
Qed.

Lemma collect_roots_wf st :
  wf_store st →
  collect_roots st
  = Ok (filter (λ k, ¬ Exists (λ u, k ∈ succs st u) st.*1) st.*1).
Proof.
  intros Hwf.
  assert (∀ items, (∀ k n, (k, n) ∈ items → dict_get k st = Some n) →
            collect_roots items
            = Ok (filter (λ k, ¬ Exists (λ u, k ∈ succs st u) st.*1) items.*1))
    as Hgen.
  { induction items as [|[k n] items IH]; intros Hitems; simpl; [done|].
    assert (dict_get k st = Some n) as E by apply Hitems, list_elem_of_here.
    unfold has_incoming_edges. rewrite (wf_name _ Hwf k n E), any_incoming.
    2:{ apply Forall_forall. intros e He. by apply (wf_ends _ Hwf k n e E). }
    rewrite IH by (intros k' n' H'; by apply Hitems, list_elem_of_further).
    rewrite filter_cons. pose proof (incoming_spec st k n Hwf E) as Hiff.
    case_bool_decide; case_decide; tauto. }
  apply Hgen. intros k n Hkn. apply dict_elem_get; [apply Hwf|done].
Qed.

(** What [find_paths] does on an acyclic graph, given fuel for its loops. *)
Lemma find_paths_acyclic (g : DirectedGraph) :
  wf_store (nodes g) → _cache_dirty g = true → acyclic g →
  ∃ st' ps,
    (∀ depth fuel, traversal_bound g ≤ fuel →
       find_paths (S depth) fuel g
       = ({| nodes := st'; paths := ps; _cache_dirty := true |}, [], Ok ps))
    ∧ same_shape (nodes g) st' ∧ deps_mono (nodes g) st'
    ∧ (∀ x y, x ∈ (nodes g).*1 → tc (edge_rel (nodes g)) x y → y ∈ deps_of st' x)
    ∧ (∀ q, q ∈ ps ↔
         ∃ r, is_root (nodes g).*1 (succs (nodes g)) r ∧ maxwalk (succs (nodes g)) r q).
Proof.
  intros Hwf Hd Hac.
  destruct (traversal_complete (nodes g).*1 (succs (nodes g)) (max_out (nodes g))
              (λ u v H, proj2 (succs_closed _ u v Hwf H))
              Hac (succs_length_max (nodes g))
              (λ u v H, proj1 (succs_closed _ u v Hwf H))
              (filter (λ k, ¬ Exists (λ u, k ∈ succs (nodes g) u) (nodes g).*1)
                      (nodes g).*1)
              (nodes g))
    as (st' & ps & Hrun & Hsh & Hmono & Hdeps & Hps).
  { by split. }
  { intros r. rewrite list_elem_of_filter. unfold is_root, follows. split.
    - intros [Hno Hr]. split; [done|]. intros u Hu. apply Hno, Exists_exists.
      exists u. split; [|done]. by apply (succs_closed _ u r Hwf).
    - intros [Hr Hno]. split; [|done]. intros (u & _ & Hu)%Exists_exists.
      by apply (Hno u). }
  exists st', ps. split; [|done].
  intros depth fuel Hfuel. simpl. rewrite Hd, collect_roots_wf by done. simpl.
  rewrite Hrun; [done|]. by rewrite length_fmap.
Qed.

(** ** Relocation *)

Lemma singleton_sublist (p : string) k : [p] `sublist_of` k ↔ p ∈ k.
Proof.
  rewrite sublist_cons_l. split.
  - intros (k1 & k2 & -> & _). apply elem_of_app. right. apply list_elem_of_here.
  - intros (k1 & k2 & ->)%list_elem_of_split. exists k1, k2.
    split; [done|apply sublist_nil_l].
Qed.

Lemma before_split l q p :
  before l q p ↔ ∃ k1 k2, l = k1 ++ q :: k2 ∧ p ∈ k2.
Proof.
  unfold before. rewrite sublist_cons_l.
  split; intros (k1 & k2 & -> & H); exists k1, k2; (split; [done|]);
    by apply singleton_sublist.
Qed.

Lemma before_lookup l q p :
  before l q p → ∃ i j, i < j ∧ l !! i = Some q ∧ l !! j = Some p.
Proof.
  intros (k1 & k2 & -> & (j & Hj)%list_elem_of_lookup)%before_split.
  exists (length k1), (length k1 + S j). split; [lia|]. split.
  - by rewrite list_lookup_middle.
  - rewrite lookup_app_r by lia.
    replace (length k1 + S j - length k1) with (S j) by lia. done.
Qed.

Lemma sublist_delete_middle (s l1 l2 : list string) x :
  s `sublist_of` l1 ++ x :: l2 → x ∉ s → s `sublist_of` l1 ++ l2.
Proof.
  intros (s1 & s2 & -> & H1 & H2)%sublist_app_r Hx.
  apply sublist_app; [done|].
  apply sublist_cons_r in H2 as [H2|(s' & -> & _)]; [done|].
  exfalso. apply Hx, elem_of_app. right. apply list_elem_of_here.
Qed.

Lemma sublist_insert_middle (s l1 l2 : list string) x :
  s `sublist_of` l1 ++ l2 → s `sublist_of` l1 ++ x :: l2.
Proof.
  intros (s1 & s2 & -> & H1 & H2)%sublist_app_r.
  apply sublist_app; [done|]. by apply sublist_cons.
Qed.

Lemma app_cons_unique (L C k1 k2 : list string) d :
  d ∉ L → d ∉ k1 → L ++ d :: C = k1 ++ d :: k2 → L = k1 ∧ C = k2.
Proof.
  revert k1. induction L as [|a L IH]; intros [|b k1] HL Hk Heq; simplify_eq/=.
  - done.
  - exfalso. apply Hk, list_elem_of_here.
  - exfalso. apply HL, list_elem_of_here.
  - apply not_elem_of_cons in HL as [_ HL]. apply not_elem_of_cons in Hk as [_ Hk].
    destruct (IH k1 HL Hk) as [-> ->]; done.
Qed.

Lemma before_after_index (L C : list string) d p :
  NoDup (L ++ d :: C) → before (L ++ d :: C) d p → p ∈ C.
Proof.
  intros Hnd (k1 & k2 & Heq & Hp)%before_split.
  assert (d ∉ L) as HdL.
  { apply NoDup_app in Hnd as (_ & HL & _). intros Hin.
    apply (HL d Hin), list_elem_of_here. }
  assert (d ∉ k1) as Hdk.
  { rewrite Heq in Hnd. apply NoDup_app in Hnd as (_ & HL & _). intros Hin.
    apply (HL d Hin), list_elem_of_here. }
  by destruct (app_cons_unique L C k1 k2 d HdL Hdk Heq) as [-> ->].
Qed.

Lemma list_remove_first_skip x (A rest : list string) :
  x ∉ A → list_remove_first x (A ++ x :: rest) = Some (A ++ rest).
Proof.
  induction A as [|a A IH]; intros Hx; simpl.
  - by rewrite bool_decide_eq_true_2.
  - apply not_elem_of_cons in Hx as [Hne Hx].
    rewrite bool_decide_eq_false_2 by done. by rewrite IH.
Qed.

Lemma list_remove_first_perm x l l' :
  list_remove_first x l = Some l' → l ≡ₚ x :: l'.
Proof.
  revert l'. induction l as [|y l IH]; intros l'; simpl; [done|].
  case_bool_decide as Hxy; [intros [= <-]; by subst|].
  destruct (list_remove_first x l) as [r|]; simpl; [|done].
  intros [= <-]. rewrite (IH r eq_refl). apply Permutation_swap.
Qed.

Lemma list_remove_first_is_Some x l : x ∈ l → is_Some (list_remove_first x l).
Proof.
  induction l as [|y l IH]; simpl; [by intros H%elem_of_nil|].
  intros H. case_bool_decide as Hxy; [eauto|].
  apply elem_of_cons in H as [->|H]; [done|].
  destruct (IH H) as [r ->]. simpl. eauto.
Qed.

Lemma list_insert_at_perm {A} i (x : A) l : list_insert_at i x l ≡ₚ x :: l.
Proof.
  unfold list_insert_at. rewrite <-Permutation_middle. by rewrite take_drop.
Qed.

(** The plan is always a rearrangement of the list it starts from:
    [remove] finds the node that [insert] has just put in. *)
Lemma plan_loop_perm (st : list (string * Node)) todo l idx :
  ∃ l', plan_loop st todo l idx = Ok l' ∧ l' ≡ₚ l.
Proof.
  revert l idx. induction todo as [|x todo IH]; intros l idx; simpl; [eauto|].
  destruct (scan st x l 0 idx 0) as [idx' h].
  case_decide; [|apply IH].
  destruct (list_remove_first_is_Some x (list_insert_at (h + 1) x l)) as [l1 Hl1].
  { rewrite list_insert_at_perm. apply list_elem_of_here. }
  rewrite Hl1. destruct (IH l1 idx') as (l' & -> & Hperm).
  exists l'. split; [done|]. rewrite Hperm.
  apply list_remove_first_perm in Hl1. rewrite list_insert_at_perm in Hl1.
  by apply (inj (cons x)).
Qed.

(** Whenever [create_plan] returns a plan, the plan is a rearrangement of
    the nodes of the graph. *)
Lemma create_plan_permutes depth fuel (g : DirectedGraph) plan :
  (create_plan depth fuel g).2 = Ok plan →
  plan ≡ₚ dict_keys (nodes (create_plan depth fuel g).1.1).
Proof.
  destruct depth as [|depth]; simpl; [done|].
  destruct (find_paths depth fuel g) as [[g' out] [ps|e]]; simpl; [|done].
  destruct (plan_loop_perm (nodes g') (dict_keys (nodes g')) (dict_keys (nodes g')) (-1))
    as (l' & -> & Hperm).
  by intros [= <-].
Qed.

Section Plan.
Context (st : list (string * Node)).
Local Abbreviation less := (less st).
Local Abbreviation placed := (placed st).

Context (less_trans : ∀ a b c, less a b → less b c → less a c).

Lemma less_irrefl x : ¬ less x x.
Proof.
  unfold less, ref_lt, Node_lt. destruct (dict_get x st); [|done].
  by rewrite bool_decide_eq_true_2.
Qed.

Lemma scan_index_absent x l i idx h :
  x ∉ l → (scan st x l i idx h).1 = idx.
Proof.
  revert i idx h. induction l as [|y l IH]; intros i idx h Hx; simpl; [done|].
  apply not_elem_of_cons in Hx as [Hne Hx].
  rewrite bool_decide_eq_false_2 by done. by apply IH.
Qed.

Lemma scan_index x l i idx h j :
  NoDup l → l !! j = Some x → (scan st x l i idx h).1 = Z.of_nat (i + j).
Proof.
  revert i idx h j. induction l as [|y l IH]; intros i idx h j Hnd Hj; [done|].
  apply NoDup_cons in Hnd as [Hy Hnd]. destruct j as [|j]; simpl in *.
  - simplify_eq. rewrite bool_decide_eq_true_2 by done.
    rewrite scan_index_absent by done. f_equal. lia.
  - rewrite bool_decide_eq_false_2.
    + rewrite (IH _ _ _ j) by done. f_equal. lia.
    + intros ->. apply Hy. by eapply list_elem_of_lookup_2.
Qed.

Lemma scan_highest x l i idx h :
  let h' := (scan st x l i idx h).2 in
  h ≤ h'
  ∧ (∀ j q, l !! j = Some q → less x q → i + j ≤ h')
  ∧ (h' = h ∨ ∃ j q, l !! j = Some q ∧ less x q ∧ h' = i + j).
Proof.
  revert i idx h. induction l as [|y l IH]; intros i idx h; simpl.
  - split; [done|]. split; [done|by left].
  - set (h1 := if ref_lt st x y then _ else _).
    set (idx1 := if bool_decide (x = y) then _ else _).
    destruct (IH (S i) idx1 h1) as (Hle & Hall & Hmax).
    assert (h ≤ h1) as Hh1.
    { unfold h1. destruct (ref_lt st x y); [case_decide; lia|lia]. }
    assert (ref_lt st x y = true → i ≤ h1) as Hi1.
    { intros Hxy. unfold h1. rewrite Hxy. case_decide; lia. }
    split; [lia|]. split.
    + intros [|j] q Hq Hlt; simpl in Hq.
      * simplify_eq. specialize (Hi1 Hlt). lia.
      * specialize (Hall j q Hq Hlt). lia.
    + destruct Hmax as [->|(j & q & Hq & Hlt & ->)].
      * unfold h1. destruct (ref_lt st x y) eqn:Hxy; [|by left].
        case_decide; [|by left]. right. exists 0, y.
        split; [done|]. split; [done|lia].
      * right. exists (S j), q. split; [done|]. split; [done|lia].
Qed.

Lemma placed_subset done done' l :
  (∀ p, p ∈ done' → p ∈ done) → placed done l → placed done' l.
Proof. intros Hsub Hpl p q Hp. apply Hpl. by apply Hsub. Qed.

Lemma relocate_placed (done A B C : list string) x h :
  NoDup (A ++ x :: B ++ C) → x ∉ done →
  placed done (A ++ x :: B ++ C) →
  length A + length B = h →
  (∀ j q, (A ++ x :: B ++ C) !! j = Some q → less x q → j ≤ h) →
  (h = length A ∨ ∃ d, (A ++ x :: B ++ C) !! h = Some d ∧ less x d) →
  placed (x :: done) (A ++ B ++ x :: C).
Proof.
  intros Hnd Hx Hplaced Hh Hall Hlast p q Hp Hlt Hq.
  assert (q ∈ A ++ x :: B ++ C) as Hq'.
  { revert Hq. rewrite !elem_of_app, !elem_of_cons, !elem_of_app. tauto. }
  apply elem_of_cons in Hp as [->|Hp].
  - (* the relocated node stands behind its dependencies *)
    assert (q ≠ x) as Hne by (intros ->; by apply (less_irrefl x)).
    apply list_elem_of_lookup in Hq' as (j & Hj).
    specialize (Hall j q Hj Hlt).
    assert (q ∈ A ++ B) as HqAB.
    { assert (A ++ x :: B ++ C = (A ++ x :: B) ++ C) as Heq
        by by rewrite <-app_assoc.
      rewrite Heq in Hj.
      rewrite lookup_app_l in Hj by (rewrite length_app; simpl; lia).
      apply list_elem_of_lookup_2 in Hj.
      revert Hj. rewrite !elem_of_app, elem_of_cons. tauto. }
    apply list_elem_of_split in HqAB as (k1 & k2 & Hk).
    apply before_split. exists k1, (k2 ++ x :: C). split.
    + by rewrite app_assoc, Hk, <-app_assoc.
    + apply elem_of_app. right. apply list_elem_of_here.
  - assert (p ≠ x) as Hpx by (intros ->; done).
    destruct (decide (q = x)) as [->|Hqx].
    + (* a placed node that depends on the relocated one stays behind it *)
      apply before_split. exists (A ++ B), C. split; [by rewrite <-app_assoc|].
      destruct B as [|d' B0 _] using rev_ind.
      { apply (before_after_index A C x p); [done|]. by apply Hplaced. }
      destruct Hlast as [->|(d & Hd & Hxd)];
        [rewrite length_app in Hh; simpl in Hh; lia|].
      assert (A ++ x :: (B0 ++ [d']) ++ C = (A ++ x :: B0) ++ d' :: C) as Heq.
      { by rewrite <-!app_assoc. }
      rewrite Heq in Hd, Hnd, Hplaced.
      assert (h = length (A ++ x :: B0)) as Hhlen.
      { rewrite length_app in Hh. rewrite length_app. simpl in *. lia. }
      rewrite list_lookup_middle in Hd by done.
      simplify_eq.
      apply (before_after_index (A ++ x :: B0) C d p); [done|].
      apply Hplaced; [done|by eapply less_trans|].
      apply elem_of_app. right. apply list_elem_of_here.
    + specialize (Hplaced p q Hp Hlt Hq'). unfold before in *.
      rewrite app_assoc. apply sublist_insert_middle. rewrite <-app_assoc.
      apply (sublist_delete_middle _ _ _ x); [done|].
      rewrite !elem_of_cons, elem_of_nil. naive_solver.
Qed.

Lemma stay_placed (done l : list string) x i h :
  placed done l → l !! i = Some x →
  (∀ j q, l !! j = Some q → less x q → j ≤ h) → h < i →
  placed (x :: done) l.
Proof.
  intros Hplaced Hi Hall Hhi p q Hp Hlt Hq.
  apply elem_of_cons in Hp as [->|Hp]; [|by apply Hplaced].
  apply list_elem_of_lookup in Hq as (j & Hj).
  specialize (Hall j q Hj Hlt).
  apply before_split.
  rewrite <-(take_drop_middle l i x Hi).
  assert (take i l !! j = Some q) as Hjt by (rewrite lookup_take_lt by lia; done).
  apply list_elem_of_split_length in Hjt as (k1 & k2 & Hk & _).
  exists k1, (k2 ++ x :: drop (S i) l). split.
  - by rewrite Hk, <-app_assoc.
  - apply elem_of_app. right. apply list_elem_of_here.
Qed.

Lemma relocate_eq (A B C : list string) x :
  x ∉ A →
  list_remove_first x (list_insert_at (length A + length B + 1) x (A ++ x :: B ++ C))
  = Some (A ++ B ++ x :: C).
Proof.
  intros Hx. unfold list_insert_at.
  assert (A ++ x :: B ++ C = (A ++ x :: B) ++ C) as -> by by rewrite <-app_assoc.
  assert (length A + length B + 1 = length (A ++ x :: B)) as ->
    by (rewrite length_app; simpl; lia).
  rewrite take_app_length, drop_app_length, <-app_assoc. simpl.
  by rewrite list_remove_first_skip.
Qed.

Lemma plan_loop_placed todo l idx done :
  NoDup l → NoDup todo → (∀ x, x ∈ todo → x ∈ l ∧ x ∉ done) →
  placed done l →
  ∃ l', plan_loop st todo l idx = Ok l' ∧ l' ≡ₚ l ∧ placed (todo ++ done) l'.
Proof.
  revert l idx done.
  induction todo as [|x todo IH]; intros l idx done Hnd Htodo Hin Hplaced.
  { exists l. by simpl. }
  apply NoDup_cons in Htodo as [Hxtodo Htodo].
  destruct (Hin x) as [Hxl Hxdone]; [apply list_elem_of_here|].
  apply list_elem_of_lookup in Hxl as (i & Hi).
  pose proof (scan_index x l 0 idx 0 i Hnd Hi) as Hidx.
  destruct (scan_highest x l 0 idx 0) as (_ & Hall & Hmax).
  simpl. destruct (scan st x l 0 idx 0) as [idx' h]. simpl in *. subst idx'.
  assert (∀ l1, l1 ≡ₚ l → placed (x :: done) l1 →
            ∃ l', plan_loop st todo l1 (Z.of_nat i) = Ok l' ∧ l' ≡ₚ l
                  ∧ placed ((x :: todo) ++ done) l') as Hcont.
  { intros l1 Hperm Hpl.
    destruct (IH l1 (Z.of_nat i) (x :: done)) as (l' & Hrun & Hperm' & Hpl').
    - by rewrite Hperm.
    - done.
    - intros y Hy. destruct (Hin y) as [Hyl Hyd]; [by apply list_elem_of_further|].
      split; [by rewrite Hperm|]. apply not_elem_of_cons. split; [|done].
      by intros ->.
    - done.
    - exists l'. split; [done|]. split; [by rewrite Hperm'|].
      eapply placed_subset; [|exact Hpl']. intros p. simpl.
      rewrite !elem_of_cons, !elem_of_app, !elem_of_cons. tauto. }
  case_decide as Hcmp.
  - (* relocation *)
    assert (i ≤ h) as Hih by lia.
    assert (h < length l) as Hhl.
    { destruct Hmax as [->|(j & q & Hq & _ & ->)].
      - assert (i = 0) as -> by lia. by eapply lookup_lt_Some.
      - by eapply lookup_lt_Some. }
    destruct (list_elem_of_split_length l i x Hi) as (A & R & -> & ->).
    assert (length (take (h - length A) R) = h - length A) as HB.
    { apply length_take_le. rewrite length_app in Hhl. simpl in Hhl. lia. }
    assert (R = take (h - length A) R ++ drop (h - length A) R) as HR
      by by rewrite take_drop.
    revert HB HR.
    generalize (take (h - length A) R) (drop (h - length A) R).
    intros B C HB ->.
    assert (x ∉ A) as HxA.
    { apply NoDup_app in Hnd as (_ & HA & _). intros Hx.
      apply (HA x Hx), list_elem_of_here. }
    replace (h + 1) with (length A + length B + 1) by lia.
    rewrite relocate_eq by done.
    apply Hcont.
    + rewrite <-!Permutation_middle. done.
    + apply (relocate_placed done A B C x h); [done|done|done|lia| |].
      * intros j q Hq Hlt. specialize (Hall j q Hq Hlt). lia.
      * destruct Hmax as [->|(j & q & Hq & Hlt & ->)]; [left; lia|].
        right. exists q. done.
  - (* the node stays *)
    apply Hcont; [done|].
    apply (stay_placed done l x i h); [done|done| |lia].
    intros j q Hq Hlt. specialize (Hall j q Hq Hlt). lia.
Qed.

End Plan.

(** With enough fuel for its loops, [find_paths] on a graph built by the
    operations returns its paths or ends in RecursionError. *)
Lemma find_paths_total (g : DirectedGraph) depth fuel :
  reachable g → traversal_bound g ≤ fuel →
  (find_paths (S depth) fuel g).1.2 = []
  ∧ ((∃ ps, (find_paths (S depth) fuel g).2 = Ok ps)
     ∨ (find_paths (S depth) fuel g).2 = Err RecursionError).
Proof.
  intros Hr Hfuel. destruct (reachable_inv g Hr) as (Hwf & Hs & Hd).
  pose proof (collect_roots_wf (nodes g) Hwf) as Hroots.
  set (roots := filter _ _) in Hroots.
  assert (∀ st', for_roots fuel roots (nodes g) [] ≠ Exhausted st') as Hterm.
  { apply (for_roots_terminates (nodes g).*1 (succs (nodes g)) (max_out (nodes g))).
    - intros u v Huv. by apply (succs_closed _ u v Hwf).
    - apply succs_length_max.
    - by split.
    - intros r Hr'. unfold roots in Hr'. by apply list_elem_of_filter in Hr' as [_ ?].
    - by rewrite length_fmap. }
  destruct (for_roots fuel roots (nodes g) []) as [st' ps|st'|st'] eqn:Hfor.
  - simpl. rewrite Hd, Hroots, Hfor. simpl. eauto.
  - destruct (cycle_recursion (S depth) fuel g roots st' Hd Hroots Hfor) as [-> ->].
    auto.
  - by destruct (Hterm st').
Qed.

(** ** Acyclic graphs *)

Lemma acyclic_irrefl (g : DirectedGraph) u v :
  acyclic g → tc (edge_rel (nodes g)) u v → u ≠ v.
Proof. intros Hac Huv ->. by apply (Hac v). Qed.

(** A graph whose edges all climb in some ranking has no cycle. *)
Lemma acyclic_of_rank (g : DirectedGraph) (rank : string → nat) :
  rank_ok (nodes g) rank = true → acyclic g.
Proof.
  intros Hok.
  assert (∀ u v, edge_rel (nodes g) u v → rank u < rank v) as Hstep.
  { intros u v Huv. unfold edge_rel, succs, outgoing_of in Huv.
    apply list_elem_of_fmap in Huv as (e & -> & He).
    destruct (dict_get u (nodes g)) as [n|] eqn:E; [|by apply elem_of_nil in He].
    apply dict_get_Some_elem in E. unfold rank_ok in Hok.
    rewrite forallb_forall in Hok. apply list_elem_of_In, Hok in E.
    rewrite forallb_forall in E. apply list_elem_of_In, E in He.
    by apply bool_decide_eq_true in He. }
  assert (∀ u v, tc (edge_rel (nodes g)) u v → rank u < rank v) as Htc.
  { induction 1 as [u v Huv|u v w Huv _ IH]; [by apply Hstep|].
    specialize (Hstep u v Huv). lia. }
  intros n Hn. specialize (Htc n n Hn). lia.
Qed.

Lemma graph_edge_rel (g : DirectedGraph) u v :
  wf_store (nodes g) → graph_edge g u v ↔ edge_rel (nodes g) u v.
Proof. intros Hwf. unfold graph_edge, edge_rel. by rewrite succs_spec. Qed.

(** After [find_paths] on an acyclic graph the dependency sets are the
    transitive closure of the edges. *)
Lemma find_paths_closure (g : DirectedGraph) :
  reachable g → acyclic g →
  ∃ st' ps,
    (∀ depth fuel, traversal_bound g ≤ fuel →
       find_paths (S depth) fuel g
       = ({| nodes := st'; paths := ps; _cache_dirty := true |}, [], Ok ps))
    ∧ same_shape (nodes g) st'
    ∧ (∀ x y, y ∈ deps_of st' x ↔ tc (edge_rel (nodes g)) x y)
    ∧ (∀ q, q ∈ ps ↔
         ∃ r, is_root (nodes g).*1 (succs (nodes g)) r ∧ maxwalk (succs (nodes g)) r q).
Proof.
  intros Hr Hac. destruct (reachable_inv g Hr) as (Hwf & Hs & Hd).
  destruct (find_paths_acyclic g Hwf Hd Hac)
    as (st' & ps & Hrun & Hsh & Hmono & Hdeps & Hps).
  exists st', ps. split; [done|]. split; [done|]. split; [|done].
  intros x y. split.
  - intros Hy. destruct (find_paths_sound 1 (traversal_bound g) g Hs) as (_ & Hs' & _).
    rewrite (Hrun 0 (traversal_bound g)) in Hs' by done. simpl in Hs'.
    eapply same_shape_tc; [by apply same_shape_sym|]. by apply Hs'.
  - intros Hxy. apply Hdeps; [|done].
    apply tc_inv_l in Hxy as (t & Ht & _). by apply (succs_closed _ x t Hwf).
Qed.

(** X15: On an acyclic graph [find_paths] returns; afterwards the dependency set
    of every node holds exactly the nodes reachable from it, the paths
    returned are exactly the maximal paths, and there is one unless the
    graph has no nodes. *)
Theorem acyclic_find_paths (g : DirectedGraph) (depth fuel : nat) :
  reachable g → acyclic g → traversal_bound g ≤ fuel →
  ∃ g' ps, find_paths (S depth) fuel g = (g', [], Ok ps)
    ∧ (∀ n m, m ∈ deps_of (nodes g') n ↔ tc (edge_rel (nodes g)) n m)
    ∧ (∀ q, q ∈ ps ↔ maximal_path g q)
    ∧ (ps = [] → nodes g = []).
Proof.
  intros Hr Hac Hfuel. destruct (reachable_inv g Hr) as (Hwf & _ & _).
  destruct (find_paths_closure g Hr Hac) as (st' & ps & Hrun & Hsh & Hdeps & Hps).
  eexists _, ps. split; [by apply Hrun|]. split; [done|]. split; [done|].
  intros ->.
  assert (nodes g = [] ∨ ∃ k, k ∈ (nodes g).*1) as [?|[k Hk]]; [|done|exfalso].
  { destruct (nodes g) as [|[k n] rest]; [by left|].
    right. exists k. apply list_elem_of_here. }
  assert (∀ u v, follows (succs (nodes g)) u v → v ∈ (nodes g).*1) as Hclosed
    by (intros u v Huv; by apply (succs_closed _ u v Hwf)).
  assert (∀ u v, follows (succs (nodes g)) u v → u ∈ (nodes g).*1) as Hdomain
    by (intros u v Huv; by apply (succs_closed _ u v Hwf)).
  destruct (root_ancestor (nodes g).*1 (succs (nodes g)) Hac Hdomain k Hk)
    as (r & Hroot & _).
  destruct (maxwalk_exists (nodes g).*1 (succs (nodes g)) Hclosed Hac r) as (w & Hw).
  { apply Hroot. }
  assert (w ∈ []) as Hin by (apply Hps; by exists r).
  by apply elem_of_nil in Hin.
Qed.

(** What [create_plan] returns on an acyclic graph. *)
Lemma create_plan_acyclic (g : DirectedGraph) :
  reachable g → acyclic g →
  ∃ plan,
    (∀ depth fuel, traversal_bound g ≤ fuel →
       (create_plan (S (S depth)) fuel g).1.2 = []
       ∧ (create_plan (S (S depth)) fuel g).2 = Ok plan)
    ∧ plan ≡ₚ dict_keys (nodes g)
    ∧ ∀ u v, graph_edge g u v → before plan v u.
Proof.
  intros Hr Hac. destruct (reachable_inv g Hr) as (Hwf & Hs & Hd).
  destruct (find_paths_closure g Hr Hac) as (st' & ps & Hrun & Hsh & Hdeps & _).
  pose proof (same_shape_wf _ _ Hsh Hwf) as Hwf'.
  assert (∀ a b, less st' a b ↔ a ≠ b ∧ tc (edge_rel (nodes g)) a b) as Hlt.
  { intros a b. unfold less, ref_lt, Node_lt, depends_on. rewrite <-Hdeps.
    unfold deps_of. split.
    - destruct (dict_get a st') as [na|] eqn:Ea; [|done].
      destruct (dict_get b st') as [nb|] eqn:Eb; [|done].
      rewrite (wf_name _ Hwf' a na Ea), (wf_name _ Hwf' b nb Eb).
      case_bool_decide; [done|]. by rewrite bool_decide_eq_true.
    - intros [Hne Hb].
      assert (is_Some (dict_get b st')) as [nb Eb].
      { apply dict_get_is_Some. rewrite <-(same_shape_keys _ _ Hsh).
        apply (tc_closed _ a b Hwf). apply Hdeps. unfold deps_of. exact Hb. }
      destruct (dict_get a st') as [na|] eqn:Ea; [|set_solver].
      rewrite Eb, (wf_name _ Hwf' a na Ea), (wf_name _ Hwf' b nb Eb).
      rewrite bool_decide_eq_false_2 by done. by rewrite bool_decide_eq_true. }
  assert (NoDup st'.*1) as Hnd.
  { rewrite <-(same_shape_keys _ _ Hsh). apply Hwf. }
  destruct (plan_loop_placed st') with
    (todo := st'.*1) (l := st'.*1) (idx := (-1)%Z) (done := @nil string)
    as (plan & Hplan & Hperm & Hplaced).
  - intros a b c [_ Hab]%Hlt [_ Hbc]%Hlt. apply Hlt.
    assert (tc (edge_rel (nodes g)) a c) as Hac' by by eapply tc_trans.
    split; [by eapply acyclic_irrefl|done].
  - done.
  - done.
  - intros x Hx. split; [done|apply not_elem_of_nil].
  - intros p q Hp. by apply elem_of_nil in Hp.
  - exists plan. split; [|split].
    + intros depth fuel Hfuel. simpl in *. rewrite (Hrun depth fuel Hfuel). simpl.
      unfold dict_keys. by rewrite Hplan.
    + unfold dict_keys. by rewrite (same_shape_keys _ _ Hsh).
    + intros u v Huv. apply graph_edge_rel in Huv; [|done].
      apply Hplaced.
      * rewrite app_nil_r, <-(same_shape_keys _ _ Hsh).
        by apply (succs_closed _ u v Hwf).
      * apply Hlt. split; [|by apply tc_once].
        eapply acyclic_irrefl; [done|by apply tc_once].
      * rewrite Hperm, <-(same_shape_keys _ _ Hsh).
        by apply (succs_closed _ u v Hwf).
Qed.

(** ** The claims, for every graph *)

(** C1, as amended: on an acyclic graph [create_plan] returns a list in
    which, for every edge (u, v), the target v stands strictly before the
    source u: a node comes after everything it depends on. *)
Theorem create_plan_dependencies_first (g : DirectedGraph) (depth fuel : nat) :
  reachable g → acyclic g → traversal_bound g ≤ fuel →
  ∃ plan, (create_plan (S (S depth)) fuel g).2 = Ok plan
    ∧ ∀ u v, graph_edge g u v →
        ∃ i j, plan !! i = Some v ∧ plan !! j = Some u ∧ i < j.
Proof.
  intros Hr Hac Hfuel.
  destruct (create_plan_acyclic g Hr Hac) as (plan & Hrun & _ & Hbefore).
  exists plan. split; [by apply Hrun|].
  intros u v Huv. destruct (before_lookup plan v u (Hbefore u v Huv))
    as (i & j & Hij & Hi & Hj).
  by exists i, j.
Qed.

(** C5: on an acyclic graph [create_plan] returns a permutation of the
    graph's nodes: every node is in the plan, nothing else is, and no node
    is there twice. *)
Theorem create_plan_is_permutation (g : DirectedGraph) (depth fuel : nat) :
  reachable g → acyclic g → traversal_bound g ≤ fuel →
  ∃ plan, (create_plan (S (S depth)) fuel g).2 = Ok plan
    ∧ plan ≡ₚ dict_keys (nodes g)
    ∧ NoDup plan
    ∧ ∀ n, n ∈ plan ↔ is_Some (get_node g n).
Proof.
  intros Hr Hac Hfuel. destruct (reachable_inv g Hr) as (Hwf & _ & _).
  destruct (create_plan_acyclic g Hr Hac) as (plan & Hrun & Hperm & _).
  exists plan. split; [by apply Hrun|]. split; [done|]. split.
  - rewrite Hperm. apply Hwf.
  - intros n. rewrite Hperm. unfold get_node, dict_keys. split.
    + apply dict_get_is_Some.
    + intros [v Hv]. by eapply dict_get_Some_key.
Qed.

(** C7: whatever operations built the graph, its memo is marked as needing
    recomputation; [find_paths] does what the traversal without a memo
    does, and it prints and returns what [find_paths] prints and returns on
    the graph with the memo thrown away. *)
Theorem find_paths_never_stale (os : list (@op Data)) (depth fuel : nat) :
  let g := apply_ops DirectedGraph_init os in
  _cache_dirty g = true
  ∧ find_paths depth fuel g = recompute_paths depth fuel g
  ∧ ((find_paths depth fuel g).1.2, (find_paths depth fuel g).2)
    = fresh_traversal depth fuel g.
Proof.
  intros g.
  assert (reachable g) as Hr by apply reachable_apply_ops, reachable_init.
  destruct (reachable_inv g Hr) as (_ & _ & Hd). split; [done|].
  split; [by apply find_paths_recomputes|].
  unfold fresh_traversal, discard_memo.
  destruct (find_paths_memo_irrelevant depth fuel g [] Hd) as (_ & -> & ->).
  done.
Qed.

(** C8: once [add_edge a b] has succeeded, and whatever is done to the
    graph afterwards, both [add_edge a b] and [add_edge b a] raise
    DuplicateRelation. *)
Theorem duplicate_relation_either_direction (g g1 : DirectedGraph) (a b : string)
    (os : list op) :
  reachable g → add_edge g a b = (g1, Ok tt) →
  let g2 := apply_ops g1 os in
  add_edge g2 a b = (g2, Err DuplicateRelation)
  ∧ add_edge g2 b a = (g2, Err DuplicateRelation).
Proof.
  intros Hr Hadd g2.
  destruct (add_edge_related g g1 a b Hr Hadd) as [Hab Hrel].
  assert (reachable g1) as Hr1.
  { replace g1 with (apply_op g (Op_add_edge a b)); [by constructor|].
    simpl. by rewrite Hadd. }
  apply related_duplicate; [by apply reachable_apply_ops|done|].
  by apply related_apply_ops.
Qed.

(** C9: in a graph built by the operations, an edge between two nodes is in
    the incident-edge list of the one exactly when it is in the list of the
    other. *)
Theorem edges_recorded_symmetrically (g : DirectedGraph) (a b : string)
    (na nb : Node) (e : Edge) :
  reachable g →
  get_node g a = Some na → get_node g b = Some nb →
  (from_node e = a ∧ to_node e = b) ∨ (from_node e = b ∧ to_node e = a) →
  e ∈ edges na ↔ e ∈ edges nb.
Proof.
  intros Hr Ha Hb Hab. destruct (reachable_inv g Hr) as (Hwf & _ & _).
  unfold get_node in *. split; intros He.
  - destruct (wf_sym _ Hwf a na e Ha He) as (n1 & n2 & H1 & H2 & He1 & He2).
    destruct Hab as [[Hf Ht]|[Hf Ht]]; subst; by simplify_eq.
  - destruct (wf_sym _ Hwf b nb e Hb He) as (n1 & n2 & H1 & H2 & He1 & He2).
    destruct Hab as [[Hf Ht]|[Hf Ht]]; subst; by simplify_eq.
Qed.

(** C10: when [add_edge] raises, for a self-loop, an unknown name or a
    duplicate relation, the graph it leaves behind is the graph it was
    given. *)
Theorem add_edge_failure_atomic (g g' : DirectedGraph) (f t : string) (e : exn) :
  reachable g → add_edge g f t = (g', Err e) →
  g' = g ∧ (e = SelfLoop ∨ e = UnknownNode ∨ e = DuplicateRelation).
Proof.
  intros Hr Hadd. destruct (reachable_inv g Hr) as (Hwf & _ & _).
  destruct (add_edge_spec g f t Hwf)
    as [(e' & He' & Hcases)|(nf & nt & _ & _ & _ & _ & Hok)].
  - rewrite He' in Hadd. by simplify_eq.
  - rewrite Hok in Hadd. by simplify_eq.
Qed.

(** ** Further properties of edges and nodes *)


(** X2: [is_outgoing_edge] and [is_incoming_edge] raise exactly for a node that
    is no endpoint of the edge; for an endpoint of an edge between two
    different nodes exactly one of them is true. *)
Theorem edge_direction_queries (e : Edge) (node : string) :
  (is_outgoing_edge e node = Err InvalidRelation
   ↔ from_node e ≠ node ∧ to_node e ≠ node)
  ∧ (is_incoming_edge e node = Err InvalidRelation
     ↔ from_node e ≠ node ∧ to_node e ≠ node)
  ∧ (from_node e = node ∨ to_node e = node →
     from_node e ≠ to_node e →
     ∃ b, is_outgoing_edge e node = Ok b ∧ is_incoming_edge e node = Ok (negb b)).
Proof.
  unfold is_outgoing_edge, is_incoming_edge, connected_to_node.
  split; [|split].
  - repeat case_bool_decide; simpl; naive_solver.
  - repeat case_bool_decide; simpl; naive_solver.
  - intros Hend Hne. exists (bool_decide (from_node e = node)).
    repeat case_bool_decide; simpl; naive_solver.
Qed.

Lemma any_outgoing (l : list Edge) k :
  Forall (λ e, from_node e = k ∨ to_node e = k) l →
  any_result (λ e, is_outgoing_edge e k) l
  = Ok (bool_decide (Exists (λ e, from_node e = k) l)).
Proof.
  induction 1 as [|e l He _ IH]; simpl.
  - done.
  - unfold is_outgoing_edge at 1, connected_to_node.
    destruct (decide (from_node e = k)) as [Hfrom|Hfrom].
    + rewrite (bool_decide_eq_true_2 (from_node e = k)) by done. simpl.
      rewrite bool_decide_eq_true_2; [done|]. by apply Exists_cons_hd.
    + rewrite (bool_decide_eq_false_2 (from_node e = k)) by done.
      rewrite (bool_decide_eq_true_2 (to_node e = k)) by tauto. simpl.
      rewrite IH. f_equal. apply bool_decide_ext. rewrite Exists_cons. tauto.
Qed.

Lemma filter_nonempty_Exists (P : Edge → Prop) `{∀ e, Decision (P e)} (l : list Edge) :
  filter P l ≠ [] ↔ Exists P l.
Proof.
  induction l as [|e l IH].
  - split; [done|]. by intros ?%Exists_nil.
  - rewrite filter_cons, Exists_cons. case_decide; [naive_solver|].
    rewrite IH. naive_solver.
Qed.

Lemma filter_split_length (P : Edge → Prop) `{∀ e, Decision (P e)} (l : list Edge) :
  length (filter P l) + length (filter (λ e, ¬ P e) l) = length l.
Proof.
  induction l as [|e l IH]; [done|].
  rewrite !filter_cons. repeat case_decide; simpl; try tauto; lia.
Qed.

(** X3: In a graph built by the operations, [has_outgoing_edges] and
    [has_incoming_edges] never raise and say whether the lists
    [outgoing_edges] and [incoming_edges] are non-empty; the two lists split
    the incident edges of the node. *)
Theorem incident_edges_partition (g : DirectedGraph) (k : string) (n : Node) :
  reachable g → get_node g k = Some n →
  has_outgoing_edges n = Ok (bool_decide (outgoing_edges n ≠ []))
  ∧ has_incoming_edges n = Ok (bool_decide (incoming_edges n ≠ []))
  ∧ (∀ e, e ∈ edges n ↔ e ∈ outgoing_edges n ∨ e ∈ incoming_edges n)
  ∧ (∀ e, e ∈ outgoing_edges n → e ∉ incoming_edges n)
  ∧ length (edges n) = length (outgoing_edges n) + length (incoming_edges n).
Proof.
  intros Hr Hn. destruct (reachable_inv g Hr) as (Hwf & _ & _).
  unfold get_node in Hn.
  assert (Forall (λ e, from_node e = k ∨ to_node e = k) (edges n)) as Hends.
  { apply Forall_forall. intros e He. by apply (wf_ends _ Hwf k n e Hn). }
  assert (∀ e, e ∈ edges n → from_node e ≠ k → to_node e = k) as Hto.
  { intros e He Hne. destruct (wf_ends _ Hwf k n e Hn He) as [_ [?|?]]; done. }
  assert (∀ e, e ∈ edges n → to_node e = k → from_node e ≠ k) as Hfrom.
  { intros e He Heq Hf. destruct (wf_ends _ Hwf k n e Hn He) as [Hne _]. congruence. }
  rewrite (wf_out _ Hwf k n Hn), (wf_in _ Hwf k n Hn).
  unfold has_outgoing_edges, has_incoming_edges.
  rewrite (wf_name _ Hwf k n Hn), any_outgoing, any_incoming by done.
  split; [|split; [|split; [|split]]].
  - f_equal. apply bool_decide_ext. by rewrite filter_nonempty_Exists.
  - f_equal. apply bool_decide_ext. rewrite filter_nonempty_Exists.
    rewrite !Exists_exists. split; intros (e & He & H'); exists e; (split; [done|]); auto.
  - intros e. rewrite !list_elem_of_filter.
    destruct (decide (from_node e = k)); naive_solver.
  - intros e. rewrite !list_elem_of_filter. naive_solver.
  - by rewrite filter_split_length.
Qed.

(** *** Nodes stay *)

(** X4: [add_node] with an unused name stores the node at the end of the
    dictionary: [get_node] returns it under its name and answers for every
    other name as before. *)
Theorem add_node_get_node (g : DirectedGraph) (node : Node) :
  get_node g (name node) = None →
  ∃ g', add_node g node = (g', Ok tt)
    ∧ get_node g' (name node) = Some node
    ∧ (∀ k, k ≠ name node → get_node g' k = get_node g k)
    ∧ dict_keys (nodes g') = dict_keys (nodes g) ++ [name node].
Proof.
  unfold get_node, add_node. intros Hnone. rewrite Hnone.
  eexists. split; [done|]. simpl. split; [apply dict_get_set_eq|]. split.
  - intros k Hk. by apply dict_get_set_ne.
  - by apply dict_keys_set_None.
Qed.

Lemma extends_refl (n : Node) : extends n n.
Proof. by repeat split. Qed.

Lemma extends_trans (n1 n2 n3 : Node) : extends n1 n2 → extends n2 n3 → extends n1 n3.
Proof.
  intros (? & ? & ? & ?) (? & ? & ? & ?).
  split; [congruence|]. split; [congruence|].
  split; [by etrans|set_solver].
Qed.

Lemma while_stack_mono fuel st stk acc :
  deps_mono st (store_of (while_stack fuel st stk acc)).
Proof.
  revert st stk acc. induction fuel as [|fuel IH]; intros st stk acc.
  - destruct stk as [|[n p] stk]; simpl; apply deps_mono_refl.
  - destruct stk as [|[n p] stk]; [simpl; apply deps_mono_refl|].
    rewrite while_stack_cons. cbv zeta.
    pose proof (deps_mono_record st (p ++ [n]) n) as Hm.
    destruct (outgoing_of _ n) as [|e out];
      [eapply deps_mono_trans; [exact Hm|apply IH]|].
    destruct (push_children (e :: out) (p ++ [n]) stk);
      [eapply deps_mono_trans; [exact Hm|apply IH]|done].
Qed.

Lemma for_roots_mono fuel roots st acc :
  deps_mono st (store_of (for_roots fuel roots st acc)).
Proof.
  revert st acc. induction roots as [|r roots IH]; intros st acc; simpl.
  - apply deps_mono_refl.
  - pose proof (while_stack_mono fuel st [(r, [])] acc) as H.
    destruct (while_stack fuel st [(r, [])] acc) as [s1 p1|s1|s1]; simpl in *; try done.
    eapply deps_mono_trans; [exact H|apply IH].
Qed.

Lemma find_paths_mono depth fuel (g : DirectedGraph) :
  deps_mono (nodes g) (nodes (find_paths depth fuel g).1.1).
Proof.
  revert g. induction depth as [|depth IH]; intros g; simpl; [apply deps_mono_refl|].
  destruct (negb (_cache_dirty g)); simpl; [apply deps_mono_refl|].
  destruct (collect_roots (nodes g)) as [roots|e]; simpl; [|apply deps_mono_refl].
  pose proof (for_roots_mono fuel roots (nodes g) []) as Hm.
  destruct (for_roots fuel roots (nodes g) []) as [st' acc'|st'|st']; simpl in *;
    [done| |done].
  unfold dump_with. specialize (IH (with_nodes g st')).
  destruct (find_paths depth fuel (with_nodes g st')) as [[g' out] [ps|e]];
    simpl in *; by eapply deps_mono_trans.
Qed.

Lemma extends_of_shape st st' k (n : Node) :
  same_shape st st' → deps_mono st st' → dict_get k st = Some n →
  ∃ n', dict_get k st' = Some n' ∧ extends n n'.
Proof.
  intros Hsh Hm Hn. destruct (same_shape_get_Some _ _ k n Hsh Hn) as (n' & Hn' & Hs).
  exists n'. split; [done|]. unfold node_shape in Hs. simplify_eq.
  split; [done|]. split; [done|]. split; [by replace (edges n') with (edges n)|].
  intros m Hmem. specialize (Hm k m). unfold deps_of in Hm. rewrite Hn, Hn' in Hm. auto.
Qed.

Lemma extends_step (g : DirectedGraph) o k (n : Node) :
  reachable g → get_node g k = Some n →
  ∃ n', get_node (apply_op g o) k = Some n' ∧ extends n n'.
Proof.
  intros Hr Hn. destruct (reachable_inv g Hr) as (Hwf & Hs & _).
  unfold get_node in *.
  destruct o as [k' d|f t|k'|depth fuel|depth fuel|depth fuel]; simpl.
  - unfold add_node. simpl. destruct (dict_get k' (nodes g)) eqn:E; simpl.
    + exists n. split; [done|apply extends_refl].
    + exists n. split; [|apply extends_refl].
      rewrite dict_get_set_ne; [done|congruence].
  - destruct (add_edge_spec g f t Hwf)
      as [(e & -> & _)|(nf & nt & Hft & Hf & Ht & _ & ->)].
    + exists n. split; [done|apply extends_refl].
    + unfold with_nodes. simpl. rewrite attach_store_get by done. rewrite Hn. simpl.
      eexists. split; [done|]. case_decide; [|apply extends_refl].
      split; [done|]. split; [done|]. split; [|done].
      simpl. by apply prefix_app_r.
  - exists n. split; [done|apply extends_refl].
  - apply (extends_of_shape (nodes g));
      [by apply find_paths_sound|apply find_paths_mono|done].
  - destruct depth as [|depth]; simpl; [exists n; split; [done|apply extends_refl]|].
    pose proof (find_paths_sound depth fuel g Hs) as (Hsh & _).
    pose proof (find_paths_mono depth fuel g) as Hm.
    destruct (find_paths depth fuel g) as [[g' out] [ps|e]]; simpl in *;
      by apply (extends_of_shape (nodes g)).
  - destruct depth as [|depth]; simpl; [exists n; split; [done|apply extends_refl]|].
    unfold dump_with.
    pose proof (find_paths_sound depth fuel g Hs) as (Hsh & _).
    pose proof (find_paths_mono depth fuel g) as Hm.
    destruct (find_paths depth fuel g) as [[g' out] [ps|e]]; simpl in *;
      by apply (extends_of_shape (nodes g)).
Qed.

(** X6: A node that is in the graph stays, whatever is done to the graph
    afterwards: [get_node] keeps returning a node with the same name and
    payload, whose edge list starts with the edges it had and whose
    dependency set holds the dependencies it had. *)
Theorem node_persists (g : DirectedGraph) (os : list (@op Data)) (k : string) (n : Node) :
  reachable g → get_node g k = Some n →
  ∃ n', get_node (apply_ops g os) k = Some n' ∧ extends n n'.
Proof.
  revert g n. induction os as [|o os IH]; intros g n Hr Hn; simpl.
  - exists n. split; [done|apply extends_refl].
  - destruct (extends_step g o k n Hr Hn) as (n1 & Hn1 & Hext1).
    destruct (IH (apply_op g o) n1) as (n' & Hn' & Hext'); [by constructor|done|].
    exists n'. split; [done|by eapply extends_trans].
Qed.

Lemma keys_step (g : DirectedGraph) o k :
  reachable g →
  k ∈ dict_keys (nodes (apply_op g o))
  ↔ k ∈ dict_keys (nodes g) ∨ ∃ d, o = Op_add_node k d.
Proof.
  intros Hr. destruct (reachable_inv g Hr) as (Hwf & Hs & _). unfold dict_keys.
  destruct o as [k' d|f t|k'|depth fuel|depth fuel|depth fuel]; simpl.
  - unfold add_node. simpl. destruct (dict_get k' (nodes g)) eqn:E; simpl.
    + split; [by left|]. intros [?|(d' & [= -> ->])]; [done|].
      by eapply dict_get_Some_key.
    + rewrite dict_keys_set_None, elem_of_app, list_elem_of_singleton by done.
      naive_solver.
  - destruct (add_edge_spec g f t Hwf)
      as [(e & -> & _)|(nf & nt & Hft & Hf & Ht & _ & ->)]; [naive_solver|].
    simpl. rewrite attach_store_keys by done. naive_solver.
  - naive_solver.
  - destruct (find_paths_sound depth fuel g Hs) as (Hsh & _).
    rewrite <-(same_shape_keys _ _ Hsh). naive_solver.
  - destruct (create_plan_sound depth fuel g Hs) as (Hsh & _).
    rewrite <-(same_shape_keys _ _ Hsh). naive_solver.
  - destruct (dump_sound depth fuel g Hs) as (Hsh & _).
    rewrite <-(same_shape_keys _ _ Hsh). naive_solver.
Qed.

(** X5: The names [get_node] finds are exactly the names that [add_node] was
    called with; no operation removes or renames a node. *)
Theorem get_node_finds_added (os : list (@op Data)) (k : string) :
  is_Some (get_node (apply_ops DirectedGraph_init os) k)
  ↔ ∃ d, Op_add_node k d ∈ os.
Proof.
  assert (∀ (g : DirectedGraph), reachable g →
            k ∈ dict_keys (nodes (apply_ops g os))
            ↔ k ∈ dict_keys (nodes g) ∨ ∃ d, Op_add_node k d ∈ os) as Hgen.
  { induction os as [|o os IH]; intros g Hr; simpl.
    - split; [by left|]. intros [?|(d & Hd)]; [done|]. by apply elem_of_nil in Hd.
    - rewrite IH by by constructor. rewrite keys_step by done.
      split.
      + intros [[?|(d & ->)]|(d & Hd)]; [by left| |].
        * right. exists d. apply list_elem_of_here.
        * right. exists d. by apply list_elem_of_further.
      + intros [?|(d & Hd)]; [by left; left|].
        apply elem_of_cons in Hd as [<-|Hd]; [left; right; by exists d|].
        right. by exists d. }
  unfold get_node. split.
  - intros [n Hn]. apply dict_get_Some_key in Hn.
    apply (Hgen _ reachable_init) in Hn as [Hn|Hn]; [|done].
    simpl in Hn. by apply elem_of_nil in Hn.
  - intros Hd. apply dict_get_is_Some. apply (Hgen _ reachable_init). by right.
Qed.


(** *** What [add_edge] does *)

Lemma graph_edge_nodes (g : DirectedGraph) u v :
  wf_store (nodes g) → graph_edge g u v →
  u ≠ v ∧ is_Some (dict_get u (nodes g)) ∧ is_Some (dict_get v (nodes g)).
Proof.
  intros Hwf (n & Hn & He).
  destruct (wf_ends _ Hwf u n _ Hn He) as [Hne _].
  destruct (wf_sym _ Hwf u n _ Hn He) as (n1 & n2 & H1 & H2 & _). simpl in *.
  split; [done|]. split; eauto.
Qed.

Lemma has_edge_graph_edge (g : DirectedGraph) f t (nf : Node) :
  wf_store (nodes g) → dict_get f (nodes g) = Some nf →
  has_edge nf (mkEdge f t) = true ↔ graph_edge g f t ∨ graph_edge g t f.
Proof.
  intros Hwf Hf. unfold has_edge. rewrite has_edge_in_true. split.
  - intros (e & He & Heq). apply Edge_eq_spec in Heq. simpl in Heq.
    destruct Heq as [[Ha Hb]|[Ha Hb]].
    + left. exists nf. split; [done|]. destruct e; simpl in *. by subst.
    + right. destruct (wf_sym _ Hwf f nf e Hf He) as (n1 & n2 & H1 & _ & He1 & _).
      exists n1. rewrite <-Hb in H1. split; [done|]. destruct e; simpl in *. by subst.
  - intros [(n & Hn & He)|(n & Hn & He)].
    + exists (mkEdge f t). simplify_eq. split; [done|]. apply Edge_eq_spec. by left.
    + destruct (wf_sym _ Hwf t n _ Hn He) as (n1 & n2 & _ & H2 & _ & He2).
      simpl in *. simplify_eq. exists (mkEdge t f). split; [done|].
      apply Edge_eq_spec. by right.
Qed.

Lemma add_edge_result (g : DirectedGraph) f t :
  wf_store (nodes g) →
  (add_edge g f t).2 =
  if decide (f = t) then Err SelfLoop
  else match dict_get f (nodes g), dict_get t (nodes g) with
       | Some nf, Some _ =>
           if has_edge nf (mkEdge f t) then Err DuplicateRelation else Ok tt
       | _, _ => Err UnknownNode
       end.
Proof.
  intros Hwf. unfold add_edge. case_bool_decide as Hne.
  { by rewrite decide_True. }
  rewrite decide_False by done.
  destruct (dict_get f (nodes g)) as [nf|] eqn:Ef; [|done].
  destruct (dict_get t (nodes g)) as [nt|] eqn:Et; [|done].
  rewrite (wf_name _ Hwf f nf Ef), (wf_name _ Hwf t nt Et), !Node_add_edge_eq.
  destruct (has_edge nf (mkEdge f t)) eqn:Hf; [done|].
  by rewrite (has_edge_both _ f t nf nt Hwf Ef Et Hf).
Qed.

(** X7: The outcome of [add_edge] on a graph built by the operations: SelfLoop
    for equal names (checked first, known or not), else UnknownNode when a
    name is missing, else DuplicateRelation when the two nodes are joined by
    an edge in either direction, else success. *)
Theorem add_edge_outcome (g : DirectedGraph) (f t : string) :
  reachable g →
  ((add_edge g f t).2 = Err SelfLoop ↔ f = t)
  ∧ ((add_edge g f t).2 = Err UnknownNode
     ↔ f ≠ t ∧ (get_node g f = None ∨ get_node g t = None))
  ∧ ((add_edge g f t).2 = Err DuplicateRelation
     ↔ f ≠ t ∧ (graph_edge g f t ∨ graph_edge g t f))
  ∧ ((add_edge g f t).2 = Ok tt
     ↔ f ≠ t ∧ is_Some (get_node g f) ∧ is_Some (get_node g t)
       ∧ ¬ graph_edge g f t ∧ ¬ graph_edge g t f).
Proof.
  intros Hr. destruct (reachable_inv g Hr) as (Hwf & _ & _).
  pose proof (graph_edge_nodes g f t Hwf) as Hft.
  pose proof (graph_edge_nodes g t f Hwf) as Htf.
  rewrite (add_edge_result g f t Hwf). unfold get_node.
  destruct (decide (f = t)) as [->|Hne].
  { split_and!; split; try done; naive_solver. }
  destruct (dict_get f (nodes g)) as [nf|] eqn:Ef.
  2:{ split_and!; split; try done.
      - by intros _; split; [|left].
      - intros (_ & [H|H]); [destruct (Hft H) as (_ & [? ?] & _)|
                             destruct (Htf H) as (_ & _ & [? ?])]; done.
      - intros (_ & [? ?] & _). done. }
  destruct (dict_get t (nodes g)) as [nt|] eqn:Et.
  2:{ split_and!; split; try done.
      - by intros _; split; [|right].
      - intros (_ & [H|H]); [destruct (Hft H) as (_ & _ & [? ?])|
                             destruct (Htf H) as (_ & [? ?] & _)]; done.
      - intros (_ & _ & [? ?] & _). done. }
  pose proof (has_edge_graph_edge g f t nf Hwf Ef) as Hhas.
  destruct (has_edge nf (mkEdge f t)) eqn:Hf.
  - assert (graph_edge g f t ∨ graph_edge g t f) as Hrel by by apply Hhas.
    split_and!; split; try done.
    + intros (_ & [?|?]); done.
    + intros (_ & _ & _ & ? & ?). destruct Hrel; done.
  - assert (¬ (graph_edge g f t ∨ graph_edge g t f)) as Hrel.
    { intros H. apply Hhas in H. done. }
    split_and!; split; try done.
    + intros (_ & [?|?]); done.
    + intros (_ & H). done.
    + intros _. split_and!; eauto.
Qed.

(** X8: A successful [add_edge f t] appends the edge to the incident edges of
    both nodes, as outgoing at [f] and incoming at [t], and changes nothing
    else: the other nodes, all names, payloads and dependency sets, the
    order of the dictionary and the memo are as before. *)
Theorem add_edge_effect (g g' : DirectedGraph) (f t : string) :
  reachable g → add_edge g f t = (g', Ok tt) →
  graph_edge g' f t
  ∧ paths g' = paths g ∧ _cache_dirty g' = _cache_dirty g
  ∧ dict_keys (nodes g') = dict_keys (nodes g)
  ∧ ∀ k n, get_node g k = Some n →
      ∃ n', get_node g' k = Some n'
        ∧ name n' = name n ∧ data n' = data n ∧ _depends_on n' = _depends_on n
        ∧ edges n' = edges n ++ (if decide (k = f ∨ k = t) then [mkEdge f t] else [])
        ∧ outgoing_edges n'
          = outgoing_edges n ++ (if decide (k = f) then [mkEdge f t] else [])
        ∧ incoming_edges n'
          = incoming_edges n ++ (if decide (k = t) then [mkEdge f t] else []).
Proof.
  intros Hr Hadd. destruct (reachable_inv g Hr) as (Hwf & _ & _).
  destruct (add_edge_spec g f t Hwf)
    as [(e & He & _)|(nf & nt & Hft & Hf & Ht & _ & He)]; [congruence|].
  rewrite He in Hadd. simplify_eq. unfold get_node, graph_edge, with_nodes. simpl.
  split; [|split; [done|split; [done|split; [by apply attach_store_keys|]]]].
  - rewrite attach_store_get by done. rewrite Hf. simpl. eexists. split; [done|].
    rewrite decide_True by auto. simpl. apply elem_of_app. right. apply list_elem_of_here.
  - intros k n Hn. rewrite attach_store_get by done. rewrite Hn. simpl.
    eexists. split; [done|]. pose proof (wf_name _ Hwf k n Hn) as Hname.
    case_decide as Hk; simpl.
    + rewrite Hname. repeat split; try done.
      * case_bool_decide; case_decide; try done; by rewrite ?app_nil_r.
      * case_bool_decide; case_decide; try done; subst; naive_solver.
    + rewrite !decide_False by naive_solver. by rewrite !app_nil_r.
Qed.

(** *** One relation for each pair of nodes *)

Lemma has_edge_in_app l1 l2 e :
  has_edge_in (l1 ++ l2) e = has_edge_in l1 e || has_edge_in l2 e.
Proof. induction l1 as [|x l1 IH]; simpl; [done|]. by destruct (Edge_eq e x). Qed.

Lemma Edge_eq_sym a b : Edge_eq a b = Edge_eq b a.
Proof. apply eq_true_iff_eq. rewrite !Edge_eq_spec. naive_solver. Qed.

Lemma distinct_relations_snoc l e :
  distinct_relations l → has_edge_in l e = false → distinct_relations (l ++ [e]).
Proof.
  induction l as [|x l IH]; simpl; [done|].
  intros [Hx Hl] He. destruct (Edge_eq e x) eqn:Hex; [done|].
  split; [|by apply IH].
  rewrite has_edge_in_app, Hx. simpl. by rewrite Edge_eq_sym, Hex.
Qed.

Lemma distinct_relations_eq l e1 e2 :
  distinct_relations l → e1 ∈ l → e2 ∈ l → Edge_eq e1 e2 = true → e1 = e2.
Proof.
  induction l as [|x l IH]; simpl; [by intros _ ?%elem_of_nil|].
  intros [Hx Hl] H1 H2 Heq.
  apply elem_of_cons in H1 as [->|H1]; apply elem_of_cons in H2 as [->|H2].
  - done.
  - assert (has_edge_in l x = true); [|congruence]. apply has_edge_in_true. eauto.
  - assert (has_edge_in l x = true); [|congruence]. apply has_edge_in_true.
    exists e1. split; [done|]. by rewrite Edge_eq_sym.
  - by apply IH.
Qed.

Lemma distinct_relations_NoDup l : distinct_relations l → NoDup l.
Proof.
  induction l as [|x l IH]; simpl; [intros _; apply NoDup_nil_2|].
  intros [Hx Hl]. constructor; [|by apply IH].
  intros Hin. assert (has_edge_in l x = true); [|congruence].
  apply has_edge_in_true. exists x. split; [done|]. apply Edge_eq_spec. by left.
Qed.

Lemma same_shape_distinct st st' :
  same_shape st st' →
  (∀ k (n : Node), dict_get k st = Some n → distinct_relations (edges n)) →
  ∀ k (n : Node), dict_get k st' = Some n → distinct_relations (edges n).
Proof.
  intros Hsh H k n' Hn'.
  destruct (same_shape_get_Some _ _ k n' (same_shape_sym _ _ Hsh) Hn') as (n & Hn & Hs).
  unfold node_shape in Hs. simplify_eq. replace (edges n') with (edges n). eauto.
Qed.

Lemma reachable_distinct (g : DirectedGraph) :
  reachable g →
  ∀ k (n : Node), dict_get k (nodes g) = Some n → distinct_relations (edges n).
Proof.
  induction 1 as [|g o Hr IH]; [done|].
  destruct (reachable_inv g Hr) as (Hwf & Hs & _).
  destruct o as [k' d|f t|k'|depth fuel|depth fuel|depth fuel]; simpl.
  - unfold add_node. simpl. destruct (dict_get k' (nodes g)) eqn:E; simpl; [done|].
    intros k n. destruct (decide (k' = k)) as [->|Hne].
    + rewrite dict_get_set_eq. by intros [= <-].
    + rewrite dict_get_set_ne by done. apply IH.
  - destruct (add_edge_spec g f t Hwf)
      as [(e & -> & _)|(nf & nt & Hft & Hf & Ht & Hno & ->)]; [done|].
    simpl. intros k n. rewrite attach_store_get by done.
    intros (n0 & Hn0 & ->)%fmap_Some. case_decide as Hk; [|by eapply IH].
    simpl. apply distinct_relations_snoc; [by eapply IH|].
    destruct Hk as [->| ->]; simplify_eq; [done|].
    by apply (has_edge_both (nodes g) f t nf nt).
  - done.
  - eapply same_shape_distinct; [|exact IH]. by apply find_paths_sound.
  - eapply same_shape_distinct; [|exact IH]. by apply create_plan_sound.
  - eapply same_shape_distinct; [|exact IH]. by apply dump_sound.
Qed.

(** X9: A graph built by the operations holds at most one edge for each pair of
    nodes: no edge from a node to itself, never both [a -> b] and
    [b -> a], and no edge twice in a node's list. *)
Theorem one_relation_per_pair (g : DirectedGraph) :
  reachable g →
  (∀ a b, graph_edge g a b → a ≠ b ∧ ¬ graph_edge g b a)
  ∧ (∀ k n, get_node g k = Some n → NoDup (edges n)).
Proof.
  intros Hr. destruct (reachable_inv g Hr) as (Hwf & _ & _).
  pose proof (reachable_distinct g Hr) as Hdist. split.
  - intros a b Hab. destruct (graph_edge_nodes g a b Hwf Hab) as (Hne & _ & _).
    split; [done|]. intros (nb & Hnb & Hba). destruct Hab as (na & Hna & Hab).
    destruct (wf_sym _ Hwf b nb _ Hnb Hba) as (n1 & n2 & _ & H2 & _ & He2).
    simpl in *. simplify_eq.
    assert (mkEdge a b = mkEdge b a) as Heq; [|by simplify_eq].
    apply (distinct_relations_eq (edges na)); [by eapply Hdist|done|done|].
    apply Edge_eq_spec. by right.
  - intros k n Hn. apply distinct_relations_NoDup. by eapply Hdist.
Qed.


(** ** What the traversals leave behind *)

Lemma tc_graph_edge (g : DirectedGraph) u v :
  wf_store (nodes g) → tc (edge_rel (nodes g)) u v ↔ tc (graph_edge g) u v.
Proof.
  intros Hwf. split; induction 1 as [x y H|x y z H _ IH].
  - apply tc_once. by apply graph_edge_rel.
  - eapply tc_l; [|exact IH]. by apply graph_edge_rel.
  - apply tc_once. by apply graph_edge_rel.
  - eapply tc_l; [|exact IH]. by apply graph_edge_rel.
Qed.

(** X10: Whatever operations built the graph, and whether or not its traversals
    returned, a node that another node records as a dependency is a node of
    the graph that the other reaches along one or more edges. *)
Theorem dependencies_are_reachable (g : DirectedGraph) k (n : Node) m :
  reachable g → get_node g k = Some n → depends_on n m = true →
  tc (graph_edge g) k m ∧ is_Some (get_node g m).
Proof.
  intros Hr Hn Hm. destruct (reachable_inv g Hr) as (Hwf & Hs & _).
  apply bool_decide_eq_true in Hm.
  assert (tc (edge_rel (nodes g)) k m) as Htc.
  { apply Hs. unfold deps_of. unfold get_node in Hn. by rewrite Hn. }
  split; [by apply tc_graph_edge|].
  apply dict_get_is_Some. by apply (tc_closed _ k m Hwf).
Qed.

(** X11: [find_paths], [create_plan] and [dump] leave every node in place, under
    the same key and at the same position, with its name, payload and edge
    lists untouched; all they change in a node is its dependency set, and
    that only grows.  The graph stays marked for recomputation. *)
Theorem traversals_keep_structure (g g' : DirectedGraph) (depth fuel : nat) :
  reachable g →
  g' = (find_paths depth fuel g).1.1 ∨ g' = (create_plan depth fuel g).1.1
    ∨ g' = (dump depth fuel g).1.1 →
  dict_keys (nodes g') = dict_keys (nodes g)
  ∧ _cache_dirty g' = true
  ∧ ∀ k n, get_node g k = Some n →
      ∃ n', get_node g' k = Some n'
        ∧ name n' = name n ∧ data n' = data n ∧ edges n' = edges n
        ∧ outgoing_edges n' = outgoing_edges n
        ∧ incoming_edges n' = incoming_edges n
        ∧ _depends_on n ⊆ _depends_on n'.
Proof.
  intros Hr Hg'. destruct (reachable_inv g Hr) as (Hwf & Hs & Hd).
  assert (same_shape (nodes g) (nodes g') ∧ deps_mono (nodes g) (nodes g')
          ∧ _cache_dirty g' = _cache_dirty g) as (Hsh & Hm & Hd').
  { destruct Hg' as [->|[->| ->]].
    - split; [by apply find_paths_sound|].
      split; [apply find_paths_mono|by apply find_paths_sound].
    - split; [by apply create_plan_sound|]. split; [|by apply create_plan_sound].
      destruct depth as [|depth]; simpl; [apply deps_mono_refl|].
      pose proof (find_paths_mono depth fuel g) as Hm.
      by destruct (find_paths depth fuel g) as [[g1 out] [ps|e]].
    - split; [by apply dump_sound|]. split; [|by apply dump_sound].
      destruct depth as [|depth]; simpl; [apply deps_mono_refl|].
      unfold dump_with. pose proof (find_paths_mono depth fuel g) as Hm.
      by destruct (find_paths depth fuel g) as [[g1 out] [ps|e]]. }
  split; [unfold dict_keys; by rewrite (same_shape_keys _ _ Hsh)|].
  split; [congruence|].
  intros k n Hn. unfold get_node in *.
  destruct (same_shape_get_Some _ _ k n Hsh Hn) as (n' & Hn' & Hshape).
  exists n'. unfold node_shape in Hshape. simplify_eq.
  repeat (split; [done|]).
  intros m Hmem. specialize (Hm k m). unfold deps_of in Hm.
  rewrite Hn, Hn' in Hm. auto.
Qed.

(** ** Running the traversal again *)

Lemma add_dependency_present (n : Node) m :
  m ∈ _depends_on n → add_dependency n m = n.
Proof.
  intros Hm. destruct n as [nm d es oe ie deps]. unfold add_dependency. simpl in *.
  f_equal. apply subseteq_union_1_L. by apply singleton_subseteq_l.
Qed.

Lemma dict_alter_id {V} (f : V → V) k (d : list (string * V)) :
  (∀ v, dict_get k d = Some v → f v = v) → dict_alter f k d = d.
Proof.
  induction d as [|[k' v] d IH]; simpl; [done|]. intros Hf.
  destruct (decide (k' = k)) as [->|Hne].
  - by rewrite Hf.
  - by rewrite IH.
Qed.

Lemma record_dependencies_id st prevs cur :
  (∀ a, a ∈ prevs → a ≠ cur → a ∈ st.*1 → cur ∈ deps_of st a) →
  record_dependencies st prevs cur = st.
Proof.
  induction prevs as [|a prevs IH]; simpl; [done|]. intros H.
  case_bool_decide as Ha.
  - apply IH. intros b Hb. apply H. by apply list_elem_of_further.
  - rewrite dict_alter_id.
    + apply IH. intros b Hb. apply H. by apply list_elem_of_further.
    + intros v Hv. apply add_dependency_present.
      specialize (H a (list_elem_of_here _ _) Ha (dict_get_Some_key _ _ _ Hv)).
      unfold deps_of in H. by rewrite Hv in H.
Qed.

(** A run of the loop on a store that already holds all the dependencies
    the run records goes the same way and changes nothing. *)
Lemma while_stack_replay fuel st (B : list (string * Node)) stk acc :
  same_shape st B →
  deps_mono (store_of (while_stack fuel st stk acc)) B →
  while_stack fuel B stk acc
  = match while_stack fuel st stk acc with
    | Finished _ ps => Finished B ps
    | CycleFound _ => CycleFound B
    | Exhausted _ => Exhausted B
    end.
Proof.
  revert st stk acc. induction fuel as [|fuel IH]; intros st stk acc Hsh Hm.
  - by destruct stk as [|[n p] stk].
  - destruct stk as [|[n p] stk]; [done|].
    rewrite while_stack_cons in Hm. rewrite !while_stack_cons. cbv zeta in *.
    set (st1 := record_dependencies st (p ++ [n]) n) in *.
    assert (same_shape st1 B) as Hsh1.
    { eapply same_shape_trans; [|exact Hsh].
      apply same_shape_sym, same_shape_record_dependencies. }
    assert (deps_mono st1 B) as Hm1.
    { eapply deps_mono_trans; [|exact Hm].
      destruct (outgoing_of st1 n) as [|e out];
        [apply while_stack_mono|].
      destruct (push_children (e :: out) (p ++ [n]) stk);
        [apply while_stack_mono|apply deps_mono_refl]. }
    rewrite (record_dependencies_id B).
    2:{ intros a Ha Hne HaB. apply Hm1, deps_of_record. right.
        repeat (split; [done|]). by rewrite (same_shape_keys _ _ Hsh). }
    rewrite <-(same_shape_outgoing _ _ n Hsh1).
    destruct (outgoing_of st1 n) as [|e out]; [by apply IH|].
    destruct (push_children (e :: out) (p ++ [n]) stk); [by apply IH|done].
Qed.

Lemma for_roots_replay fuel roots st (B : list (string * Node)) acc st' ps :
  same_shape st B →
  for_roots fuel roots st acc = Finished st' ps → deps_mono st' B →
  for_roots fuel roots B acc = Finished B ps.
Proof.
  revert st acc. induction roots as [|r roots IH]; intros st acc Hsh Hrun Hm; simpl in *.
  - by simplify_eq.
  - pose proof (while_stack_replay fuel st B [(r, [])] acc Hsh) as Hre.
    pose proof (while_stack_same_shape fuel st [(r, [])] acc) as Hsh1.
    destruct (while_stack fuel st [(r, [])] acc) as [s1 p1|s1|s1]; [|done|done].
    simpl in *. rewrite Hre.
    + apply (IH s1); [|done|done].
      eapply same_shape_trans; [|exact Hsh]. by apply same_shape_sym.
    + eapply deps_mono_trans; [|exact Hm].
      pose proof (for_roots_mono fuel roots s1 p1) as H. by rewrite Hrun in H.
Qed.

Lemma find_paths_Ok depth fuel (g g1 : DirectedGraph) out ps :
  _cache_dirty g = true →
  find_paths depth fuel g = (g1, out, Ok ps) →
  ∃ roots, collect_roots (nodes g) = Ok roots
    ∧ for_roots fuel roots (nodes g) [] = Finished (nodes g1) ps
    ∧ paths g1 = ps ∧ _cache_dirty g1 = true ∧ out = [] ∧ depth ≠ 0.
Proof.
  intros Hd. destruct depth as [|depth]; simpl; [done|]. rewrite Hd. simpl.
  destruct (collect_roots (nodes g)) as [roots|e]; [|done].
  destruct (for_roots fuel roots (nodes g) []) as [st' acc'|st'|st'] eqn:Hfor.
  - intros [= <- <- <-]. by exists roots.
  - unfold dump_with.
    by destruct (find_paths depth fuel (with_nodes g st')) as [[g' o] [p|e]].
  - done.
Qed.

Lemma find_paths_again (g g1 : DirectedGraph) depth depth' fuel out ps :
  reachable g →
  find_paths depth fuel g = (g1, out, Ok ps) →
  find_paths (S depth') fuel g1 = (g1, [], Ok ps).
Proof.
  intros Hr Hrun. destruct (reachable_inv g Hr) as (Hwf & Hs & Hd).
  destruct (find_paths_Ok depth fuel g g1 out ps Hd Hrun)
    as (roots & Hroots & Hfor & Hp & Hd1 & _ & _).
  simpl. rewrite Hd1. simpl.
  pose proof (for_roots_same_shape fuel roots (nodes g) []) as Hsh.
  rewrite Hfor in Hsh. simpl in Hsh.
  rewrite <-(same_shape_collect_roots _ _ Hsh), Hroots.
  rewrite (for_roots_replay fuel roots (nodes g) (nodes g1) [] (nodes g1) ps);
    [|done|done|apply deps_mono_refl].
  destruct g1 as [ns1 ps1 d1]. simpl in *. by subst.
Qed.

(** X16: When [find_paths] returns, the paths it returns are stored in the
    graph, and calling it again, whatever the recursion budget, leaves the
    graph exactly as it is, prints nothing and returns the same paths in the
    same order. *)
Theorem find_paths_idempotent (g g1 : DirectedGraph) depth depth' fuel out ps :
  reachable g →
  find_paths depth fuel g = (g1, out, Ok ps) →
  paths g1 = ps
  ∧ find_paths (S depth') fuel g1 = (g1, [], Ok ps).
Proof.
  intros Hr Hrun. split.
  - destruct (reachable_inv g Hr) as (_ & _ & Hd).
    by destruct (find_paths_Ok depth fuel g g1 out ps Hd Hrun) as (_ & _ & _ & Hp & _).
  - by eapply find_paths_again.
Qed.

Lemma create_plan_S depth fuel (g : DirectedGraph) :
  create_plan (S depth) fuel g
  = match find_paths depth fuel g with
    | (g', out, Err e) => (g', out, Err e)
    | (g', out, Ok _) =>
        (g', out, plan_loop (nodes g') (dict_keys (nodes g')) (dict_keys (nodes g')) (-1))
    end.
Proof. done. Qed.

(** X21: When [create_plan] returns a plan, calling it again leaves the graph as
    it is and returns the same plan. *)
Theorem create_plan_idempotent (g g1 : DirectedGraph) depth depth' fuel out plan :
  reachable g →
  create_plan depth fuel g = (g1, out, Ok plan) →
  create_plan (S (S depth')) fuel g1 = (g1, [], Ok plan).
Proof.
  intros Hr. destruct depth as [|depth]; [done|]. rewrite !create_plan_S.
  destruct (find_paths depth fuel g) as [[g2 out2] [ps|e]] eqn:Hrun; [|done].
  intros [= <- <- Hplan].
  rewrite (find_paths_again g g2 depth depth' fuel out2 ps Hr Hrun).
  by rewrite Hplan.
Qed.

(** X18: [create_plan] fails exactly when the [find_paths] it calls fails, with
    the same exception; the reordering itself never raises, and what it
    yields holds every node of the graph exactly once, whether or not the
    graph is acyclic. *)
Theorem create_plan_follows_find_paths (g : DirectedGraph) (depth fuel : nat) :
  reachable g →
  (∀ e, (find_paths depth fuel g).2 = Err e →
        (create_plan (S depth) fuel g).2 = Err e)
  ∧ (∀ ps, (find_paths depth fuel g).2 = Ok ps →
       ∃ plan, (create_plan (S depth) fuel g).2 = Ok plan
         ∧ plan ≡ₚ dict_keys (nodes g) ∧ NoDup plan).
Proof.
  intros Hr. destruct (reachable_inv g Hr) as (Hwf & Hs & Hd).
  pose proof (find_paths_sound depth fuel g Hs) as (Hsh & _).
  simpl. destruct (find_paths depth fuel g) as [[g1 out] [ps|e]]; simpl in *.
  - split; [done|]. intros _ _.
    destruct (plan_loop_perm (nodes g1) (dict_keys (nodes g1)) (dict_keys (nodes g1))
                (-1)%Z) as (plan & Hplan & Hperm).
    exists plan. split; [done|].
    assert (plan ≡ₚ dict_keys (nodes g)) as Hp.
    { rewrite Hperm. unfold dict_keys. by rewrite (same_shape_keys _ _ Hsh). }
    split; [done|]. rewrite Hp. apply Hwf.
  - split; [by intros ? [= ->]|done].
Qed.

(** ** The paths of any graph, and the cycles the traversal meets *)

Section Walks.
Context (K : list string) (succ : string → list string).
Local Abbreviation follows := (follows succ).
Local Abbreviation agrees := (agrees K succ).
Local Abbreviation maxwalk := (maxwalk succ).
Local Abbreviation is_root := (is_root K succ).
Local Abbreviation frame_rooted := (frame_rooted K succ).
Local Abbreviation path_ok := (path_ok K succ).
Local Abbreviation cycle_below := (cycle_below succ).
Local Abbreviation clean := (clean succ).
Local Abbreviation frame_reached := (frame_reached succ).

Lemma while_stack_rooted fuel (st : list (string * Node)) stk acc st' ps :
  agrees st → Forall frame_rooted stk → Forall path_ok acc →
  while_stack fuel st stk acc = Finished st' ps → Forall path_ok ps.
Proof.
  revert st stk acc.
  induction fuel as [|fuel IH]; intros st stk acc Hag Hstk Hacc.
  - destruct stk as [|[n p] stk]; simpl; [|done]. by intros [= _ <-].
  - destruct stk as [|[n p] stk]; [simpl; by intros [= _ <-]|].
    rewrite while_stack_cons. cbv zeta.
    apply Forall_cons in Hstk as [(Hnd & r & Hroot & Hw) Hstk]. simpl in Hnd, Hw.
    set (st1 := record_dependencies st (p ++ [n]) n).
    assert (agrees st1) as Hag1.
    { eapply agrees_same_shape; [apply same_shape_record_dependencies|done]. }
    assert (to_node <$> outgoing_of st1 n = succ n) as Hout by apply Hag1.
    destruct (outgoing_of st1 n) as [|e out] eqn:Eout.
    { replace (match p ++ [n] with [] => acc | _ :: _ => acc ++ [p ++ [n]] end)
        with (acc ++ [p ++ [n]]) by by destruct p.
      apply IH; [done|done|]. apply Forall_app. split; [done|].
      constructor; [|constructor]. split; [done|]. exists r. split; [done|].
      apply Hw. by constructor. }
    destruct (push_children (e :: out) (p ++ [n]) stk) as [stk'|] eqn:Epush; [|done].
    destruct (push_children_inv _ _ _ _ Epush) as [-> Hfresh].
    rewrite Hout in *.
    apply IH; [done| |done].
    apply Forall_app. split; [|done]. apply Forall_fmap, Forall_forall.
    intros t Ht. rewrite elem_of_reverse in Ht. split; simpl.
    + apply NoDup_app. split; [done|]. split; [|apply NoDup_singleton].
      intros x Hx Hx'. apply list_elem_of_singleton in Hx' as ->.
      rewrite <-Hout in Ht. apply list_elem_of_fmap in Ht as (e' & -> & He').
      by apply (Hfresh e').
    + exists r. split; [done|]. intros w Hwt. rewrite <-app_assoc. simpl.
      apply Hw. by apply maxwalk_step with t.
Qed.

Lemma for_roots_rooted fuel roots (st : list (string * Node)) acc st' ps :
  agrees st → (∀ r, r ∈ roots → is_root r) → Forall path_ok acc →
  for_roots fuel roots st acc = Finished st' ps → Forall path_ok ps.
Proof.
  revert st acc. induction roots as [|r roots IH]; intros st acc Hag Hroots Hacc; simpl.
  - by intros [= _ <-].
  - pose proof (while_stack_same_shape fuel st [(r, [])] acc) as Hsh.
    pose proof (while_stack_rooted fuel st [(r, [])] acc) as Hrun.
    destruct (while_stack fuel st [(r, [])] acc) as [s1 p1|s1|s1]; [|done|done].
    simpl in Hsh. apply IH.
    + by eapply agrees_same_shape.
    + intros r' Hr'. by apply Hroots, list_elem_of_further.
    + eapply Hrun; [done| |done|done].
      constructor; [|constructor]. split; simpl; [apply NoDup_singleton|].
      exists r. split; [apply Hroots, list_elem_of_here|done].
Qed.

Lemma push_children_None (out : list Edge) cp stk :
  push_children out cp stk = None → ∃ e, e ∈ out ∧ to_node e ∈ cp.
Proof.
  revert stk. induction out as [|e out IH]; intros stk; simpl; [done|].
  case_bool_decide as He.
  - intros _. exists e. split; [apply list_elem_of_here|done].
  - intros (e' & He' & Hin)%IH. exists e'. split; [by apply list_elem_of_further|done].
Qed.

(** A traversal that stops at a cycle has reached, from one of its roots, a
    node that lies on a cycle. *)
Lemma while_stack_cycle fuel roots (st : list (string * Node)) stk acc st' :
  agrees st → Forall (frame_reached roots) stk →
  while_stack fuel st stk acc = CycleFound st' →
  ∃ r, r ∈ roots ∧ cycle_below r.
Proof.
  revert st stk acc.
  induction fuel as [|fuel IH]; intros st stk acc Hag Hstk.
  - by destruct stk as [|[n p] stk].
  - destruct stk as [|[n p] stk]; [done|].
    rewrite while_stack_cons. cbv zeta.
    apply Forall_cons in Hstk as [((r & Hr & Hrn) & Hp) Hstk]. simpl in Hrn, Hp.
    set (st1 := record_dependencies st (p ++ [n]) n).
    assert (agrees st1) as Hag1.
    { eapply agrees_same_shape; [apply same_shape_record_dependencies|done]. }
    assert (to_node <$> outgoing_of st1 n = succ n) as Hout by apply Hag1.
    destruct (outgoing_of st1 n) as [|e out] eqn:Eout; [by apply IH|].
    destruct (push_children (e :: out) (p ++ [n]) stk) as [stk'|] eqn:Epush.
    + destruct (push_children_inv _ _ _ _ Epush) as [-> Hfresh].
      rewrite Hout in *. apply IH; [done|].
      apply Forall_app. split; [|done]. apply Forall_fmap, Forall_forall.
      intros t Ht. rewrite elem_of_reverse in Ht. split; simpl.
      * exists r. split; [done|]. eapply rtc_r; [exact Hrn|exact Ht].
      * intros a [Ha|Ha%list_elem_of_singleton]%elem_of_app.
        -- eapply tc_r; [by apply Hp|exact Ht].
        -- subst. by apply tc_once.
    + intros _. apply push_children_None in Epush as (e' & He' & Hin).
      assert (follows n (to_node e')) as Hstep.
      { unfold follows. rewrite <-Hout.
        by apply list_elem_of_fmap_2. }
      exists r. split; [done|]. exists n. split; [done|].
      apply elem_of_app in Hin as [Hin|Hin%list_elem_of_singleton].
      * eapply tc_l; [exact Hstep|]. by apply Hp.
      * apply tc_once. by rewrite Hin in Hstep.
Qed.

Lemma for_roots_cycle fuel roots todo (st : list (string * Node)) acc st' :
  agrees st → todo ⊆ roots →
  for_roots fuel todo st acc = CycleFound st' →
  ∃ r, r ∈ roots ∧ cycle_below r.
Proof.
  revert st acc. induction todo as [|r todo IH]; intros st acc Hag Hsub; simpl; [done|].
  pose proof (while_stack_same_shape fuel st [(r, [])] acc) as Hsh.
  pose proof (while_stack_cycle fuel roots st [(r, [])] acc) as Hcyc.
  destruct (while_stack fuel st [(r, [])] acc) as [s1 p1|s1|s1]; [| |done].
  - simpl in Hsh. apply IH; [by eapply agrees_same_shape|set_solver].
  - intros _. eapply Hcyc; [done| |done].
    constructor; [|constructor]. split; simpl.
    + exists r. split; [set_solver|done].
    + intros a Ha. by apply elem_of_nil in Ha.
Qed.

(** A traversal that runs to its end has met no node again on any walk it
    continued. *)
Lemma while_stack_clean fuel (st : list (string * Node)) stk acc st' ps :
  agrees st → while_stack fuel st stk acc = Finished st' ps →
  Forall (λ fr, clean fr.1 fr.2) stk.
Proof.
  revert st stk acc.
  induction fuel as [|fuel IH]; intros st stk acc Hag.
  - by destruct stk as [|[n p] stk].
  - destruct stk as [|[n p] stk]; [done|].
    rewrite while_stack_cons. cbv zeta.
    set (st1 := record_dependencies st (p ++ [n]) n).
    assert (agrees st1) as Hag1.
    { eapply agrees_same_shape; [apply same_shape_record_dependencies|done]. }
    assert (to_node <$> outgoing_of st1 n = succ n) as Hout by apply Hag1.
    destruct (outgoing_of st1 n) as [|e out] eqn:Eout.
    { intros Hrun. constructor; [|by eapply IH]. simpl.
      constructor; intros t Ht; unfold follows in Ht;
        rewrite <-Hout in Ht; by apply elem_of_nil in Ht. }
    destruct (push_children (e :: out) (p ++ [n]) stk) as [stk'|] eqn:Epush; [|done].
    destruct (push_children_inv _ _ _ _ Epush) as [-> Hfresh].
    rewrite Hout in *. intros Hrun.
    apply (IH _ _ _ Hag1), Forall_app in Hrun as [Hchildren Hrest].
    constructor; [|done]. simpl. constructor; intros t Ht.
    + unfold follows in Ht. rewrite <-Hout in Ht.
      apply list_elem_of_fmap in Ht as (e' & -> & He'). by apply Hfresh.
    + rewrite Forall_fmap, Forall_forall in Hchildren.
      apply (Hchildren t). by apply elem_of_reverse.
Qed.

Lemma for_roots_clean fuel roots (st : list (string * Node)) acc st' ps :
  agrees st → for_roots fuel roots st acc = Finished st' ps →
  ∀ r, r ∈ roots → clean r [].
Proof.
  revert st acc. induction roots as [|r roots IH]; intros st acc Hag; simpl.
  - intros _ r Hr. by apply elem_of_nil in Hr.
  - pose proof (while_stack_same_shape fuel st [(r, [])] acc) as Hsh.
    pose proof (while_stack_clean fuel st [(r, [])] acc) as Hcl.
    destruct (while_stack fuel st [(r, [])] acc) as [s1 p1|s1|s1]; [|done|done].
    simpl in Hsh. intros Hrun r' [->|Hr']%elem_of_cons.
    + specialize (Hcl s1 p1 Hag eq_refl). by apply Forall_cons in Hcl as [? _].
    + eapply IH; [|done|done]. by eapply agrees_same_shape.
Qed.

Lemma clean_no_cycle n p : clean n p → ¬ cycle_below n.
Proof.
  induction 1 as [n p _ _ IH]. intros (x & Hnx & Hx).
  assert (∀ t, follows n t → ∀ y, rtc follows t y → ¬ tc follows y y) as Hbelow.
  { intros t Ht y Hy Hcyc. apply (IH t Ht). by exists y. }
  apply rtc_inv in Hnx as [->|(t & Ht & Htx)].
  - apply tc_inv_l in Hx as Hx'. destruct Hx' as (t & Ht & Htx).
    by apply (Hbelow t Ht x Htx).
  - by apply (Hbelow t Ht x Htx).
Qed.

End Walks.

Lemma collect_roots_is_root st :
  wf_store st →
  ∃ roots, collect_roots st = Ok roots
    ∧ ∀ r, r ∈ roots ↔ is_root st.*1 (succs st) r.
Proof.
  intros Hwf. eexists. split; [by apply collect_roots_wf|].
  intros r. rewrite list_elem_of_filter. unfold is_root, follows. split.
  - intros [Hno Hr]. split; [done|]. intros u Hu. apply Hno, Exists_exists.
    exists u. split; [|done]. by apply (succs_closed _ u r Hwf).
  - intros [Hr Hno]. split; [|done]. intros (u & _ & Hu)%Exists_exists.
    by apply (Hno u).
Qed.

Lemma graph_root_is_root (g : DirectedGraph) r :
  wf_store (nodes g) →
  graph_root g r ↔ is_root (nodes g).*1 (succs (nodes g)) r.
Proof.
  intros Hwf. unfold graph_root, is_root, follows, get_node. split.
  - intros [[n Hn] Hno]. split; [by eapply dict_get_Some_key|].
    intros u Hu. apply (Hno u). by apply graph_edge_rel.
  - intros [Hr Hno]. split; [by apply dict_get_is_Some|].
    intros u Hu. apply (Hno u). by apply graph_edge_rel in Hu.
Qed.

Lemma rtc_graph_edge (g : DirectedGraph) u v :
  wf_store (nodes g) → rtc (edge_rel (nodes g)) u v ↔ rtc (graph_edge g) u v.
Proof.
  intros Hwf. split; induction 1 as [|x y z H _ IH]; try apply rtc_refl.
  - eapply rtc_l; [|exact IH]. by apply graph_edge_rel.
  - eapply rtc_l; [|exact IH]. by apply graph_edge_rel.
Qed.

Lemma reaches_cycle_below (g : DirectedGraph) r :
  wf_store (nodes g) → reaches_cycle g r ↔ cycle_below (succs (nodes g)) r.
Proof.
  intros Hwf. unfold reaches_cycle, cycle_below. split; intros (x & Hrx & Hx); exists x.
  - split; [by apply (rtc_graph_edge g)|by apply (tc_graph_edge g)].
  - split; [by apply (rtc_graph_edge g)|by apply (tc_graph_edge g)].
Qed.

(** X14: Whenever [find_paths] returns, on any graph, each path it returns
    starts at a node without incoming edges, follows edges, ends at a node
    without outgoing edges, and passes no node twice. *)
Theorem find_paths_returns_maximal_paths (g : DirectedGraph) depth fuel ps :
  reachable g → (find_paths depth fuel g).2 = Ok ps →
  ∀ q, q ∈ ps → NoDup q ∧ maximal_path g q.
Proof.
  intros Hr Hrun. destruct (reachable_inv g Hr) as (Hwf & _ & Hd).
  destruct (find_paths depth fuel g) as [[g1 out] res] eqn:E. simpl in Hrun. subst res.
  destruct (find_paths_Ok depth fuel g g1 out ps Hd E) as (roots & Hroots & Hfor & _).
  destruct (collect_roots_is_root (nodes g) Hwf) as (roots' & Hroots' & Hspec).
  assert (roots' = roots) as -> by congruence.
  assert (Forall (path_ok (nodes g).*1 (succs (nodes g))) ps) as Hps.
  { eapply for_roots_rooted; [| |constructor|exact Hfor]; [by split|].
    intros r. apply Hspec. }
  rewrite Forall_forall in Hps. intros q Hq. destruct (Hps q Hq) as [Hnd Hmax].
  by split.
Qed.

(** X13: With enough fuel for its loops [find_paths] returns exactly when no
    node without incoming edges leads to a cycle.  When one does, the call
    ends in the interpreter's recursion error, however deep the recursion
    may go, and nothing is printed. *)
Theorem find_paths_returns_iff (g : DirectedGraph) (depth fuel : nat) :
  reachable g → traversal_bound g ≤ fuel →
  ((∃ ps, (find_paths (S depth) fuel g).2 = Ok ps)
     ↔ ∀ r, graph_root g r → ¬ reaches_cycle g r)
  ∧ ((find_paths (S depth) fuel g).2 = Err RecursionError
     ↔ ∃ r, graph_root g r ∧ reaches_cycle g r)
  ∧ (find_paths (S depth) fuel g).1.2 = [].
Proof.
  intros Hr Hfuel. destruct (reachable_inv g Hr) as (Hwf & Hs & Hd).
  destruct (collect_roots_is_root (nodes g) Hwf) as (roots & Hroots & Hspec).
  assert (agrees (nodes g).*1 (succs (nodes g)) (nodes g)) as Hag by by split.
  assert (∀ st', for_roots fuel roots (nodes g) [] ≠ Exhausted st') as Hterm.
  { apply (for_roots_terminates (nodes g).*1 (succs (nodes g)) (max_out (nodes g))).
    - intros u v Huv. by apply (succs_closed _ u v Hwf).
    - apply succs_length_max.
    - done.
    - intros r Hr'. by apply Hspec in Hr' as [? _].
    - by rewrite length_fmap. }
  destruct (for_roots fuel roots (nodes g) []) as [st' ps|st'|st'] eqn:Hfor.
  - assert (∀ r, graph_root g r → ¬ reaches_cycle g r) as Hclean.
    { intros r Hroot%graph_root_is_root Hcyc%reaches_cycle_below; [|done|done].
      apply Hspec in Hroot.
      pose proof (for_roots_clean (nodes g).*1 (succs (nodes g)) fuel roots (nodes g) []
                    st' ps Hag Hfor r Hroot) as Hcl.
      by apply clean_no_cycle in Hcl. }
    simpl. rewrite Hd, Hroots, Hfor. simpl.
    split; [split; [done|by eexists]|]. split; [|done].
    split; [done|]. intros (r & Hroot & Hcyc). by destruct (Hclean r).
  - destruct (for_roots_cycle (nodes g).*1 (succs (nodes g)) fuel roots roots (nodes g) []
                st' Hag) as (r & Hroot & Hcyc); [done|done|].
    apply Hspec, graph_root_is_root in Hroot; [|done].
    apply reaches_cycle_below in Hcyc; [|done].
    destruct (cycle_recursion (S depth) fuel g roots st' Hd Hroots Hfor) as [Hout Hres].
    rewrite Hres. split; [|split; [|done]].
    + split; [by intros [? ?]|]. intros Hclean. by destruct (Hclean r).
    + split; [|done]. intros _. by exists r.
  - by destruct (Hterm st').
Qed.

(** ** The order of the nodes *)

Lemma Node_gt_lt (na nb : Node) : Node_gt nb na = Node_lt na nb.
Proof.
  unfold Node_gt, Node_lt, is_dependency_for.
  case_bool_decide as H1; case_bool_decide as H2; congruence.
Qed.

(** After [find_paths] on an acyclic graph, [<] on the nodes is
    reachability. *)
Lemma less_closure (g : DirectedGraph) st' :
  wf_store (nodes g) → acyclic g → same_shape (nodes g) st' →
  (∀ x y, y ∈ deps_of st' x ↔ tc (edge_rel (nodes g)) x y) →
  ∀ a b, less st' a b ↔ tc (edge_rel (nodes g)) a b.
Proof.
  intros Hwf Hac Hsh Hdeps a b.
  pose proof (same_shape_wf _ _ Hsh Hwf) as Hwf'.
  unfold less, ref_lt, Node_lt, depends_on. rewrite <-Hdeps.
  unfold deps_of. split.
  - destruct (dict_get a st') as [na|] eqn:Ea; [|done].
    destruct (dict_get b st') as [nb|] eqn:Eb; [|done].
    rewrite (wf_name _ Hwf' a na Ea), (wf_name _ Hwf' b nb Eb).
    case_bool_decide; [done|]. by rewrite bool_decide_eq_true.
  - intros Hb.
    assert (tc (edge_rel (nodes g)) a b) as Hab.
    { apply Hdeps. unfold deps_of. exact Hb. }
    assert (is_Some (dict_get b st')) as [nb Eb].
    { apply dict_get_is_Some. rewrite <-(same_shape_keys _ _ Hsh).
      by apply (tc_closed _ a b Hwf). }
    destruct (dict_get a st') as [na|] eqn:Ea; [|set_solver].
    rewrite Eb, (wf_name _ Hwf' a na Ea), (wf_name _ Hwf' b nb Eb).
    rewrite bool_decide_eq_false_2 by by eapply acyclic_irrefl.
    by rewrite bool_decide_eq_true.
Qed.

(** X17: Once [find_paths] has run on an acyclic graph, [a < b] on two of its
    nodes says that [b] can be reached from [a] along edges; so [<] is a
    strict partial order on the nodes, and [>] is its converse. *)
Theorem Node_lt_is_reachability (g : DirectedGraph) (depth fuel : nat)
    a b c (na nb nc : Node) :
  reachable g → acyclic g → traversal_bound g ≤ fuel →
  let g' := (find_paths (S depth) fuel g).1.1 in
  get_node g' a = Some na → get_node g' b = Some nb → get_node g' c = Some nc →
  (Node_lt na nb = true ↔ tc (graph_edge g) a b)
  ∧ Node_gt nb na = Node_lt na nb
  ∧ Node_lt na na = false
  ∧ (Node_lt na nb = true → Node_lt nb na = false)
  ∧ (Node_lt na nb = true → Node_lt nb nc = true → Node_lt na nc = true).
Proof.
  intros Hr Hac Hfuel. destruct (reachable_inv g Hr) as (Hwf & _ & _).
  destruct (find_paths_closure g Hr Hac) as (st' & ps & Hrun & Hsh & Hdeps & _).
  rewrite (Hrun depth fuel Hfuel). simpl. unfold get_node. simpl.
  intros Ha Hb Hc.
  pose proof (less_closure g st' Hwf Hac Hsh Hdeps) as Hlt.
  unfold less, ref_lt in Hlt.
  assert (Node_lt na nb = true ↔ tc (edge_rel (nodes g)) a b) as Hab.
  { rewrite <-Hlt. by rewrite Ha, Hb. }
  assert (Node_lt nb na = true ↔ tc (edge_rel (nodes g)) b a) as Hba.
  { rewrite <-Hlt. by rewrite Ha, Hb. }
  assert (Node_lt nb nc = true ↔ tc (edge_rel (nodes g)) b c) as Hbc.
  { rewrite <-Hlt. by rewrite Hb, Hc. }
  assert (Node_lt na nc = true ↔ tc (edge_rel (nodes g)) a c) as Hac'.
  { rewrite <-Hlt. by rewrite Ha, Hc. }
  split; [by rewrite Hab, (tc_graph_edge g)|].
  split; [apply Node_gt_lt|].
  split; [unfold Node_lt; by rewrite bool_decide_eq_true_2|].
  split.
  - intros H1%Hab. destruct (Node_lt nb na) eqn:E; [|done].
    exfalso. apply (Hac a). eapply tc_trans; [exact H1|]. by apply Hba.
  - intros H1%Hab H2%Hbc. apply Hac'. by eapply tc_trans.
Qed.

(** ** Plans *)

Lemma lookup_before (l : list string) i j a b :
  i < j → l !! i = Some a → l !! j = Some b → before l a b.
Proof.
  intros Hij Ha Hb. apply before_split.
  exists (take i l), (drop (S i) l). split; [by rewrite take_drop_middle|].
  apply list_elem_of_lookup. exists (j - S i). rewrite lookup_drop.
  by replace (S i + (j - S i)) with j by lia.
Qed.

Lemma before_trans (l : list string) a b c :
  NoDup l → before l a b → before l b c → before l a c.
Proof.
  intros Hnd (i & j & Hij & Hi & Hj)%before_lookup (j' & k & Hjk & Hj' & Hk)%before_lookup.
  assert (j = j') as <- by by eapply NoDup_lookup.
  apply (lookup_before l i k); [lia|done|done].
Qed.

Lemma before_irrefl (l : list string) a : NoDup l → ¬ before l a a.
Proof.
  intros Hnd (i & j & Hij & Hi & Hj)%before_lookup.
  assert (i = j) by by eapply NoDup_lookup. lia.
Qed.

Lemma before_tc (g : DirectedGraph) :
  wf_store (nodes g) →
  (∀ u v, graph_edge g u v → before (dict_keys (nodes g)) v u) →
  ∀ u v, tc (edge_rel (nodes g)) u v → before (dict_keys (nodes g)) v u.
Proof.
  intros Hwf Hedge u v. induction 1 as [x y H|x y z H _ IH].
  - by apply Hedge, graph_edge_rel.
  - eapply before_trans; [apply Hwf|exact IH|]. by apply Hedge, graph_edge_rel.
Qed.

(** A list in which every node of [todo] already stands behind all the
    nodes it depends on is left as it is. *)
Lemma plan_loop_stable st todo (l : list string) idx :
  NoDup l → (∀ x, x ∈ todo → x ∈ l) →
  (∀ x q i j, x ∈ todo → l !! i = Some x → l !! j = Some q → less st x q → j < i) →
  plan_loop st todo l idx = Ok l.
Proof.
  intros Hnd. revert idx. induction todo as [|x todo IH]; intros idx Hin Hord; simpl; [done|].
  destruct (scan st x l 0 idx 0) as [idx' h] eqn:Es.
  assert (x ∈ l) as Hx by apply Hin, list_elem_of_here.
  apply list_elem_of_lookup in Hx as [i Hi].
  pose proof (scan_index st x l 0 idx 0 i Hnd Hi) as Hidx.
  pose proof (scan_highest st x l 0 idx 0) as (_ & _ & Hh).
  rewrite Es in Hidx, Hh. simpl in Hidx, Hh. subst idx'.
  assert (plan_loop st todo l (Z.of_nat i) = Ok l) as Hrest.
  { apply IH.
    - intros y Hy. by apply Hin, list_elem_of_further.
    - intros y q i' j' Hy. apply Hord. by apply list_elem_of_further. }
  case_decide as Hmove; [|done].
  destruct Hh as [->|(j & q & Hj & Hq & ->)].
  - assert (i = 0) as -> by lia.
    destruct l as [|y l']; [done|]. simpl in Hi. simplify_eq.
    unfold list_insert_at. simpl. rewrite drop_0.
    by rewrite bool_decide_eq_true_2.
  - exfalso.
    assert (j < i) by (eapply (Hord x q); [apply list_elem_of_here|done|done|done]).
    lia.
Qed.

(** [create_plan] on an acyclic graph, with the order it gives to every
    pair of nodes that are connected by a path. *)
Lemma create_plan_closure (g : DirectedGraph) :
  reachable g → acyclic g →
  ∃ plan,
    (∀ depth fuel, traversal_bound g ≤ fuel →
       (create_plan (S (S depth)) fuel g).2 = Ok plan)
    ∧ plan ≡ₚ dict_keys (nodes g)
    ∧ ∀ u v, tc (edge_rel (nodes g)) u v → before plan v u.
Proof.
  intros Hr Hac. destruct (reachable_inv g Hr) as (Hwf & Hs & Hd).
  destruct (find_paths_closure g Hr Hac) as (st' & ps & Hrun & Hsh & Hdeps & _).
  pose proof (less_closure g st' Hwf Hac Hsh Hdeps) as Hlt.
  assert (NoDup st'.*1) as Hnd.
  { rewrite <-(same_shape_keys _ _ Hsh). apply Hwf. }
  destruct (plan_loop_placed st') with
    (todo := st'.*1) (l := st'.*1) (idx := (-1)%Z) (done := @nil string)
    as (plan & Hplan & Hperm & Hplaced).
  - intros a b c Hab%Hlt Hbc%Hlt. apply Hlt. by eapply tc_trans.
  - done.
  - done.
  - intros x Hx. split; [done|apply not_elem_of_nil].
  - intros p q Hp. by apply elem_of_nil in Hp.
  - exists plan. split; [|split].
    + intros depth fuel Hfuel. rewrite create_plan_S, (Hrun depth fuel Hfuel). simpl.
      unfold dict_keys. by rewrite Hplan.
    + unfold dict_keys. by rewrite (same_shape_keys _ _ Hsh).
    + intros u v Huv. destruct (tc_closed _ u v Hwf Huv) as [Hu Hv].
      apply Hplaced.
      * by rewrite app_nil_r, <-(same_shape_keys _ _ Hsh).
      * by apply Hlt.
      * by rewrite Hperm, <-(same_shape_keys _ _ Hsh).
Qed.

(** X19: On an acyclic graph the plan puts a node behind every node it can reach
    along edges, not only behind the targets of its own edges. *)
Theorem create_plan_respects_paths (g : DirectedGraph) (depth fuel : nat) :
  reachable g → acyclic g → traversal_bound g ≤ fuel →
  ∃ plan, (create_plan (S (S depth)) fuel g).2 = Ok plan
    ∧ ∀ u v, tc (graph_edge g) u v →
        ∃ i j, plan !! i = Some v ∧ plan !! j = Some u ∧ i < j.
Proof.
  intros Hr Hac Hfuel. destruct (reachable_inv g Hr) as (Hwf & _ & _).
  destruct (create_plan_closure g Hr Hac) as (plan & Hrun & _ & Hbefore).
  exists plan. split; [by apply Hrun|].
  intros u v Huv%tc_graph_edge; [|done].
  destruct (before_lookup plan v u (Hbefore u v Huv)) as (i & j & Hij & Hi & Hj).
  by exists i, j.
Qed.

(** X20: When the nodes were added in an order in which the target of every edge
    comes before its source, [create_plan] returns them in the order they
    were added; so it does for a graph without edges. *)
Theorem create_plan_keeps_valid_order (g : DirectedGraph) (depth fuel : nat) :
  reachable g →
  (∀ u v, graph_edge g u v → before (dict_keys (nodes g)) v u) →
  traversal_bound g ≤ fuel →
  (create_plan (S (S depth)) fuel g).2 = Ok (dict_keys (nodes g)).
Proof.
  intros Hr Hord Hfuel. destruct (reachable_inv g Hr) as (Hwf & _ & _).
  pose proof (before_tc g Hwf Hord) as Htc.
  assert (acyclic g) as Hac.
  { intros n Hn. apply (before_irrefl (dict_keys (nodes g)) n); [apply Hwf|by apply Htc]. }
  destruct (find_paths_closure g Hr Hac) as (st' & ps & Hrun & Hsh & Hdeps & _).
  pose proof (less_closure g st' Hwf Hac Hsh Hdeps) as Hlt.
  rewrite create_plan_S, (Hrun depth fuel Hfuel). simpl.
  unfold dict_keys in *. rewrite <-(same_shape_keys _ _ Hsh).
  apply plan_loop_stable; [apply Hwf|done|].
  intros x q i j _ Hi Hj Hxq%Hlt.
  destruct (before_lookup _ _ _ (Htc x q Hxq)) as (j' & i' & Hji & Hj' & Hi').
  assert (i = i') as <- by (eapply NoDup_lookup; [apply Hwf|done|done]).
  assert (j = j') as <- by (eapply NoDup_lookup; [apply Hwf|done|done]).
  done.
Qed.

(** ** The report *)

(** X22: On an acyclic graph [dump] prints one block for each node, in the order
    the nodes were added; the block of a node lists its outgoing edges in
    the order they were added and, as its dependencies, exactly the nodes
    that can be reached from it. *)
Theorem dump_reports_closure (g : DirectedGraph) (depth fuel : nat) :
  reachable g → acyclic g → traversal_bound g ≤ fuel →
  ∃ g' report, dump (S (S depth)) fuel g = (g', report, Ok tt)
    ∧ dump_name <$> report = dict_keys (nodes g)
    ∧ ∀ entry, entry ∈ report →
        (∃ n, get_node g (dump_name entry) = Some n
              ∧ dump_edges entry
                = (λ e, (from_node e, to_node e)) <$> outgoing_edges n)
        ∧ ∀ m, m ∈ dump_depends_on entry ↔ tc (graph_edge g) (dump_name entry) m.
Proof.
  intros Hr Hac Hfuel. destruct (reachable_inv g Hr) as (Hwf & _ & _).
  destruct (find_paths_closure g Hr Hac) as (st' & ps & Hrun & Hsh & Hdeps & _).
  pose proof (same_shape_wf _ _ Hsh Hwf) as Hwf'.
  eexists _, _. split.
  { unfold dump, dump_with. rewrite (Hrun depth fuel Hfuel). simpl. reflexivity. }
  unfold dump_report. simpl.
  assert (∀ k n, (k, n) ∈ st' → dict_get k st' = Some n ∧ name n = k) as Hget.
  { intros k n Hkn. assert (dict_get k st' = Some n) as Hn.
    { apply dict_elem_get; [apply Hwf'|done]. }
    split; [done|]. by apply (wf_name _ Hwf' k n). }
  split.
  - rewrite <-list_fmap_compose. unfold dict_keys.
    rewrite (same_shape_keys _ _ Hsh). apply list_fmap_ext.
    intros i [k n] Hkn%list_elem_of_lookup_2. simpl. by apply Hget.
  - intros entry ([k n] & -> & Hkn)%list_elem_of_fmap. simpl.
    destruct (Hget k n Hkn) as [Hn Hname]. rewrite Hname. split.
    + destruct (same_shape_get_Some _ _ k n (same_shape_sym _ _ Hsh) Hn)
        as (n0 & Hn0 & Hshape).
      exists n0. split; [done|]. unfold node_shape in Hshape. simplify_eq.
      replace (outgoing_edges n0) with (outgoing_edges n) by done.
      apply list_fmap_ext. intros i e He%list_elem_of_lookup_2. f_equal.
      rewrite (wf_out _ Hwf' (name n) n Hn) in He.
      by apply list_elem_of_filter in He as [-> _].
    + intros m. rewrite <-(tc_graph_edge g) by done. rewrite <-Hdeps.
      unfold deps_of. by rewrite Hn.
Qed.

Lemma before_b_true l q p : before_b l q p = true → before l q p.
Proof.
  induction l as [|x l IH]; simpl; [done|]. case_bool_decide as Hx.
  - intros Hp%bool_decide_eq_true. subst. apply before_split. by exists [], l.
  - intros H. apply IH, before_split in H as (k1 & k2 & -> & Hp).
    apply before_split. by exists (x :: k1), k2.
Qed.

Lemma order_ok_spec (g : DirectedGraph) :
  order_ok (nodes g) = true →
  ∀ u v, edge_rel (nodes g) u v → before (dict_keys (nodes g)) v u.
Proof.
  intros Hok u v Huv. unfold edge_rel, succs, outgoing_of in Huv.
  apply list_elem_of_fmap in Huv as (e & -> & He).
  destruct (dict_get u (nodes g)) as [n|] eqn:E; [|by apply elem_of_nil in He].
  apply dict_get_Some_elem in E. unfold order_ok in Hok.
  rewrite forallb_forall in Hok. apply list_elem_of_In, Hok in E.
  rewrite forallb_forall in E. apply list_elem_of_In, E in He.
  by apply before_b_true.
Qed.

End Operations.

(** ** Concrete graphs *)

Section Examples.
Local Open Scope string_scope.

Example example_graph_paths :
  (find_paths 1 100 example_graph).2
  = Ok [["c"; "a"; "d"]; ["c"; "a"; "b"; "d"]; ["e"]; ["f"; "b"; "d"];
        ["f"; "a"; "d"]; ["f"; "a"; "b"; "d"]; ["f"; "g"; "d"]].
Proof. vm_compute. reflexivity. Qed.

Example example_graph_plan :
  (create_plan 2 100 example_graph).2 = Ok ["d"; "b"; "a"; "c"; "e"; "g"; "f"].
Proof. vm_compute. reflexivity. Qed.

End Examples.

(** ** The claims on the concrete graphs *)

(** X12: [find_paths] never raises "Cycle detected!" and never prints the
    report: when a traversal meets a cycle, the [dump] it calls starts the
    same traversal again. *)
Theorem find_paths_never_cycle_detected {Data : Type} (os : list (@op Data))
    (depth fuel : nat) :
  let g := apply_ops DirectedGraph_init os in
  (find_paths depth fuel g).1.2 = []
  ∧ (find_paths depth fuel g).2 ≠ Err CycleDetected.
Proof.
  intros g.
  assert (reachable g) as Hr by apply reachable_apply_ops, reachable_init.
  destruct (reachable_inv g Hr) as (_ & _ & Hd).
  destruct (find_paths_outcomes depth fuel g Hd)
    as [Hout [[ps ->]|[->|[->| ->]]]]; done.
Qed.

Lemma pair_graph_reachable : reachable pair_graph.
Proof. apply reachable_apply_ops, reachable_init. Qed.

Lemma pair_graph_acyclic : acyclic pair_graph.
Proof.
  apply (acyclic_of_rank _ (rank_of ["a"; "b"]%string)). vm_compute. reflexivity.
Qed.

Lemma cycle_graph_reachable : reachable cycle_graph.
Proof. apply reachable_apply_ops, reachable_init. Qed.

Lemma cycle_graph_has_cycle :
  tc (edge_rel (nodes cycle_graph)) "a"%string "b"%string
  ∧ tc (edge_rel (nodes cycle_graph)) "a"%string "a"%string.
Proof.
  assert (edge_rel (nodes cycle_graph) "a"%string "b"%string) as Hab
    by (vm_compute; apply list_elem_of_here).
  assert (edge_rel (nodes cycle_graph) "b"%string "c"%string) as Hbc
    by (vm_compute; apply list_elem_of_here).
  assert (edge_rel (nodes cycle_graph) "c"%string "a"%string) as Hca
    by (vm_compute; apply list_elem_of_here).
  split; [by apply tc_once|].
  eapply tc_l; [exact Hab|]. eapply tc_l; [exact Hbc|]. by apply tc_once.
Qed.

(** C1, as stated, fails: on the acyclic graph with the single edge a -> b
    no run of [create_plan] returns a list with a before b (the plan is
    [b; a]). *)
Lemma create_plan_sources_first_counterexample :
  reachable pair_graph ∧ acyclic pair_graph
  ∧ graph_edge pair_graph "a"%string "b"%string
  ∧ (create_plan 2 4 pair_graph).2 = Ok ["b"; "a"]%string
  ∧ ¬ ∃ depth fuel plan i j,
        (create_plan depth fuel pair_graph).2 = Ok plan
        ∧ plan !! i = Some "a"%string ∧ plan !! j = Some "b"%string ∧ i < j.
Proof.
  split; [apply pair_graph_reachable|]. split; [apply pair_graph_acyclic|].
  split.
  { exists (node_of pair_graph "a"%string). split; [by vm_compute|].
    vm_compute. apply list_elem_of_here. }
  split; [by vm_compute|].
  intros (depth & fuel & plan & i & j & Hplan & Hi & Hj & Hij).
  assert (plan = ["b"; "a"]%string) as ->.
  { destruct (create_plan_acyclic pair_graph pair_graph_reachable pair_graph_acyclic)
      as (plan0 & Hrun & _).
    assert (traversal_bound pair_graph = 2) as Hbound by by vm_compute.
    rewrite Hbound in Hrun.
    assert (plan0 = ["b"; "a"]%string) as ->.
    { destruct (Hrun 0 4) as [_ H]; [lia|]. vm_compute in H. by simplify_eq. }
    destruct depth as [|[|depth]]; [by vm_compute in Hplan..|].
    destruct (decide (2 ≤ fuel)) as [Hfuel|Hfuel].
    - destruct (Hrun depth fuel Hfuel) as [_ H]. rewrite H in Hplan. by simplify_eq.
    - destruct fuel as [|[|fuel]]; [by vm_compute in Hplan..|lia]. }
  destruct i as [|[|i]]; simplify_eq/=. destruct j as [|[|j]]; simplify_eq/=. lia.
Qed.

Lemma create_plan_dependencies_first_witness :
  ∃ plan, (create_plan 2 4 pair_graph).2 = Ok plan
    ∧ ∀ u v, graph_edge pair_graph u v →
        ∃ i j, plan !! i = Some v ∧ plan !! j = Some u ∧ i < j.
Proof.
  apply (create_plan_dependencies_first pair_graph 0 4).
  - apply pair_graph_reachable.
  - apply pair_graph_acyclic.
  - vm_compute. lia.
Defined.

Lemma create_plan_is_permutation_witness :
  ∃ plan, (create_plan 2 4 pair_graph).2 = Ok plan
    ∧ plan ≡ₚ dict_keys (nodes pair_graph)
    ∧ NoDup plan
    ∧ ∀ n, n ∈ plan ↔ is_Some (get_node pair_graph n).
Proof.
  apply (create_plan_is_permutation pair_graph 0 4).
  - apply pair_graph_reachable.
  - apply pair_graph_acyclic.
  - vm_compute. lia.
Defined.

(** C2: the graph a -> b -> c -> a has a cycle, yet [find_paths] returns
    the empty list of paths and [create_plan] returns an ordering. *)
Theorem cycle_graph_not_detected :
  reachable cycle_graph
  ∧ tc (edge_rel (nodes cycle_graph)) "a"%string "a"%string
  ∧ ∀ depth fuel,
      (find_paths (S depth) fuel cycle_graph).2 = Ok []
      ∧ (create_plan (S (S depth)) fuel cycle_graph).2 = Ok ["a"; "b"; "c"]%string.
Proof.
  split; [apply cycle_graph_reachable|]. split; [apply cycle_graph_has_cycle|].
  intros depth fuel. split; by vm_compute.
Qed.

(** C3: on the graph a -> b -> c -> a [find_paths] runs to completion
    without detecting a cycle, and the dependency set of a is empty although
    b is reachable from a. *)
Theorem cycle_graph_dependencies_missing :
  tc (edge_rel (nodes cycle_graph)) "a"%string "b"%string
  ∧ ∀ depth fuel,
      (find_paths (S depth) fuel cycle_graph).2 = Ok []
      ∧ deps_of (nodes (find_paths (S depth) fuel cycle_graph).1.1) "a"%string = ∅.
Proof.
  split; [apply cycle_graph_has_cycle|].
  intros depth fuel. split; by vm_compute.
Qed.

(** C4: on the graph a -> b -> c -> a, which has three nodes, the result of
    [find_paths] is empty. *)
Theorem cycle_graph_no_paths :
  length (nodes cycle_graph) = 3
  ∧ ∀ depth fuel, (find_paths (S depth) fuel cycle_graph).2 = Ok [].
Proof. split; [by vm_compute|]. intros depth fuel. by vm_compute. Qed.

(** C6: on the graph r -> a -> b -> c -> a the traversal meets the cycle in
    its fourth iteration; [find_paths] then prints nothing and ends in the
    interpreter's RecursionError, however deep the calls may nest. *)
Theorem rooted_cycle_recursion (depth k : nat) :
  reachable rooted_cycle_graph
  ∧ (find_paths depth (4 + k) rooted_cycle_graph).1.2 = []
  ∧ (find_paths depth (4 + k) rooted_cycle_graph).2 = Err RecursionError.
Proof.
  split; [apply reachable_apply_ops, reachable_init|].
  destruct (for_roots (4 + k) ["r"%string] (nodes rooted_cycle_graph) [])
    as [st' ps|st'|st'] eqn:Hfor; [by vm_compute in Hfor| |by vm_compute in Hfor].
  apply (cycle_recursion depth (4 + k) rooted_cycle_graph ["r"%string] st');
    [by vm_compute|by vm_compute|done].
Qed.

Lemma duplicate_relation_either_direction_witness :
  let g2 := apply_ops pair_graph [fresh "c"%string; Op_find_paths 1 4] in
  add_edge g2 "a"%string "b"%string = (g2, Err DuplicateRelation)
  ∧ add_edge g2 "b"%string "a"%string = (g2, Err DuplicateRelation).
Proof.
  apply (duplicate_relation_either_direction
           (apply_ops DirectedGraph_init [fresh "a"%string; fresh "b"%string])
           pair_graph "a"%string "b"%string [fresh "c"%string; Op_find_paths 1 4]).
  - apply reachable_apply_ops, reachable_init.
  - vm_compute. reflexivity.
Defined.

Lemma edges_recorded_symmetrically_witness :
  mkEdge "a"%string "b"%string ∈ edges (node_of pair_graph "a"%string)
  ↔ mkEdge "a"%string "b"%string ∈ edges (node_of pair_graph "b"%string).
Proof.
  apply (edges_recorded_symmetrically pair_graph "a"%string "b"%string).
  - apply pair_graph_reachable.
  - vm_compute. reflexivity.
  - vm_compute. reflexivity.
  - left. split; reflexivity.
Defined.

Lemma add_edge_failure_atomic_witness :
  (add_edge pair_graph "b"%string "a"%string).1 = pair_graph
  ∧ (DuplicateRelation = SelfLoop ∨ DuplicateRelation = UnknownNode
     ∨ DuplicateRelation = DuplicateRelation).
Proof.
  apply (add_edge_failure_atomic pair_graph _ "b"%string "a"%string DuplicateRelation).
  - apply pair_graph_reachable.
  - vm_compute. reflexivity.
Defined.

(** ** The further properties on the concrete graphs *)

Lemma example_graph_reachable : reachable example_graph.
Proof. apply reachable_apply_ops, reachable_init. Qed.

Lemma example_graph_acyclic : acyclic example_graph.
Proof.
  apply (acyclic_of_rank _ (rank_of ["f"; "c"; "g"; "a"; "b"; "d"; "e"]%string)).
  vm_compute. reflexivity.
Qed.

Lemma example_graph_bound : traversal_bound example_graph ≤ 1093.
Proof. vm_compute. lia. Qed.

Lemma layered_graph_reachable : reachable layered_graph.
Proof. apply reachable_apply_ops, reachable_init. Qed.

Lemma explored_example_graph_reachable : reachable explored_example_graph.
Proof. apply reachable_apply_ops, example_graph_reachable. Qed.

Section FurtherExamples.
Local Open Scope string_scope.
Local Open Scope list_scope.
Local Open Scope nat_scope.

Lemma incident_edges_partition_witness :
  let n := node_of example_graph "a" in
  has_outgoing_edges n = Ok (bool_decide (outgoing_edges n ≠ []))
  ∧ has_incoming_edges n = Ok (bool_decide (incoming_edges n ≠ []))
  ∧ (∀ e, e ∈ edges n ↔ e ∈ outgoing_edges n ∨ e ∈ incoming_edges n)
  ∧ (∀ e, e ∈ outgoing_edges n → e ∉ incoming_edges n)
  ∧ length (edges n) = length (outgoing_edges n) + length (incoming_edges n).
Proof.
  apply (incident_edges_partition example_graph "a").
  - apply example_graph_reachable.
  - vm_compute. reflexivity.
Defined.

Lemma add_node_get_node_witness :
  let node := Node_init "c" tt in
  ∃ g', add_node pair_graph node = (g', Ok tt)
    ∧ get_node g' (name node) = Some node
    ∧ (∀ k, k ≠ name node → get_node g' k = get_node pair_graph k)
    ∧ dict_keys (nodes g') = dict_keys (nodes pair_graph) ++ [name node].
Proof.
  apply (add_node_get_node pair_graph (Node_init "c" tt)).
  vm_compute. reflexivity.
Defined.

Lemma node_persists_witness :
  ∃ n', get_node (apply_ops pair_graph
                    [fresh "c"; Op_add_edge "c" "a";
                     Op_find_paths 1 10]) "a" = Some n'
        ∧ extends (node_of pair_graph "a") n'.
Proof.
  apply (node_persists pair_graph).
  - apply pair_graph_reachable.
  - vm_compute. reflexivity.
Defined.

Lemma add_edge_outcome_witness :
  ((add_edge pair_graph "b" "a").2 = Err SelfLoop ↔ "b" = "a")
  ∧ ((add_edge pair_graph "b" "a").2 = Err UnknownNode
     ↔ "b" ≠ "a" ∧ (get_node pair_graph "b" = None ∨ get_node pair_graph "a" = None))
  ∧ ((add_edge pair_graph "b" "a").2 = Err DuplicateRelation
     ↔ "b" ≠ "a" ∧ (graph_edge pair_graph "b" "a" ∨ graph_edge pair_graph "a" "b"))
  ∧ ((add_edge pair_graph "b" "a").2 = Ok tt
     ↔ "b" ≠ "a" ∧ is_Some (get_node pair_graph "b") ∧ is_Some (get_node pair_graph "a")
       ∧ ¬ graph_edge pair_graph "b" "a" ∧ ¬ graph_edge pair_graph "a" "b").
Proof.
  apply (add_edge_outcome pair_graph "b" "a"). apply pair_graph_reachable.
Defined.

Lemma add_edge_effect_witness :
  let g := apply_ops DirectedGraph_init [fresh "a"; fresh "b"] in
  graph_edge pair_graph "a" "b"
  ∧ paths pair_graph = paths g ∧ _cache_dirty pair_graph = _cache_dirty g
  ∧ dict_keys (nodes pair_graph) = dict_keys (nodes g)
  ∧ ∀ k n, get_node g k = Some n →
      ∃ n', get_node pair_graph k = Some n'
        ∧ name n' = name n ∧ data n' = data n ∧ _depends_on n' = _depends_on n
        ∧ edges n' = edges n ++ (if decide (k = "a" ∨ k = "b") then [mkEdge "a" "b"] else [])
        ∧ outgoing_edges n'
          = outgoing_edges n ++ (if decide (k = "a") then [mkEdge "a" "b"] else [])
        ∧ incoming_edges n'
          = incoming_edges n ++ (if decide (k = "b") then [mkEdge "a" "b"] else []).
Proof.
  apply (add_edge_effect (apply_ops DirectedGraph_init [fresh "a"; fresh "b"])
           pair_graph "a" "b").
  - apply reachable_apply_ops, reachable_init.
  - vm_compute. reflexivity.
Defined.

Lemma one_relation_per_pair_witness :
  (∀ a b, graph_edge example_graph a b → a ≠ b ∧ ¬ graph_edge example_graph b a)
  ∧ (∀ k n, get_node example_graph k = Some n → NoDup (edges n)).
Proof. apply (one_relation_per_pair example_graph), example_graph_reachable. Defined.

Lemma dependencies_are_reachable_witness :
  tc (graph_edge explored_example_graph) "f" "d"
  ∧ is_Some (get_node explored_example_graph "d").
Proof.
  apply (dependencies_are_reachable explored_example_graph "f"
           (node_of explored_example_graph "f") "d").
  - apply explored_example_graph_reachable.
  - vm_compute. reflexivity.
  - vm_compute. reflexivity.
Defined.

Lemma traversals_keep_structure_witness :
  let g' := (create_plan 2 100 example_graph).1.1 in
  dict_keys (nodes g') = dict_keys (nodes example_graph)
  ∧ _cache_dirty g' = true
  ∧ ∀ k n, get_node example_graph k = Some n →
      ∃ n', get_node g' k = Some n'
        ∧ name n' = name n ∧ data n' = data n ∧ edges n' = edges n
        ∧ outgoing_edges n' = outgoing_edges n
        ∧ incoming_edges n' = incoming_edges n
        ∧ _depends_on n ⊆ _depends_on n'.
Proof.
  apply (traversals_keep_structure example_graph _ 2 100).
  - apply example_graph_reachable.
  - right. left. reflexivity.
Defined.

Lemma find_paths_idempotent_witness :
  let ps := [["c"; "a"; "d"]; ["c"; "a"; "b"; "d"]; ["e"]; ["f"; "b"; "d"];
             ["f"; "a"; "d"]; ["f"; "a"; "b"; "d"]; ["f"; "g"; "d"]] in
  paths explored_example_graph = ps
  ∧ find_paths 3 1093 explored_example_graph = (explored_example_graph, [], Ok ps).
Proof.
  apply (find_paths_idempotent example_graph explored_example_graph 1 2 1093 []).
  - apply example_graph_reachable.
  - vm_compute. reflexivity.
Defined.

Lemma create_plan_idempotent_witness :
  create_plan 2 1093 explored_example_graph
  = (explored_example_graph, [], Ok ["d"; "b"; "a"; "c"; "e"; "g"; "f"]).
Proof.
  apply (create_plan_idempotent example_graph explored_example_graph 2 0 1093 []).
  - apply example_graph_reachable.
  - vm_compute. reflexivity.
Defined.

Lemma create_plan_follows_find_paths_witness :
  (∀ e, (find_paths 1 10 cycle_graph).2 = Err e →
        (create_plan 2 10 cycle_graph).2 = Err e)
  ∧ (∀ ps, (find_paths 1 10 cycle_graph).2 = Ok ps →
       ∃ plan, (create_plan 2 10 cycle_graph).2 = Ok plan
         ∧ plan ≡ₚ dict_keys (nodes cycle_graph) ∧ NoDup plan).
Proof.
  apply (create_plan_follows_find_paths cycle_graph 1 10), cycle_graph_reachable.
Defined.

Lemma find_paths_returns_maximal_paths_witness :
  let ps := [["c"; "a"; "d"]; ["c"; "a"; "b"; "d"]; ["e"]; ["f"; "b"; "d"];
             ["f"; "a"; "d"]; ["f"; "a"; "b"; "d"]; ["f"; "g"; "d"]] in
  (find_paths 1 100 example_graph).2 = Ok ps
  ∧ ∀ q, q ∈ ps → NoDup q ∧ maximal_path example_graph q.
Proof.
  split; [vm_compute; reflexivity|].
  apply (find_paths_returns_maximal_paths example_graph 1 100).
  - apply example_graph_reachable.
  - vm_compute. reflexivity.
Defined.

Lemma find_paths_returns_iff_witness :
  ((∃ ps, (find_paths 1 4 rooted_cycle_graph).2 = Ok ps)
     ↔ ∀ r, graph_root rooted_cycle_graph r → ¬ reaches_cycle rooted_cycle_graph r)
  ∧ ((find_paths 1 4 rooted_cycle_graph).2 = Err RecursionError
     ↔ ∃ r, graph_root rooted_cycle_graph r ∧ reaches_cycle rooted_cycle_graph r)
  ∧ (find_paths 1 4 rooted_cycle_graph).1.2 = [].
Proof.
  apply (find_paths_returns_iff rooted_cycle_graph 0 4).
  - apply reachable_apply_ops, reachable_init.
  - vm_compute. lia.
Defined.

Lemma Node_lt_is_reachability_witness :
  let na := node_of explored_example_graph "f" in
  let nb := node_of explored_example_graph "a" in
  let nc := node_of explored_example_graph "d" in
  (Node_lt na nb = true ↔ tc (graph_edge example_graph) "f" "a")
  ∧ Node_gt nb na = Node_lt na nb
  ∧ Node_lt na na = false
  ∧ (Node_lt na nb = true → Node_lt nb na = false)
  ∧ (Node_lt na nb = true → Node_lt nb nc = true → Node_lt na nc = true).
Proof.
  apply (Node_lt_is_reachability example_graph 0 1093 "f" "a" "d").
  - apply example_graph_reachable.
  - apply example_graph_acyclic.
  - apply example_graph_bound.
  - vm_compute. reflexivity.
  - vm_compute. reflexivity.
  - vm_compute. reflexivity.
Defined.

Lemma create_plan_respects_paths_witness :
  ∃ plan, (create_plan 2 1093 example_graph).2 = Ok plan
    ∧ ∀ u v, tc (graph_edge example_graph) u v →
        ∃ i j, plan !! i = Some v ∧ plan !! j = Some u ∧ i < j.
Proof.
  apply (create_plan_respects_paths example_graph 0 1093).
  - apply example_graph_reachable.
  - apply example_graph_acyclic.
  - apply example_graph_bound.
Defined.

Lemma create_plan_keeps_valid_order_witness :
  (create_plan 2 7 layered_graph).2 = Ok (dict_keys (nodes layered_graph)).
Proof.
  apply (create_plan_keeps_valid_order layered_graph 0 7).
  - apply layered_graph_reachable.
  - intros u v Huv. apply order_ok_spec; [by vm_compute|].
    apply graph_edge_rel; [|done]. apply reachable_inv, layered_graph_reachable.
  - vm_compute. lia.
Defined.

Lemma dump_reports_closure_witness :
  ∃ g' report, dump 2 1093 example_graph = (g', report, Ok tt)
    ∧ dump_name <$> report = dict_keys (nodes example_graph)
    ∧ ∀ entry, entry ∈ report →
        (∃ n, get_node example_graph (dump_name entry) = Some n
              ∧ dump_edges entry
                = (λ e, (from_node e, to_node e)) <$> outgoing_edges n)
        ∧ ∀ m, m ∈ dump_depends_on entry
               ↔ tc (graph_edge example_graph) (dump_name entry) m.
Proof.
  apply (dump_reports_closure example_graph 0 1093).
  - apply example_graph_reachable.
  - apply example_graph_acyclic.
  - apply example_graph_bound.
Defined.

Lemma acyclic_find_paths_witness :
  ∃ g' ps, find_paths 1 1093 example_graph = (g', [], Ok ps)
    ∧ (∀ n m, m ∈ deps_of (nodes g') n ↔ tc (edge_rel (nodes example_graph)) n m)
    ∧ (∀ q, q ∈ ps ↔ maximal_path example_graph q)
    ∧ (ps = [] → nodes example_graph = []).
Proof.
  apply (acyclic_find_paths example_graph 0 1093).
  - apply example_graph_reachable.
  - apply example_graph_acyclic.
  - apply example_graph_bound.
Defined.

End FurtherExamples.
